(** * server.cpp: a coroutine-driven io_uring file server

    A shallow embedding of [src/server.cpp].  The coroutine body
    ([serve], [http_send_file] and the [await_*] primitives) is written
    in a small resumption monad [coro]; the kernel (descriptor table,
    files, sockets) and the process memory the kernel writes into are an
    explicit [machine]; the [for (;;)] loop of [main] is a step function
    on a [loop_state], driven by what [accept] and [io_uring_peek_cqe]
    return in each iteration.

    What is taken from outside the source file:
    - Linux and liburing, as the section on the machine describes them.  A
      completion takes effect when the loop reaps it.  [exec], on which the
      statements about responses rest, is the run in which the kernel
      carries out every entry in full; the loop itself accepts any result.
    - The class [Fiber] of yield.hpp, from sections 4.3 and 7 of the
      specification.
    - Pointers into the vector [buffers] are element indices, so their
      order is the order of the indices.
    - [fmt::print] writes diagnostics to standard output and touches
      nothing else.
    - A fiber without a pool slot reads its request through a view of the
      array [buffer] after the block of that array has ended (lines
      153-158, read at lines 161 and 163).  What such a read finds is not
      determined by the program: the model takes it from the storage
      [dangling] of the fiber's stack, about which nothing is assumed. *)

From Stdlib Require Import ZArith Ascii String DecimalString.
From Equations Require Import Equations.
From stdpp Require Import base list gmap.

Local Open Scope Z_scope.

(** ** Bytes and strings *)

(** [char] is [ascii]; a [std::string], a [std::string_view] and the
    content of a [std::array<char, N>] are lists of them. *)
Abbreviation chars := (list ascii).

Definition lit (s : string) : chars := list_ascii_of_string s.

Definition CRLF : chars := ["013"%char; "010"%char].
Definition LF : chars := ["010"%char].
Definition SP : ascii := " "%char.
Definition NUL : ascii := "000"%char.

(** [enum { BUF_SIZE = 1024, SERVER_PORT = 8080 }] *)
Definition BUF_SIZE : Z := 1024.
Definition SERVER_PORT : Z := 8080.

(** [std::array<iovec, 12> iov_pool]: the number of pool slots. *)
Definition POOL_SLOTS : nat := 12.

(** [size_t] is 64 bits wide. *)
Definition size_t (z : Z) : Z := z mod 2 ^ 64.
Definition uint32_t (z : Z) : Z := z mod 2 ^ 32.
Definition uint16_t (z : Z) : Z := z mod 2 ^ 16.

(** ** Exceptions *)

Inductive exn : Type :=
| system_error (what : string)   (* thrown by [panic] *)
| out_of_range (what : string).  (* thrown by [std::string_view::substr] *)

(** ** Kernel interface types *)

(** [struct stat], the two fields the program reads. *)
Record stat : Type := { st_mode : Z; st_size : Z }.

(** [S_IFMT], [S_IFREG] and [S_IFDIR] are 0170000, 0100000 and 0040000 in
    octal. *)
Definition S_IFMT : Z := 0xF000.
Definition S_IFREG : Z := 0x8000.
Definition S_IFDIR : Z := 0x4000.
Definition S_ISREG (m : Z) : bool := Z.land m S_IFMT =? S_IFREG.

(** The two [std::array<char, BUF_SIZE>] locals of the coroutine body:
    [buffer] in [serve] and [filebuf] in [http_send_file]; and [dangling],
    the storage that was [buffer]'s once the block of [buffer] has ended
    (line 158).  The program writes [buffer] and [filebuf]; what
    [dangling] holds is up to the compiler and the calls made since. *)
Inductive local_array : Type := buffer | filebuf | dangling.

Global Instance local_array_eq_dec : EqDecision local_array.
Proof. solve_decision. Defined.

(** What an [iov_base] or a fixed-buffer address points at: a slot of the
    vector [buffers] (by index), a local array on the coroutine's stack, or
    the characters of an immutable string. *)
Inductive ptr : Type :=
| pool_slot (i : nat)
| stack (a : local_array)
| str_data (s : chars).

Record iovec : Type := { iov_base : ptr; iov_len : Z }.

Inductive rw : Type := READ | WRITE.

(** A submission queue entry as prepared by [io_uring_prep_readv] /
    [io_uring_prep_writev] ([prep_v]) or by [io_uring_prep_read_fixed] /
    [io_uring_prep_write_fixed] followed by the assignment of
    [sqe->buf_index] ([prep_fixed]).  The [user_data] tag [&fiber] is not a
    field: the event loop keeps the pending entry in the fiber it belongs
    to. *)
Inductive io_uring_sqe : Type :=
| prep_v (op : rw) (fd : Z) (ioves : list iovec) (nr_vecs : Z) (offset : Z)
| prep_fixed (op : rw) (fd : Z) (buf : nat) (nbytes : Z) (offset : Z)
             (buf_index : Z).

(** ** The coroutine monad

    A coroutine body is a tree of the effects it performs.  [Yield sqe k] is
    the sequence [io_uring_submit; fiber.yield()]: the body is suspended
    with [sqe] in flight, and [k res] is the rest of the body once the
    event loop has called [fiber->next(res)], [res] being
    [fiber.current().value()].  The other nodes are calls that return at
    once. *)
Inductive coro (A : Type) : Type :=
| Ret (a : A)
| Throw (e : exn)
| Yield (s : io_uring_sqe) (k : Z → coro A)
| Sys_open (path : chars) (k : Z → coro A)
| Sys_fstat (fd : Z) (k : option stat → coro A)
| Sys_close (fd : Z) (k : coro A)
| Mem_load (p : ptr) (k : chars → coro A)
| Fmt_print (msg : chars) (k : coro A).

Arguments Ret {A} a.
Arguments Throw {A} e.
Arguments Yield {A} s k.
Arguments Sys_open {A} path k.
Arguments Sys_fstat {A} fd k.
Arguments Sys_close {A} fd k.
Arguments Mem_load {A} p k.
Arguments Fmt_print {A} msg k.

Fixpoint bind {A B : Type} (c : coro A) (f : A → coro B) : coro B :=
  match c with
  | Ret a => f a
  | Throw e => Throw e
  | Yield s k => Yield s (λ res, bind (k res) f)
  | Sys_open p k => Sys_open p (λ fd, bind (k fd) f)
  | Sys_fstat fd k => Sys_fstat fd (λ st, bind (k st) f)
  | Sys_close fd k => Sys_close fd (bind k f)
  | Mem_load p k => Mem_load p (λ d, bind (k d) f)
  | Fmt_print msg k => Fmt_print msg (bind k f)
  end.

Declare Scope coro_scope.
Delimit Scope coro_scope with coro.
Notation "x <- c ;; k" := (bind c (λ x, k))
  (at level 100, c at next level, right associativity) : coro_scope.
Notation "c ;;; k" := (bind c (λ _, k))
  (at level 100, right associativity) : coro_scope.
Local Open Scope coro_scope.

Definition open (path : chars) : coro Z := Sys_open path Ret.
Definition fstat (fd : Z) : coro (option stat) := Sys_fstat fd Ret.
Definition close (fd : Z) : coro unit := Sys_close fd (Ret tt).
Definition load (p : ptr) : coro chars := Mem_load p Ret.
Definition print (msg : chars) : coro unit := Fmt_print msg (Ret tt).

(** ** std::string_view *)

Module string_view.

(** [std::string_view::npos] *)
Definition npos : Z := 2 ^ 64 - 1.

(** [sv.size()] *)
Definition size (sv : chars) : Z := Z.of_nat (length sv).

(** The index of the first [c] in [s]. *)
Fixpoint index_of (c : ascii) (s : chars) : option nat :=
match s with
| [] => None
| x :: t => if Ascii.eqb x c then Some O else S <$> index_of c t
end.

(** [sv.find(c, pos)] *)
Definition find (sv : chars) (c : ascii) (pos : Z) : Z :=
match index_of c (drop (Z.to_nat pos) sv) with
| Some i => pos + Z.of_nat i
| None => npos
end.

(** [sv.substr(pos, count)]: throws when [pos > size()], otherwise the view
  of [min(count, size() - pos)] characters from [pos]. *)
Definition substr (sv : chars) (pos count : Z) : coro chars :=
if size sv <? pos then Throw (out_of_range "basic_string_view::substr")
else Ret (take (Z.to_nat (Z.min count (size sv - pos)))
               (drop (Z.to_nat pos) sv)).

(** [char_traits<char>::compare] on two ranges of the same length. *)
Fixpoint traits_compare (a b : chars) : Z :=
match a, b with
| x :: a', y :: b' =>
    if (nat_of_ascii x <? nat_of_ascii y)%nat then -1
    else if (nat_of_ascii y <? nat_of_ascii x)%nat then 1
    else traits_compare a' b'
| _, _ => 0
end.

(** [a.compare(b)] on views. *)
Definition compare_view (a b : chars) : Z :=
let rlen := Nat.min (length a) (length b) in
let r := traits_compare (take rlen a) (take rlen b) in
if r =? 0 then
  if size a <? size b then -1 else if size b <? size a then 1 else 0
else r.

(** [sv.compare(pos1, count1, s)] is [sv.substr(pos1, count1).compare(s)]. *)
Definition compare (sv : chars) (pos1 count1 : Z) (s : chars) : coro Z :=
sub <- substr sv pos1 count1;; Ret (compare_view sub s).

End string_view.

(** [fmt::format("{}", n)] for an integer: its decimal digits. *)
Definition fmt_int (n : Z) : chars := lit (NilZero.string_of_int (Z.to_int n)).

(** ** The program *)

(** [panic]: throws, and nothing in the program catches. *)
Definition panic {A : Type} (sv : string) : coro A := Throw (system_error sv).

(** [struct fiber_data].  Pointers into [buffers] are element indices, the
    null pointer is [None]; [ring] always points at the one ring of [main],
    which is part of the machine below. *)
Record fiber_data : Type := {
  pool_start_ptr : nat;
  pool_ptr : option nat;
  clientfd : Z;
}.

(** [DEFINE_URING_OP(operation)]: prepare and submit the entry, yield, and
    on resumption check the completion result. *)
Definition await_v (op : rw) (operation : string) (fiber : fiber_data)
    (fd : Z) (ioves : list iovec) (offset : Z) : coro Z :=
  Yield (prep_v op fd ioves (Z.of_nat (length ioves)) offset) (λ res,
    if res <=? 0 then panic operation else Ret res).

Definition await_readv := await_v READ "readv".
Definition await_writev := await_v WRITE "writev".

(** [DEFINE_URING_FIXED_OP(operation)].  [pool->size()] is [BUF_SIZE].  The
    macro is only used by fibers that hold a slot; for a null [pool_ptr]
    the model takes slot 0. *)
Definition await_fixed (op : rw) (operation : string) (fiber : fiber_data)
    (fd : Z) (nbyte : Z) (offset : Z) : coro Z :=
  let pool := default O (pool_ptr fiber) in
  let nbyte := if nbyte =? 0 then BUF_SIZE else nbyte in
  Yield (prep_fixed op fd pool (uint32_t nbyte) offset
           (uint16_t (Z.of_nat pool - Z.of_nat (pool_start_ptr fiber))))
    (λ res, if res <=? 0 then panic operation else Ret res).

Definition await_read_fixed := await_fixed READ "read_fixed".
Definition await_write_fixed := await_fixed WRITE "write_fixed".

(** [to_iov], on a string view and on a local array. *)
Definition to_iov_sv (sv : chars) : iovec :=
  {| iov_base := str_data sv; iov_len := string_view.size sv |}.
Definition to_iov_array (a : local_array) : iovec :=
  {| iov_base := stack a; iov_len := BUF_SIZE |}.

Definition http_404_hdr : chars :=
  lit "HTTP/1.1 404 Not Found" ++ CRLF ++ lit "Content-Length: 0" ++ CRLF ++ CRLF.
Definition http_400_hdr : chars :=
  lit "HTTP/1.1 400 Bad Request" ++ CRLF ++ lit "Content-Length: 0" ++ CRLF ++ CRLF.

(** The header of line 111, [fmt::format] applied to [st.st_size]. *)
Definition http_200_hdr (st_size : Z) : chars :=
  lit "HTTP/1.1 200 OK" ++ CRLF ++ lit "Content-type: text/plain" ++ CRLF ++
  lit "Content-Length: " ++ fmt_int st_size ++ CRLF ++ CRLF.

(** [for (; st_size - offset > BUF_SIZE; offset += BUF_SIZE) body], the loop
    of lines 116-119 and of lines 128-131; the result is [offset] on
    exit. *)
Equations? for_chunks (body : Z → coro unit) (st_size offset : Z)
    : coro Z by wf (Z.to_nat (st_size - offset)) lt :=
for_chunks body st_size offset
    with decide (BUF_SIZE < st_size - offset) := {
  | left _ => body offset;;; for_chunks body st_size (offset + BUF_SIZE)
  | right _ => Ret offset }.
Proof. unfold BUF_SIZE in *. lia. Qed.

(** Lines 113-137 of [http_send_file]: the content of the open file
    [infd], [st_size] bytes, goes to the socket chunk by chunk. *)
Definition http_send_body (fiber : fiber_data) (infd st_size : Z)
    : coro unit :=
  let sockfd := clientfd fiber in
  if pool_ptr fiber is Some _ then
    offset <- for_chunks (λ offset,
                await_read_fixed fiber infd BUF_SIZE offset;;;
                await_write_fixed fiber sockfd BUF_SIZE 0;;;
                Ret tt) st_size 0;;
    if offset <? st_size then
      await_read_fixed fiber infd (size_t (st_size - offset)) offset;;;
      await_write_fixed fiber sockfd (size_t (st_size - offset)) 0;;;
      Ret tt
    else Ret tt
  else
    let iov := to_iov_array filebuf in
    offset <- for_chunks (λ offset,
                await_readv fiber infd [iov] offset;;;
                await_writev fiber sockfd [iov] 0;;;
                Ret tt) st_size 0;;
    if offset <? st_size then
      let iov := {| iov_base := iov_base iov;
                    iov_len := size_t (st_size - offset) |} in
      await_readv fiber infd [iov] offset;;;
      await_writev fiber sockfd [iov] 0;;;
      Ret tt
    else Ret tt.

(** [http_send_file].  [st] is [None] when [open] or [fstat] failed; the
    [||] of line 104 does not call [fstat] on a negative descriptor. *)
Definition http_send_file (fiber : fiber_data) (filename : chars)
    : coro unit :=
  let sockfd := clientfd fiber in
  let not_found : coro unit :=
    print (filename ++ lit ": file not found!" ++ LF);;;
    await_writev fiber sockfd [to_iov_sv http_404_hdr] 0;;;
    Ret tt in
  infd <- open filename;;
  st <- (if infd <? 0 then Ret None else fstat infd);;
  match st with
  | None => not_found
  | Some st =>
      if negb (S_ISREG (st_mode st)) then not_found
      else
        await_writev fiber sockfd
          [to_iov_sv (http_200_hdr (st_size st))] 0;;;
        http_send_body fiber infd (st_size st)
  end;;;
  close infd.

(** Lines 147-158 of [serve]: the first chunk of the request.  [buf_view]
    is a view of [res] bytes, and the result is the bytes it shows when
    lines 161 and 163 read it.  With a pool slot these are the bytes the
    read has put into the slot.  In the else branch the view is of the
    array [buffer], which is declared inside the block and is gone when
    the block ends at line 158: the view dangles, and what is read through
    it is what the storage [dangling] holds, not what the read put into
    [buffer]. *)
Definition serve_read (fiber : fiber_data) : coro chars :=
  let sockfd := clientfd fiber in
  if pool_ptr fiber is Some pool then
    res <- await_read_fixed fiber sockfd 0 0;;
    data <- load (pool_slot pool);;
    Ret (take (Z.to_nat (size_t res)) data)
  else
    res <- await_readv fiber sockfd [to_iov_array buffer] 0;;
    data <- load (stack dangling);;
    Ret (take (Z.to_nat (size_t res)) data).

(** Lines 160-170 of [serve]: what is done with the chunk. *)
Definition serve_parse (fiber : fiber_data) (buf_view : chars) : coro unit :=
  let sockfd := clientfd fiber in
  cmp <- string_view.compare buf_view 0 3 (lit "GET");;
  if cmp =? 0 then
    file <- string_view.substr buf_view 4
              (size_t (string_view.find buf_view SP 4 - 4));;
    print (lit "received request: " ++ file ++ LF);;;
    http_send_file fiber file
  else
    print (lit "unsupported request: %.*s" ++ LF);;;
    await_writev fiber sockfd [to_iov_sv http_400_hdr] 0;;;
    Ret tt.

(** [serve], lines 144-171. *)
Definition serve (fiber : fiber_data) : coro unit :=
  buf_view <- serve_read fiber;;
  serve_parse fiber buf_view.

(** ** The machine: kernel objects and process memory

    The program runs against Linux and liburing, which are not part of the
    repository.  Their behaviour is modelled as far as the program can
    observe it: path resolution, the descriptor table, regular-file reads,
    stream-socket reads and writes, and the memory that a completed read
    fills.  Files are not modified while they are served. *)

(** An inode: its mode bits and, for a regular file, its bytes. *)
Record inode : Type := { i_mode : Z; i_data : chars }.

(** What a descriptor is open on. *)
Inductive file : Type :=
| File (ino : inode)         (* a file opened with [O_RDONLY] *)
| Socket (rx tx : chars)     (* a connection: bytes that have arrived and
                                are not read yet, bytes sent so far *)
| Other.                     (* the ring, the listening socket, a tty *)

Record machine : Type := Machine {
  fs : chars → option inode;     (* what a path resolves to *)
  fdtab : list (option file);    (* the descriptor table, by descriptor *)
  buffers : list chars;          (* the vector [buffers] of [main] *)
  locals : local_array → chars;  (* the stack arrays of the running fiber *)
}.

Definition set_fdtab (t : list (option file)) (m : machine) : machine :=
  Machine (fs m) t (buffers m) (locals m).
Definition set_buffers (b : list chars) (m : machine) : machine :=
  Machine (fs m) (fdtab m) b (locals m).
Definition set_locals (l : local_array → chars) (m : machine) : machine :=
  Machine (fs m) (fdtab m) (buffers m) l.

Definition EBADF : Z := 9.
Definition EFAULT : Z := 14.
Definition S_IFSOCK : Z := 0xC000.

Definition fd_lookup (t : list (option file)) (fd : Z) : option file :=
  if fd <? 0 then None else mjoin (t !! Z.to_nat fd).

(** A new descriptor is the lowest one that is not open. *)
Fixpoint fd_alloc (t : list (option file)) (f : file)
    : nat * list (option file) :=
  match t with
  | [] => (O, [Some f])
  | None :: t' => (O, Some f :: t')
  | Some g :: t' => let '(n, t'') := fd_alloc t' f in (S n, Some g :: t'')
  end.

Definition fd_set (t : list (option file)) (fd : Z) (f : option file)
    : list (option file) :=
  if fd <? 0 then t else <[Z.to_nat fd := f]> t.

(** A path reaches the kernel as a C string: [filename.c_str()] ends at the
    first NUL. *)
Fixpoint c_str (s : chars) : chars :=
  match s with
  | [] => []
  | c :: t => if Ascii.eqb c NUL then [] else c :: c_str t
  end.

(** [open(path, O_RDONLY)] *)
Definition sys_open (path : chars) (m : machine) : Z * machine :=
  match fs m (c_str path) with
  | Some ino =>
      let '(fd, t) := fd_alloc (fdtab m) (File ino) in
      (Z.of_nat fd, set_fdtab t m)
  | None => (-1, m)
  end.

(** [fstat(fd, &st)]: [None] stands for a negative return value. *)
Definition sys_fstat (fd : Z) (m : machine) : option stat :=
  match fd_lookup (fdtab m) fd with
  | Some (File ino) =>
      Some {| st_mode := i_mode ino; st_size := string_view.size (i_data ino) |}
  | Some (Socket _ _) | Some Other =>
      Some {| st_mode := S_IFSOCK; st_size := 0 |}
  | None => None
  end.

(** [close(fd)] *)
Definition sys_close (fd : Z) (m : machine) : machine :=
  match fd_lookup (fdtab m) fd with
  | Some _ => set_fdtab (fd_set (fdtab m) fd None) m
  | None => m
  end.

(** [accept]: a new connection on which [rx] arrives. *)
Definition sys_accept (rx : chars) (m : machine) : Z * machine :=
  let '(fd, t) := fd_alloc (fdtab m) (Socket rx []) in
  (Z.of_nat fd, set_fdtab t m).

(** Memory: the bytes at a pointer, and a store of [d] at a pointer, which
    leaves the bytes after [d] as they were. *)
Definition mem_load (p : ptr) (m : machine) : chars :=
  match p with
  | pool_slot i => default [] (buffers m !! i)
  | stack a => locals m a
  | str_data s => s
  end.

Definition overlay (d old : chars) : chars := d ++ drop (length d) old.

Definition mem_store (p : ptr) (d : chars) (m : machine) : machine :=
  match p with
  | pool_slot i => set_buffers (alter (overlay d) i (buffers m)) m
  | stack a =>
      set_locals (λ b, if decide (b = a) then overlay d (locals m a)
                       else locals m b) m
  | str_data _ => m
  end.

(** *** Completion of a submitted entry

    The entry as the kernel reads it: direction, descriptor, the memory
    ranges and the file offset.  A fixed entry is refused with [EFAULT]
    unless [buf_index] names the registered buffer its address lies in. *)
Definition sqe_op (s : io_uring_sqe) : rw :=
  match s with prep_v op _ _ _ _ | prep_fixed op _ _ _ _ _ => op end.
Definition sqe_fd (s : io_uring_sqe) : Z :=
  match s with prep_v _ fd _ _ _ | prep_fixed _ fd _ _ _ _ => fd end.
Definition sqe_offset (s : io_uring_sqe) : Z :=
  match s with prep_v _ _ _ _ off | prep_fixed _ _ _ _ off _ => off end.

Definition sqe_ranges (s : io_uring_sqe) (m : machine)
    : option (list iovec) :=
  match s with
  | prep_v _ _ ioves nr_vecs _ => Some (take (Z.to_nat nr_vecs) ioves)
  | prep_fixed _ _ buf nbytes _ buf_index =>
      if decide (buf_index = Z.of_nat buf ∧ (buf < length (buffers m))%nat)
      then Some [{| iov_base := pool_slot buf; iov_len := nbytes |}]
      else None
  end.

Definition capacity (ioves : list iovec) : Z :=
  foldr (λ v acc, iov_len v + acc) 0 ioves.

(** The bytes a write takes from memory, range after range. *)
Definition gather (ioves : list iovec) (m : machine) : chars :=
  flat_map (λ v, take (Z.to_nat (iov_len v)) (mem_load (iov_base v) m)) ioves.

(** The bytes of a read go to memory, range after range. *)
Fixpoint scatter (ioves : list iovec) (d : chars) (m : machine) : machine :=
  match ioves with
  | [] => m
  | v :: vs =>
      let n := Z.to_nat (iov_len v) in
      scatter vs (drop n d) (mem_store (iov_base v) (take n d) m)
  end.

(** What a read of [f] at [offset] can deliver. *)
Definition readable (f : file) (offset : Z) : chars :=
  match f with
  | File ino => drop (Z.to_nat offset) (i_data ino)
  | Socket rx _ => rx
  | Other => []
  end.

(** The result a kernel that carries out every entry in full puts in the
    completion: the number of bytes moved (0 at end of file), or a negated
    [errno]. *)
Definition full_result (s : io_uring_sqe) (m : machine) : Z :=
  match sqe_ranges s m, fd_lookup (fdtab m) (sqe_fd s) with
  | None, _ => - EFAULT
  | _, None => - EBADF
  | Some ioves, Some f =>
      match sqe_op s, f with
      | READ, _ =>
          Z.min (capacity ioves) (string_view.size (readable f (sqe_offset s)))
      | WRITE, Socket _ _ => string_view.size (gather ioves m)
      | WRITE, _ => - EBADF
      end
  end.

(** The effect of an entry that completes with result [res]: [res] bytes
    are moved when [res] is positive, nothing happens otherwise. *)
Definition complete (s : io_uring_sqe) (res : Z) (m : machine) : machine :=
  match sqe_ranges s m, fd_lookup (fdtab m) (sqe_fd s) with
  | Some ioves, Some f =>
      if res <=? 0 then m
      else
        let n := Z.to_nat res in
        match sqe_op s, f with
        | READ, Socket rx tx =>
            scatter ioves (take n rx)
              (set_fdtab (fd_set (fdtab m) (sqe_fd s)
                            (Some (Socket (drop n rx) tx))) m)
        | READ, _ => scatter ioves (take n (readable f (sqe_offset s))) m
        | WRITE, Socket rx tx =>
            set_fdtab (fd_set (fdtab m) (sqe_fd s)
                         (Some (Socket rx (tx ++ take n (gather ioves m))))) m
        | WRITE, _ => m
        end
  | _, _ => m
  end.

(** ** Running a coroutine body *)

(** What a body did, in order. *)
Inductive call : Type :=
| io_uring_submit (s : io_uring_sqe) (res : Z)
| call_open (path : chars) (ret : Z)
| call_fstat (fd : Z)
| call_close (fd : Z)
| call_print (msg : chars).

(** [advance]: run a body up to its next suspension, as one call of
    [fiber->next] does. *)
Inductive progress (A : Type) : Type :=
| Suspended (m : machine) (s : io_uring_sqe) (k : Z → coro A)
| Finished (m : machine) (a : A)
| Raised (m : machine) (e : exn).

Arguments Suspended {A} m s k.
Arguments Finished {A} m a.
Arguments Raised {A} m e.

Fixpoint advance {A : Type} (c : coro A) (m : machine) : progress A :=
  match c with
  | Ret a => Finished m a
  | Throw e => Raised m e
  | Yield s k => Suspended m s k
  | Sys_open path k => let '(fd, m') := sys_open path m in advance (k fd) m'
  | Sys_fstat fd k => advance (k (sys_fstat fd m)) m
  | Sys_close fd k => advance k (sys_close fd m)
  | Mem_load p k => advance (k (mem_load p m)) m
  | Fmt_print _ k => advance k m
  end.

(** [exec]: run a body to its end when every entry it submits is carried
    out in full and completes at once.  The result is the list of calls
    made, the machine at the end, and the value returned or the exception
    that left the body. *)
Record run (A : Type) : Type := Run {
  calls : list call;
  final : machine;
  result : exn + A;
}.

Arguments Run {A} calls final result.
Arguments calls {A} r.
Arguments final {A} r.
Arguments result {A} r.

Definition after {A : Type} (c : call) (r : run A) : run A :=
  Run (c :: calls r) (final r) (result r).

Fixpoint exec {A : Type} (c : coro A) (m : machine) : run A :=
  match c with
  | Ret a => Run [] m (inr a)
  | Throw e => Run [] m (inl e)
  | Yield s k =>
      let res := full_result s m in
      after (io_uring_submit s res) (exec (k res) (complete s res m))
  | Sys_open path k =>
      let '(fd, m') := sys_open path m in
      after (call_open path fd) (exec (k fd) m')
  | Sys_fstat fd k => after (call_fstat fd) (exec (k (sys_fstat fd m)) m)
  | Sys_close fd k => after (call_close fd) (exec k (sys_close fd m))
  | Mem_load p k => exec (k (mem_load p m)) m
  | Fmt_print msg k => after (call_print msg) (exec k m)
  end.

(** ** The event loop of [main] *)

(** Modelled from the spec: the class [Fiber<int, fiber_data>] of
    yield.hpp, which is not among the sources.  A fiber carries
    [localData] and a body; [next] runs the body until it yields or
    returns and tells whether it is still alive; an exception that leaves
    the body leaves [next] too.  Between two calls of [next] a live fiber
    is suspended in one [yield]: what is kept of it is its stack arrays,
    the entry it submitted and the rest of its body. *)
Record Fiber : Type := {
  localData : fiber_data;
  saved_locals : local_array → chars;
  pending : io_uring_sqe;
  continuation : Z → coro unit;
}.

(** The variables of [main] that the loop reads and writes: the kernel and
    the vector [buffers] (in [mach]), the set [available_buffers] of
    pointers to free slots, and the fibers allocated with [new] and not yet
    deleted, by address. *)
Record loop_state : Type := {
  mach : machine;
  available_buffers : gset nat;
  fibers : gmap positive Fiber;
}.

Inductive status : Type :=
| Running (s : loop_state)
| Terminated (e : exn).   (* an exception left [main] *)

(** [available_buffers.begin()]: a [std::set] is ordered, and pointers to
    the elements of one vector are ordered as their indices, so the first
    element is the smallest index. *)
Definition begin (s : gset nat) : nat :=
  match elements s with
  | [] => O
  | x :: l => foldr Nat.min x l
  end.

(** Lines 227 and 230-235: the slot for a new connection, and the free set
    after it is taken. *)
Definition acquire (available_buffers : gset nat) : option nat * gset nat :=
  if decide (available_buffers = ∅) then (None, available_buffers)
  else
    let first_buf := begin available_buffers in
    (Some first_buf, available_buffers ∖ {[first_buf]}).

(** [cleanFiber] *)
Definition cleanFiber (addr : positive) (fiber : fiber_data) (s : loop_state)
    : loop_state :=
  {| mach := sys_close (clientfd fiber) (mach s);
     available_buffers :=
       if pool_ptr fiber is Some p then {[p]} ∪ available_buffers s
       else available_buffers s;
     fibers := delete addr (fibers s) |}.

(** Modelled from the spec: [Fiber::next] of yield.hpp, which section 4.3
    describes: it runs the body until the next suspension or until it
    returns and reports whether the fiber is alive; an exception of the
    body is an exception of [next], which [main] does not catch (section
    7).  The definition is the statement
    [if (!fiber->next(...)) cleanFiber(fiber);] of lines 237 and 246, on
    the fiber at [addr] whose body, from where it stands, is [body]. *)
Definition next (addr : positive) (fiber : fiber_data) (body : coro unit)
    (s : loop_state) : status :=
  match advance body (mach s) with
  | Suspended m sqe k =>
      Running {| mach := m;
                 available_buffers := available_buffers s;
                 fibers := <[addr := {| localData := fiber;
                                        saved_locals := locals m;
                                        pending := sqe;
                                        continuation := k |}]> (fibers s) |}
  | Finished m _ =>
      Running (cleanFiber addr fiber
                 {| mach := m;
                    available_buffers := available_buffers s;
                    fibers := fibers s |})
  | Raised _ e => Terminated e
  end.

(** What one iteration of the loop gets from outside: [accept] returns a
    new connection (on which [rx] arrives; [new] returns [addr], and the
    stack of the new fiber holds [uninit]); or [accept] fails and
    [io_uring_peek_cqe] delivers a completion with its tag and result,
    delivers nothing, or fails. *)
Inductive input : Type :=
| accept_ok (rx : chars) (addr : positive) (uninit : local_array → chars)
| cqe_ready (user_data : positive) (res : Z)
| cqe_none
| peek_cqe_failed.

(** One iteration of [for (;;)].  [None]: the input cannot occur in this
    state ([new] returns storage that is not in use, and a completion
    carries the tag of a fiber that is waiting for one). *)
Definition step (i : input) (s : loop_state) : option status :=
  match i with
  | accept_ok rx addr uninit =>
      if decide (addr ∈ dom (fibers s)) then None
      else
        let '(newfd, m) := sys_accept rx (mach s) in
        let '(pool, available) := acquire (available_buffers s) in
        let fiber := {| pool_start_ptr := O; pool_ptr := pool;
                        clientfd := newfd |} in
        Some (next addr fiber (serve fiber)
                {| mach := set_locals uninit m;
                   available_buffers := available;
                   fibers := fibers s |})
  | cqe_ready addr res =>
      match fibers s !! addr with
      | None => None
      | Some f =>
          Some (next addr (localData f) (continuation f res)
                  {| mach := complete (pending f) res
                               (set_locals (saved_locals f) (mach s));
                     available_buffers := available_buffers s;
                     fibers := fibers s |})
      end
  | cqe_none => Some (Running s)
  | peek_cqe_failed => Some (Terminated (system_error "peek_cqe"))
  end.

(** The state in which [main] enters the loop: every slot of [buffers] is
    zero-filled and free, no fiber exists. *)
Definition main_init (fs : chars → option inode) (fdtab : list (option file))
    : loop_state :=
  {| mach := Machine fs fdtab
               (replicate POOL_SLOTS (replicate (Z.to_nat BUF_SIZE) NUL))
               (λ _, []);
     available_buffers := list_to_set (seq 0 POOL_SLOTS);
     fibers := ∅ |}.

Inductive reachable (init : loop_state) : loop_state → Prop :=
| reachable_init : reachable init init
| reachable_step s i s' :
    reachable init s → step i s = Some (Running s') → reachable init s'.

(** Slot [i] is leased: a live fiber holds it in [localData.pool_ptr]. *)
Definition leased_to (s : loop_state) (i : nat) (addr : positive) : Prop :=
  ∃ f, fibers s !! addr = Some f ∧ pool_ptr (localData f) = Some i.

Definition leased (s : loop_state) (i : nat) : Prop :=
  ∃ addr, leased_to s i addr.

(** Free and leased slots partition the pool, and a slot has one holder. *)
Definition pool_partition (s : loop_state) : Prop :=
  (∀ i, (i < POOL_SLOTS)%nat ↔ i ∈ available_buffers s ∨ leased s i) ∧
  (∀ i, i ∈ available_buffers s → ¬ leased s i) ∧
  (∀ i a b, leased_to s i a → leased_to s i b → a = b).

(** ** Vocabulary of the statements *)

(** The bytes sent so far on descriptor [fd]. *)
Definition sent (m : machine) (fd : Z) : chars :=
  match fd_lookup (fdtab m) fd with
  | Some (Socket _ tx) => tx
  | _ => []
  end.

(** A pointer at memory that can be written. *)
Definition valid_ptr (p : ptr) (m : machine) : Prop :=
  match p with
  | pool_slot i => (i < length (buffers m))%nat
  | stack _ => True
  | str_data _ => False
  end.

(** The fiber's pool slot, if it has one, is a slot of the vector
    [buffers], which [main] made of [POOL_SLOTS] arrays. *)
Definition slot_ok (fiber : fiber_data) (m : machine) : Prop :=
  pool_start_ptr fiber = O ∧
  length (buffers m) = POOL_SLOTS ∧
  ∀ p, pool_ptr fiber = Some p → (p < POOL_SLOTS)%nat.

(** The fiber's connection is open, [rx] has arrived on it and [tx] has
    been sent. *)
Definition connected (fiber : fiber_data) (m : machine) (rx tx : chars)
    : Prop :=
  fd_lookup (fdtab m) (clientfd fiber) = Some (Socket rx tx) ∧
  slot_ok fiber m.

(** The machine while the fiber sends the file [ino], open as [infd]. *)
Definition sending (fiber : fiber_data) (infd : Z) (ino : inode)
    (m : machine) (rx tx : chars) : Prop :=
  slot_ok fiber m ∧
  fd_lookup (fdtab m) infd = Some (File ino) ∧
  fd_lookup (fdtab m) (clientfd fiber) = Some (Socket rx tx).

(** From [m] to [m'] the bytes [d] were sent on [sockfd], and nothing else
    happened to the file system or to the descriptor table. *)
Definition wrote (sockfd : Z) (d : chars) (m m' : machine) : Prop :=
  fs m' = fs m ∧
  length (buffers m') = length (buffers m) ∧
  ∃ rx tx,
    fd_lookup (fdtab m) sockfd = Some (Socket rx tx) ∧
    fdtab m' = fd_set (fdtab m) sockfd (Some (Socket rx (tx ++ d))).

(** From [m] to [m'] the fiber's connection was served the bytes [d]: they
    were sent on it, and every other descriptor is as it was (a file that
    was opened is closed again). *)
Definition served (fiber : fiber_data) (d : chars) (m m' : machine) : Prop :=
  fs m' = fs m ∧
  length (buffers m') = length (buffers m) ∧
  (∀ fd, fd ≠ clientfd fiber →
         fd_lookup (fdtab m') fd = fd_lookup (fdtab m) fd) ∧
  ∃ rx tx,
    fd_lookup (fdtab m) (clientfd fiber) = Some (Socket rx tx) ∧
    fd_lookup (fdtab m') (clientfd fiber) = Some (Socket rx (tx ++ d)).

(** The spec's target identifier: the bytes of the chunk from index 4 up
    to the next space, or up to the end of the chunk when no space
    follows. *)
Fixpoint up_to_space (s : chars) : chars :=
  match s with
  | [] => []
  | c :: t => if Ascii.eqb c SP then [] else c :: up_to_space t
  end.

Definition target (chunk : chars) : chars := up_to_space (drop 4 chunk).

(** The paths given to [open], in order. *)
Definition opened (cs : list call) : list chars :=
  omap (λ c, if c is call_open path _ then Some path else None) cs.


(** The entries submitted, in order. *)
Definition submitted (cs : list call) : list io_uring_sqe :=
  omap (λ c, if c is io_uring_submit s _ then Some s else None) cs.

(** The number of bytes an entry asks for. *)
Definition sqe_len (s : io_uring_sqe) : Z :=
  match s with
  | prep_v _ _ ioves nr_vecs _ => capacity (take (Z.to_nat nr_vecs) ioves)
  | prep_fixed _ _ _ nbytes _ _ => nbytes
  end.

Definition is_fixed (s : io_uring_sqe) : bool :=
  if s is prep_fixed _ _ _ _ _ _ then true else false.

(** The memory through which a fiber passes a file: its pool slot, or the
    array [filebuf] on its stack. *)
Definition file_buffer (fiber : fiber_data) : ptr :=
  if pool_ptr fiber is Some p then pool_slot p else stack filebuf.

(** One read-then-write cycle of [n] bytes at [offset] of the file [infd]:
    the two entries, and the two calls when both complete in full. *)
Definition read_sqe (fiber : fiber_data) (infd offset n : Z) : io_uring_sqe :=
  if pool_ptr fiber is Some p
  then prep_fixed READ infd p n offset (Z.of_nat p)
  else prep_v READ infd [{| iov_base := stack filebuf; iov_len := n |}] 1
         offset.

Definition write_sqe (fiber : fiber_data) (n : Z) : io_uring_sqe :=
  if pool_ptr fiber is Some p
  then prep_fixed WRITE (clientfd fiber) p n 0 (Z.of_nat p)
  else prep_v WRITE (clientfd fiber)
         [{| iov_base := stack filebuf; iov_len := n |}] 1 0.

(** The two awaited calls of a cycle, for either kind of fiber. *)
Definition await_read (fiber : fiber_data) (infd n offset : Z) : coro Z :=
  if pool_ptr fiber is Some _ then await_read_fixed fiber infd n offset
  else await_readv fiber infd [{| iov_base := stack filebuf; iov_len := n |}]
         offset.

Definition await_write (fiber : fiber_data) (n : Z) : coro Z :=
  if pool_ptr fiber is Some _
  then await_write_fixed fiber (clientfd fiber) n 0
  else await_writev fiber (clientfd fiber)
         [{| iov_base := stack filebuf; iov_len := n |}] 0.

Definition cycle (fiber : fiber_data) (infd offset n : Z) : list call :=
  [io_uring_submit (read_sqe fiber infd offset n) n;
   io_uring_submit (write_sqe fiber n) n].

(** [count] cycles of [BUF_SIZE] bytes each, from [offset] on. *)
Fixpoint cycles (fiber : fiber_data) (infd offset : Z) (count : nat)
    : list call :=
  match count with
  | O => []
  | S count' =>
      cycle fiber infd offset BUF_SIZE ++
      cycles fiber infd (offset + BUF_SIZE) count'
  end.

(** The calls of [http_send_body] for a file of [st_size] bytes: cycles of
    [BUF_SIZE] bytes, and a last one for what is left. *)
Definition body_calls (fiber : fiber_data) (infd st_size : Z) : list call :=
  if st_size <=? 0 then []
  else
    let full := (st_size - 1) / BUF_SIZE in
    cycles fiber infd 0 (Z.to_nat full) ++
    cycle fiber infd (full * BUF_SIZE) (st_size - full * BUF_SIZE).

(** The entry of the first read of a connection. *)
Definition request_sqe (fiber : fiber_data) : io_uring_sqe :=
  if pool_ptr fiber is Some p
  then prep_fixed READ (clientfd fiber) p BUF_SIZE 0 (Z.of_nat p)
  else prep_v READ (clientfd fiber) [to_iov_array buffer] 1 0.

(** The memory the first read fills. *)
Definition request_buffer (fiber : fiber_data) : ptr :=
  if pool_ptr fiber is Some p then pool_slot p else stack buffer.

(** The first chunk of a request: what one read of [BUF_SIZE] bytes takes
    of the bytes [rx] that have arrived. *)
Definition first_chunk (rx : chars) : chars := take (Z.to_nat BUF_SIZE) rx.

(** What [buf_view] shows at lines 161 and 163, in a fiber that starts on
    the machine [m] with [rx] arriving: as many bytes as the first chunk
    has; with a pool slot the first chunk itself, without one the bytes
    of the storage [dangling]. *)
Definition request_view (fiber : fiber_data) (m : machine) (rx : chars)
    : chars :=
  if pool_ptr fiber is Some _ then first_chunk rx
  else take (length (first_chunk rx)) (locals m dangling).

(** The fixed responses of the two error cases as the spec gives them, and
    the response for a file. *)
Definition response_400 : chars :=
  lit "HTTP/1.1 400 Bad Request" ++ CRLF ++ lit "Content-Length: 0" ++ CRLF ++ CRLF.
Definition response_404 : chars :=
  lit "HTTP/1.1 404 Not Found" ++ CRLF ++ lit "Content-Length: 0" ++ CRLF ++ CRLF.
Definition response_200 (data : chars) : chars :=
  lit "HTTP/1.1 200 OK" ++ CRLF ++ lit "Content-type: text/plain" ++ CRLF ++
  lit "Content-Length: " ++ fmt_int (Z.of_nat (length data)) ++ CRLF ++ CRLF ++
  data.

(** The response of the specification (sections 6 and 8) for a first
    chunk, in a file system: a chunk that begins with the four bytes
    "GET " names a target and is answered with the file or with 404, any
    other chunk is answered with 400. *)
Definition spec_response (fs : chars → option inode) (chunk : chars) : chars :=
  if decide (take 4 chunk = lit "GET ") then
    match fs (c_str (target chunk)) with
    | Some ino =>
        if S_ISREG (i_mode ino) then response_200 (i_data ino)
        else response_404
    | None => response_404
    end
  else response_400.

(** The response of the code for the bytes [chunk] that [buf_view] shows:
    the test of line 161 is on three bytes, "GET", and the byte at index 3
    is not looked at. *)
Definition http_response (fs : chars → option inode) (chunk : chars) : chars :=
  if decide (take 3 chunk = lit "GET") then
    match fs (c_str (target chunk)) with
    | Some ino =>
        if S_ISREG (i_mode ino) then response_200 (i_data ino)
        else response_404
    | None => response_404
    end
  else response_400.

(** The name an awaited primitive gives to [panic]: [#operation] in
    [DEFINE_URING_OP], [#operation "_fixed"] in [DEFINE_URING_FIXED_OP]. *)
Definition operation_name (s : io_uring_sqe) : string :=
  match s with
  | prep_v READ _ _ _ _ => "readv"
  | prep_v WRITE _ _ _ _ => "writev"
  | prep_fixed READ _ _ _ _ _ => "read_fixed"
  | prep_fixed WRITE _ _ _ _ _ => "write_fixed"
  end.

(** Every [yield] of a body is the one of an awaited primitive: resumed
    with a result that is not positive, the body throws what [panic]
    throws for the entry in flight. *)
Inductive guarded {A : Type} : coro A → Prop :=
| guarded_Ret a : guarded (Ret a)
| guarded_Throw e : guarded (Throw e)
| guarded_Yield s k :
    (∀ res, res ≤ 0 → k res = panic (operation_name s)) →
    (∀ res, guarded (k res)) →
    guarded (Yield s k)
| guarded_open path k : (∀ fd, guarded (k fd)) → guarded (Sys_open path k)
| guarded_fstat fd k : (∀ st, guarded (k st)) → guarded (Sys_fstat fd k)
| guarded_close fd k : guarded k → guarded (Sys_close fd k)
| guarded_load p k : (∀ d, guarded (k d)) → guarded (Mem_load p k)
| guarded_print msg k : guarded k → guarded (Fmt_print msg k).

(** A suspended fiber whose body is guarded. *)
Definition fiber_guarded (f : Fiber) : Prop :=
  (∀ res, res ≤ 0 → continuation f res = panic (operation_name (pending f))) ∧
  ∀ res, guarded (continuation f res).

(** ** An example world

    A file system with a regular file [/a] of five bytes, a regular file
    [/k] of two chunks, an empty regular file [/e] and a directory [/d]; a
    process with five descriptors in use and a connection on descriptor 5
    on which [rx] has arrived; a fiber for that connection. *)
Definition example_file (data : chars) : inode :=
  {| i_mode := Z.lor S_IFREG 0x1A4; i_data := data |}.

Definition example_fs (path : chars) : option inode :=
  if decide (path = lit "/a") then Some (example_file (lit "hello"))
  else if decide (path = lit "/k")
  then Some (example_file (replicate 2048 "x"%char))
  else if decide (path = lit "/e") then Some (example_file [])
  else if decide (path = lit "/d")
  then Some {| i_mode := Z.lor S_IFDIR 0x1ED; i_data := [] |}
  else None.

Definition example_machine (rx : chars) : machine :=
  Machine example_fs
    [Some Other; Some Other; Some Other; Some Other; Some Other;
     Some (Socket rx [])]
    (replicate POOL_SLOTS (replicate (Z.to_nat BUF_SIZE) NUL))
    (λ _, []).

Definition example_fiber (pool : option nat) : fiber_data :=
  {| pool_start_ptr := O; pool_ptr := pool; clientfd := 5 |}.

(** ** One connection in the loop

    [drives addr qs st st']: the loop goes from [st] to [st'] by iterations
    in which the completion of the fiber at [addr] arrives, each with the
    result of a kernel that carried the entry out in full; [qs] are the
    entries completed on the way. *)
Inductive drives (addr : positive)
    : list io_uring_sqe → status → status → Prop :=
| drives_refl st : drives addr [] st st
| drives_step s f st qs st' :
    fibers s !! addr = Some f →
    step (cqe_ready addr
            (full_result (pending f) (set_locals (saved_locals f) (mach s))))
         s = Some st →
    drives addr qs st st' →
    drives addr (pending f :: qs) (Running s) st'.

(** The loop of the example process, and the state an iteration leaves. *)
Definition example_init : loop_state :=
  main_init example_fs
    [Some Other; Some Other; Some Other; Some Other; Some Other].

Definition after_step (i : input) (s : loop_state) : loop_state :=
  match step i s with
  | Some (Running s') => s'
  | _ => s
  end.

(** One connection has been accepted: its fiber is at address 1. *)
Definition example_accepted (rx : chars) : loop_state :=
  after_step (accept_ok rx 1%positive (λ _, [])) example_init.

(** Twelve connections have been accepted, at addresses 1 to 12, and none
    has completed anything: the pool is exhausted. *)
Definition example_exhausted : loop_state :=
  foldl (λ s addr, after_step (accept_ok (lit "GET /a HTTP/1.1") addr (λ _, [])) s)
        example_init
        [1; 2; 3; 4; 5; 6; 7; 8; 9; 10; 11; 12]%positive.

(** ** Every path of a body

    [always P Q c]: whatever the calls of the body [c] return and whatever
    results its entries complete with, every entry it submits satisfies
    [P] and every value it returns satisfies [Q]. *)
Inductive always {A : Type} (P : io_uring_sqe → Prop) (Q : A → Prop)
    : coro A → Prop :=
| always_Ret a : Q a → always P Q (Ret a)
| always_Throw e : always P Q (Throw e)
| always_Yield s k :
    P s → (∀ res, always P Q (k res)) → always P Q (Yield s k)
| always_open path k :
    (∀ fd, always P Q (k fd)) → always P Q (Sys_open path k)
| always_fstat fd k :
    (∀ st, always P Q (k st)) → always P Q (Sys_fstat fd k)
| always_close fd k : always P Q k → always P Q (Sys_close fd k)
| always_load p k : (∀ d, always P Q (k d)) → always P Q (Mem_load p k)
| always_print msg k : always P Q k → always P Q (Fmt_print msg k).

(** A range of a vectored entry lies in the object it points at: at most
    [BUF_SIZE] bytes of a live stack array, all of a string.  No vectored
    entry of the program points into the pool. *)
Definition range_in_bounds (v : iovec) : Prop :=
  0 < iov_len v ∧
  match iov_base v with
  | stack a => a ≠ dangling ∧ iov_len v ≤ BUF_SIZE
  | str_data s => iov_len v = string_view.size s
  | pool_slot _ => False
  end.

(** An entry stays inside the memory of its fiber: a fixed entry is on the
    fiber's own slot, named by its index, and is 1 to [BUF_SIZE] bytes
    long; a vectored entry has one range, counted as one, and it is in
    bounds. *)
Definition entry_in_bounds (fiber : fiber_data) (s : io_uring_sqe) : Prop :=
  match s with
  | prep_v _ _ ioves nr_vecs _ =>
      nr_vecs = 1 ∧ length ioves = 1%nat ∧ Forall range_in_bounds ioves
  | prep_fixed _ _ buf nbytes _ buf_index =>
      pool_ptr fiber = Some buf ∧ buf_index = Z.of_nat buf ∧
      0 < nbytes ≤ BUF_SIZE
  end.

(** A write goes to the connection, at offset 0. *)
Definition writes_to_client (fiber : fiber_data) (s : io_uring_sqe) : Prop :=
  sqe_op s = WRITE → sqe_fd s = clientfd fiber ∧ sqe_offset s = 0.

(** [sign_only c]: on every path of [c], a positive result of an entry has
    no influence on what the body does next: resumed with any two positive
    results, the rest of the body is the same. *)
Inductive sign_only {A : Type} : coro A → Prop :=
| sign_only_Ret a : sign_only (Ret a)
| sign_only_Throw e : sign_only (Throw e)
| sign_only_Yield s k :
    (∀ r r', 0 < r → 0 < r' → k r = k r') →
    (∀ res, sign_only (k res)) →
    sign_only (Yield s k)
| sign_only_open path k :
    (∀ fd, sign_only (k fd)) → sign_only (Sys_open path k)
| sign_only_fstat fd k :
    (∀ st, sign_only (k st)) → sign_only (Sys_fstat fd k)
| sign_only_close fd k : sign_only k → sign_only (Sys_close fd k)
| sign_only_load p k : (∀ d, sign_only (k d)) → sign_only (Mem_load p k)
| sign_only_print msg k : sign_only k → sign_only (Fmt_print msg k).

(** The fiber at address 1 has read the request [POST] and is suspended in
    the [writev] of its answer. *)
Definition example_answering : loop_state :=
  after_step (cqe_ready 1%positive 4) (example_accepted (lit "POST")).

(** The length of chunk [i] of a file of [st_size] bytes, and the two
    entries that move it. *)
Definition chunk_len (st_size : Z) (i : nat) : Z :=
  Z.min BUF_SIZE (st_size - Z.of_nat i * BUF_SIZE).

Definition chunk_entries (fiber : fiber_data) (infd st_size : Z) (i : nat)
    : list io_uring_sqe :=
  [read_sqe fiber infd (Z.of_nat i * BUF_SIZE) (chunk_len st_size i);
   write_sqe fiber (chunk_len st_size i)].

(** The number of chunks of a file of [st_size] bytes. *)
Definition chunk_count (st_size : Z) : nat :=
  Z.to_nat ((st_size + BUF_SIZE - 1) / BUF_SIZE).

(** An entry of a fiber is confined: it stays in the fiber's memory, and
    if it is a write it goes to the fiber's connection. *)
Definition confined (fiber : fiber_data) (q : io_uring_sqe) : Prop :=
  entry_in_bounds fiber q ∧ writes_to_client fiber q.

(** A suspended fiber whose entry in flight is confined, as are all the
    entries it can go on to submit. *)
Definition fiber_confined (f : Fiber) : Prop :=
  confined (localData f) (pending f) ∧
  ∀ res, always (confined (localData f)) (λ _, True) (continuation f res).

(** The pool slots an entry names. *)
Definition slots_of (q : io_uring_sqe) : list nat :=
  match q with
  | prep_fixed _ _ buf _ _ _ => [buf]
  | prep_v _ _ ioves _ _ =>
      omap (λ v, if iov_base v is pool_slot i then Some i else None) ioves
  end.

(** ** Descriptors of a body

    [closes Q F c]: the body [c], which holds the descriptors [F] that
    [open] has returned to it and that it has not closed yet, closes only
    descriptors it holds, whatever its calls return; when it returns [a]
    holding [F'], [Q a F'] is true. *)
Inductive closes {A : Type} (Q : A → gset Z → Prop)
    : gset Z → coro A → Prop :=
| closes_Ret F a : Q a F → closes Q F (Ret a)
| closes_Throw F e : closes Q F (Throw e)
| closes_Yield F s k : (∀ res, closes Q F (k res)) → closes Q F (Yield s k)
| closes_open F path k :
    (∀ fd, closes Q ({[fd]} ∪ F) (k fd)) → closes Q F (Sys_open path k)
| closes_fstat F fd k :
    (∀ st, closes Q F (k st)) → closes Q F (Sys_fstat fd k)
| closes_close F fd k :
    fd ∈ F → closes Q (F ∖ {[fd]}) k → closes Q F (Sys_close fd k)
| closes_load F p k : (∀ d, closes Q F (k d)) → closes Q F (Mem_load p k)
| closes_print F msg k : closes Q F k → closes Q F (Fmt_print msg k).

(** A body that opens and closes nothing. *)
Definition neutral {A : Type} (c : coro A) : Prop :=
  ∀ F, closes (λ _ F', F' = F) F c.

(** A body that has closed what it opened when it returns. *)
Definition balanced {A : Type} (c : coro A) : Prop :=
  closes (λ _ F', F' = ∅) ∅ c.

Definition is_socket (m : machine) (fd : Z) : Prop :=
  ∃ rx tx, fd_lookup (fdtab m) fd = Some (Socket rx tx).

(** What a body holds is what [open] returned: a file that is open, or the
    negative value of a failure. *)
Definition owned_ok (m : machine) (F : gset Z) : Prop :=
  ∀ x, x ∈ F → x < 0 ∨ ∃ ino, fd_lookup (fdtab m) x = Some (File ino).

(** From [m] to [m'], a body that held [F] and now holds [F'] has left
    alone every open descriptor it did not hold. *)
Definition kept (F F' : gset Z) (m m' : machine) : Prop :=
  ∀ x, x ∉ F → is_Some (fd_lookup (fdtab m) x) →
       fd_lookup (fdtab m') x = fd_lookup (fdtab m) x ∧ x ∉ F'.

(** The fibers of a state are apart: each has its connection open, holds
    open files only ([own] says which), will close only what it holds,
    and shares neither its connection nor a file with another fiber. *)
Definition apart (own : positive → gset Z) (s : loop_state) : Prop :=
  (∀ a f, fibers s !! a = Some f →
     is_socket (mach s) (clientfd (localData f)) ∧
     owned_ok (mach s) (own a) ∧
     ∀ res, closes (λ _ F, F = ∅) (own a) (continuation f res)) ∧
  (∀ a b f g, fibers s !! a = Some f → fibers s !! b = Some g → a ≠ b →
     clientfd (localData f) ≠ clientfd (localData g) ∧
     ∀ x, 0 ≤ x → x ∈ own a → x ∉ own b).

(** The example machine after [open] of the file [/a]: it is descriptor
    6. *)
Definition example_sending : machine :=
  (sys_open (lit "/a") (example_machine (lit "GET /a HTTP/1.1"))).2.

(** ** What reaches a connection

    The bytes that the completion, with result [res], of the entry [q]
    puts on the connection [fd]: those of a write to [fd], nothing
    otherwise. *)
Definition written (fd : Z) (q : io_uring_sqe) (res : Z) (m : machine)
    : chars :=
  match sqe_op q, sqe_ranges q m, fd_lookup (fdtab m) (sqe_fd q) with
  | WRITE, Some ioves, Some (Socket _ _) =>
      if decide (sqe_fd q = fd) then
        if res <=? 0 then [] else take (Z.to_nat res) (gather ioves m)
      else []
  | _, _, _ => []
  end.

(** The bytes a body puts on the connection [fd] in the run of [exec]. *)
Fixpoint wire {A : Type} (fd : Z) (c : coro A) (m : machine) : chars :=
  match c with
  | Ret _ | Throw _ => []
  | Yield s k =>
      let res := full_result s m in
      written fd s res m ++ wire fd (k res) (complete s res m)
  | Sys_open path k => let '(x, m') := sys_open path m in wire fd (k x) m'
  | Sys_fstat x k => wire fd (k (sys_fstat x m)) m
  | Sys_close x k => wire fd k (sys_close x m)
  | Mem_load p k => wire fd (k (mem_load p m)) m
  | Fmt_print _ k => wire fd k m
  end.

(** [delivers addr qs d st st']: as [drives addr qs st st'], and [d] are
    the bytes that the completions on the way have put on the connection
    of the fiber at [addr], in order. *)
Inductive delivers (addr : positive)
    : list io_uring_sqe → chars → status → status → Prop :=
| delivers_refl st : delivers addr [] [] st st
| delivers_step s f st qs d st' :
    fibers s !! addr = Some f →
    step (cqe_ready addr
            (full_result (pending f) (set_locals (saved_locals f) (mach s))))
         s = Some st →
    delivers addr qs d st st' →
    delivers addr (pending f :: qs)
      (written (clientfd (localData f)) (pending f)
         (full_result (pending f) (set_locals (saved_locals f) (mach s)))
         (set_locals (saved_locals f) (mach s)) ++ d)
      (Running s) st'.

(** A stack for a new fiber in which the storage that [buf_view] will
    dangle into holds a request for a file that does not exist. *)
Definition example_stack (a : local_array) : chars :=
  if decide (a = dangling) then lit "GET /zz HTTP/1.1" else [].

(** * Verification *)

(** ** The free set *)

Section free_set.
Implicit Types (s : gset nat) (x : nat).

Lemma foldr_min_le x (l : list nat) :
  (foldr Nat.min x l ≤ x)%nat ∧ ∀ y, y ∈ l → (foldr Nat.min x l ≤ y)%nat.
Proof.
  induction l as [|z l [IHx IHl]]; simpl.
  - split; [lia | intros y Hy; by apply elem_of_nil in Hy].
  - split; [lia |].
    intros y [->|Hy]%elem_of_cons; [lia | specialize (IHl y Hy); lia].
Qed.

Lemma foldr_min_elem x (l : list nat) : foldr Nat.min x l ∈ x :: l.
Proof.
  induction l as [|z l IH]; simpl; [by left |].
  destruct (Nat.min_spec z (foldr Nat.min x l)) as [[_ ->]|[_ ->]].
  - right. by left.
  - apply elem_of_cons in IH as [->|IH]; [by left | by do 2 right].
Qed.

Lemma begin_elem s : s ≠ ∅ → begin s ∈ s.
Proof.
  intros Hne. unfold begin.
  destruct (elements s) as [|x l] eqn:E.
  - by apply elements_empty_inv, leibniz_equiv in E.
  - apply elem_of_elements. rewrite E. apply foldr_min_elem.
Qed.

Lemma begin_le s x : x ∈ s → (begin s ≤ x)%nat.
Proof.
  intros Hx%elem_of_elements. unfold begin.
  destruct (elements s) as [|y l]; [by apply elem_of_nil in Hx |].
  destruct (foldr_min_le y l) as [Hy Hl].
  apply elem_of_cons in Hx as [->|Hx]; auto.
Qed.

Lemma acquire_spec s :
  (s = ∅ ∧ acquire s = (None, s)) ∨
  (s ≠ ∅ ∧ begin s ∈ s ∧ acquire s = (Some (begin s), s ∖ {[begin s]})).
Proof.
  unfold acquire. destruct (decide (s = ∅)) as [->|Hne]; [by left |].
  right. auto using begin_elem.
Qed.
End free_set.

(** ** The loop keeps the pool partitioned *)

(** How [next] changes the loop state, whatever the body does: the fiber
    stays, with the same [localData], or it is cleaned up. *)
Lemma next_running addr fiber body s s' :
  next addr fiber body s = Running s' →
  (∃ f, localData f = fiber ∧
        fibers s' = <[addr := f]> (fibers s) ∧
        available_buffers s' = available_buffers s) ∨
  (fibers s' = delete addr (fibers s) ∧
   available_buffers s' =
     if pool_ptr fiber is Some p then {[p]} ∪ available_buffers s
     else available_buffers s).
Proof.
  unfold next. destruct (advance body (mach s)) as [m q k|m []|m e];
    intros [= <-]; simpl; [left | by right].
  by exists {| localData := fiber; saved_locals := locals m; pending := q;
               continuation := k |}.
Qed.

Lemma leased_to_insert s s' addr f i a :
  fibers s' = <[addr := f]> (fibers s) →
  leased_to s' i a ↔
  (a = addr ∧ pool_ptr (localData f) = Some i) ∨ (a ≠ addr ∧ leased_to s i a).
Proof.
  intros E. unfold leased_to. rewrite E. split.
  - intros (g & Hg & Hp). destruct (decide (a = addr)) as [->|Hne].
    + rewrite lookup_insert_eq in Hg. naive_solver.
    + rewrite lookup_insert_ne in Hg by done. naive_solver.
  - intros [[-> Hp]|[Hne (g & Hg & Hp)]].
    + exists f. by rewrite lookup_insert_eq.
    + exists g. by rewrite lookup_insert_ne.
Qed.

Lemma leased_to_delete s s' addr i a :
  fibers s' = delete addr (fibers s) →
  leased_to s' i a ↔ a ≠ addr ∧ leased_to s i a.
Proof.
  intros E. unfold leased_to. rewrite E. split.
  - intros (g & Hg & Hp). destruct (decide (a = addr)) as [->|Hne].
    + by rewrite lookup_delete_eq in Hg.
    + rewrite lookup_delete_ne in Hg by done. naive_solver.
  - intros [Hne (g & Hg & Hp)]. exists g. by rewrite lookup_delete_ne.
Qed.

(** A fiber that takes slot [p] out of the free set joins the loop. *)
Lemma partition_lease s s' addr f :
  pool_partition s →
  fibers s !! addr = None →
  fibers s' = <[addr := f]> (fibers s) →
  match pool_ptr (localData f) with
  | Some p => p ∈ available_buffers s ∧
              available_buffers s' = available_buffers s ∖ {[p]}
  | None => available_buffers s' = available_buffers s
  end →
  pool_partition s'.
Proof.
  intros (Hall & Hdisj & Huniq) Hfresh Hf Hp.
  assert (Hno : ∀ i, ¬ leased_to s i addr).
  { intros i (g & Hg & _). congruence. }
  pose proof (λ i a, leased_to_insert s s' addr f i a Hf) as Hl.
  unfold pool_partition, leased.
  destruct (pool_ptr (localData f)) as [p|] eqn:Ep.
  - destruct Hp as [Hin ->]. split; [|split].
    + intros i. rewrite Hall. unfold leased. split.
      * intros [Hi|[a Ha]].
        -- destruct (decide (i = p)) as [->|]; [right | left; set_solver].
           exists addr. apply Hl. by left.
        -- right. exists a. apply Hl. right. split; [|done].
           intros ->. by apply (Hno i).
      * intros [Hi|[a Ha]]; [left; set_solver |].
        apply Hl in Ha as [[-> [= <-]]|[_ Ha]]; eauto.
    + intros i Hi [a Ha]. apply Hl in Ha as [[-> [= <-]]|[_ Ha]].
      * set_solver.
      * apply (Hdisj i); [set_solver | by exists a].
    + intros i a b Ha Hb.
      apply Hl in Ha as [[-> Ea]|[Hna Ha]];
        apply Hl in Hb as [[-> Eb]|[Hnb Hb]]; simplify_eq; eauto;
        exfalso; apply (Hdisj _ Hin); eexists; eassumption.
  - rewrite Hp. split; [|split].
    + intros i. rewrite Hall. unfold leased. split.
      * intros [Hi|[a Ha]]; [by left |].
        right. exists a. apply Hl. right. split; [|done].
        intros ->. by apply (Hno i).
      * intros [Hi|[a Ha]]; [by left |].
        apply Hl in Ha as [[-> [=]]|[_ Ha]]; eauto.
    + intros i Hi [a Ha]. apply Hl in Ha as [[-> [=]]|[_ Ha]].
      apply (Hdisj i Hi). by exists a.
    + intros i a b Ha Hb.
      apply Hl in Ha as [[-> Ea]|[Hna Ha]];
        apply Hl in Hb as [[-> Eb]|[Hnb Hb]]; simplify_eq; eauto.
Qed.

(** A suspended fiber is suspended again: nothing changes hands. *)
Lemma partition_resuspend s s' addr f f' :
  pool_partition s →
  fibers s !! addr = Some f →
  localData f' = localData f →
  fibers s' = <[addr := f']> (fibers s) →
  available_buffers s' = available_buffers s →
  pool_partition s'.
Proof.
  intros Hpart Hf Hld Hf' Hav.
  assert (Hl : ∀ i a, leased_to s' i a ↔ leased_to s i a).
  { intros i a. rewrite (leased_to_insert s s' addr f' i a Hf'), Hld.
    unfold leased_to. destruct (decide (a = addr)) as [->|]; naive_solver. }
  destruct Hpart as (Hall & Hdisj & Huniq).
  unfold pool_partition, leased. rewrite Hav. split; [|split].
  - intros i. rewrite Hall. unfold leased. by setoid_rewrite Hl.
  - intros i Hi [a Ha]. apply (Hdisj i Hi). exists a. by apply Hl.
  - intros i a b Ha%Hl Hb%Hl. eauto.
Qed.

(** A fiber is cleaned up: its slot, if it has one, is free again. *)
Lemma partition_release s s' addr f :
  pool_partition s →
  fibers s !! addr = Some f →
  fibers s' = delete addr (fibers s) →
  available_buffers s' =
    (if pool_ptr (localData f) is Some p then {[p]} ∪ available_buffers s
     else available_buffers s) →
  pool_partition s'.
Proof.
  intros (Hall & Hdisj & Huniq) Hf Hf' Hav.
  pose proof (λ i a, leased_to_delete s s' addr i a Hf') as Hl.
  unfold pool_partition, leased. rewrite Hav.
  destruct (pool_ptr (localData f)) as [p|] eqn:Ep.
  - assert (Hp : leased_to s p addr) by (by exists f).
    split; [|split].
    + intros i. rewrite Hall. unfold leased. split.
      * intros [Hi|[a Ha]]; [left; set_solver |].
        destruct (decide (a = addr)) as [->|Hne].
        -- left. destruct Ha as (g & Hg & Hgp). set_solver.
        -- right. exists a. by apply Hl.
      * intros [[->%elem_of_singleton|Hi]%elem_of_union|[a [_ Ha]%Hl]]; eauto.
    + intros i [->%elem_of_singleton|Hi]%elem_of_union [a [Hne Ha]%Hl].
      * apply Hne. eauto.
      * apply (Hdisj i Hi). by exists a.
    + intros i a b [_ Ha]%Hl [_ Hb]%Hl. eauto.
  - split; [|split].
    + intros i. rewrite Hall. unfold leased. split.
      * intros [Hi|[a Ha]]; [by left |].
        right. exists a. apply Hl. split; [|done].
        intros ->. destruct Ha as (g & Hg & Hgp). congruence.
      * intros [Hi|[a [_ Ha]%Hl]]; eauto.
    + intros i Hi [a [_ Ha]%Hl]. apply (Hdisj i Hi). by exists a.
    + intros i a b [_ Ha]%Hl [_ Hb]%Hl. eauto.
Qed.

Lemma partition_init fs fdtab : pool_partition (main_init fs fdtab).
Proof.
  assert (Hno : ∀ i a, ¬ leased_to (main_init fs fdtab) i a).
  { intros i a (f & Hf & _). simpl in Hf. by rewrite lookup_empty in Hf. }
  split; [|split].
  - intros i.
    change (available_buffers (main_init fs fdtab))
      with (list_to_set (C := gset nat) (seq 0 POOL_SLOTS)).
    rewrite elem_of_list_to_set, elem_of_seq. split.
    + intros Hi. left. lia.
    + intros [Hi|[a Ha]]; [lia | by apply Hno in Ha].
  - intros i _ [a Ha]. by apply Hno in Ha.
  - intros i a b Ha. by apply Hno in Ha.
Qed.

Lemma partition_step i s s' :
  pool_partition s → step i s = Some (Running s') → pool_partition s'.
Proof.
  intros Hpart Hstep.
  destruct i as [rx addr uninit|addr res| |]; unfold step in Hstep.
  - destruct (decide (addr ∈ dom (fibers s))) as [|Hfresh]; [done |].
    apply not_elem_of_dom in Hfresh.
    destruct (sys_accept rx (mach s)) as [newfd m].
    destruct (acquire_spec (available_buffers s))
      as [[He Ha]|(Hne & Hin & Ha)]; rewrite Ha in Hstep;
      apply (inj Some) in Hstep;
      apply next_running in Hstep as [(f & Hld & Hf & Hav)|[Hf Hav]];
      cbn [fibers available_buffers pool_ptr] in *.
    + eapply partition_lease; eauto. by rewrite Hld.
    + rewrite delete_id in Hf by done.
      destruct Hpart as (Hall & Hdisj & Huniq).
      assert (Hl : ∀ i a, leased_to s' i a ↔ leased_to s i a).
      { intros i a. unfold leased_to. by rewrite Hf. }
      unfold pool_partition, leased. rewrite Hav. split; [|split].
      * intros i. rewrite Hall. unfold leased. by setoid_rewrite Hl.
      * intros i Hi [a Ha']. apply (Hdisj i Hi). exists a. by apply Hl.
      * intros i a b Ha'%Hl Hb%Hl. eauto.
    + eapply partition_lease; eauto. by rewrite Hld.
    + rewrite delete_id in Hf by done.
      destruct Hpart as (Hall & Hdisj & Huniq).
      assert (Hl : ∀ i a, leased_to s' i a ↔ leased_to s i a).
      { intros i a. unfold leased_to. by rewrite Hf. }
      assert (Hav' : available_buffers s' = available_buffers s).
      { rewrite Hav. apply set_eq. intros x.
        destruct (decide (x = begin (available_buffers s))); set_solver. }
      unfold pool_partition, leased. rewrite Hav'. split; [|split].
      * intros i. rewrite Hall. unfold leased. by setoid_rewrite Hl.
      * intros i Hi [a Ha']. apply (Hdisj i Hi). exists a. by apply Hl.
      * intros i a b Ha'%Hl Hb%Hl. eauto.
  - destruct (fibers s !! addr) as [f|] eqn:Ef; [|done].
    apply (inj Some) in Hstep.
    apply next_running in Hstep as [(f' & Hld & Hf & Hav)|[Hf Hav]];
      cbn [fibers available_buffers pool_ptr] in *.
    + eapply partition_resuspend; eauto.
    + eapply partition_release; eauto.
  - by injection Hstep as <-.
  - done.
Qed.

Lemma partition_reachable fs fdtab s :
  reachable (main_init fs fdtab) s → pool_partition s.
Proof.
  induction 1 as [|s i s' _ IH Hstep];
    eauto using partition_init, partition_step.
Qed.

(** ** std::string_view *)

Section string_view_facts.
Import string_view.
Implicit Types (sv s : chars) (c : ascii).

Lemma traits_compare_eq a b :
  length a = length b → traits_compare a b = 0 ↔ a = b.
Proof.
  revert b. induction a as [|x a IH]; intros [|y b] Hlen; simpl in *;
    try done.
  destruct (Nat.ltb_spec (nat_of_ascii x) (nat_of_ascii y)) as [Hxy|Hxy].
  { split; [done | intros [= -> _]; lia]. }
  destruct (Nat.ltb_spec (nat_of_ascii y) (nat_of_ascii x)) as [Hyx|Hyx].
  { split; [done | intros [= -> _]; lia]. }
  assert (x = y) as ->.
  { rewrite <- (ascii_nat_embedding x), <- (ascii_nat_embedding y).
    f_equal. lia. }
  rewrite IH by lia. split; [by intros -> | by intros [= ->]].
Qed.

Lemma compare_view_eq a b : compare_view a b = 0 ↔ a = b.
Proof.
  unfold compare_view, size.
  destruct (decide (length a = length b)) as [Hlen|Hlen].
  - rewrite <- Hlen, Nat.min_id, firstn_all, Hlen, firstn_all.
    pose proof (traits_compare_eq a b Hlen) as Heq.
    destruct (Z.eqb_spec (traits_compare a b) 0) as [H0|H0].
    + rewrite Z.ltb_irrefl. tauto.
    + tauto.
  - split; [|intros ->; done].
    destruct (Z.eqb_spec (traits_compare (take (length a `min` length b) a)
                            (take (length a `min` length b) b)) 0);
      [|done].
    destruct (Z.ltb_spec (Z.of_nat (length a)) (Z.of_nat (length b)));
      [done |].
    destruct (Z.ltb_spec (Z.of_nat (length b)) (Z.of_nat (length a)));
      [done | lia].
Qed.

(** The test of line 161 succeeds exactly on the chunks whose first three
    bytes are G, E, T. *)
Lemma compare_GET sv :
  compare sv 0 3 (lit "GET") = Ret (compare_view (take 3 sv) (lit "GET")).
Proof.
  unfold compare, substr, size.
  destruct (Z.ltb_spec (Z.of_nat (length sv)) 0) as [|_]; [lia |].
  simpl. do 2 f_equal. rewrite Z.sub_0_r.
  change (drop (Z.to_nat 0) sv) with sv.
  destruct (Z.min_spec 3 (Z.of_nat (length sv))) as [[_ ->]|[Hle ->]].
  - done.
  - rewrite Nat2Z.id, firstn_all. symmetry. apply take_ge. lia.
Qed.

Lemma index_of_None c s : index_of c s = None → c ∉ s.
Proof.
  induction s as [|x s IH]; simpl; [intros _ H; by apply elem_of_nil in H |].
  destruct (Ascii.eqb_spec x c) as [->|Hne]; [done |].
  destruct (index_of c s); [done |].
  intros _ [->|Hin]%elem_of_cons; [done | by apply IH].
Qed.

Lemma index_of_up_to_space s :
  match index_of SP s with
  | Some i => (i ≤ length s)%nat ∧ take i s = up_to_space s
  | None => up_to_space s = s
  end.
Proof.
  induction s as [|x s IH]; simpl; [done |].
  destruct (Ascii.eqb_spec x SP) as [->|Hne]; simpl; [split; [lia | done] |].
  destruct (index_of SP s) as [i|]; simpl.
  - destruct IH as [Hi IH]. split; [lia | by rewrite IH].
  - by rewrite IH.
Qed.

(** Line 163 on a view of a [BUF_SIZE] array: shorter than 4 bytes it
    throws, otherwise it yields the spec's target. *)
Lemma substr_target sv :
  size sv ≤ BUF_SIZE →
  substr sv 4 (size_t (find sv SP 4 - 4)) =
    if size sv <? 4 then Throw (out_of_range "basic_string_view::substr")
    else Ret (target sv).
Proof.
  unfold substr, size, BUF_SIZE. intros Hsize.
  destruct (Z.ltb_spec (Z.of_nat (length sv)) 4) as [|Hlen]; [done |].
  f_equal. unfold find, target.
  pose proof (index_of_up_to_space (drop (Z.to_nat 4) sv)) as Hidx.
  assert (Hdrop : Z.of_nat (length (drop (Z.to_nat 4) sv))
                  = Z.of_nat (length sv) - 4).
  { rewrite length_drop. lia. }
  change (Z.to_nat 4) with 4%nat in *.
  destruct (index_of SP (drop 4 sv)) as [i|].
  - destruct Hidx as [Hi <-]. f_equal.
    replace (4 + Z.of_nat i - 4) with (Z.of_nat i) by lia.
    unfold size_t. rewrite Z.mod_small by lia. lia.
  - rewrite Hidx. apply take_ge.
    unfold npos, size_t. rewrite Z.mod_small by lia. lia.
Qed.
End string_view_facts.

(** ** The descriptor table *)

Section descriptors.
Implicit Types (t : list (option file)) (fd : Z) (f : file).

Lemma fd_lookup_Some t fd f :
  fd_lookup t fd = Some f → 0 ≤ fd ∧ t !! Z.to_nat fd = Some (Some f).
Proof.
  unfold fd_lookup. destruct (Z.ltb_spec fd 0); [done |].
  destruct (t !! Z.to_nat fd) as [[g|]|]; simpl; [|done..].
  by intros [= ->].
Qed.

Lemma fd_lookup_set_eq t fd f x :
  fd_lookup t fd = Some f → fd_lookup (fd_set t fd x) fd = x.
Proof.
  intros [Hfd Hl]%fd_lookup_Some. unfold fd_lookup, fd_set.
  destruct (Z.ltb_spec fd 0); [lia |].
  rewrite list_lookup_insert_eq; [done |]. by eapply lookup_lt_Some.
Qed.

Lemma fd_lookup_set_ne t fd fd' x :
  fd ≠ fd' → fd_lookup (fd_set t fd x) fd' = fd_lookup t fd'.
Proof.
  intros Hne. unfold fd_lookup, fd_set.
  destruct (Z.ltb_spec fd' 0); [done |].
  destruct (Z.ltb_spec fd 0); [done |].
  rewrite list_lookup_insert_ne; [done | lia].
Qed.

Lemma fd_set_set t fd x y : fd_set (fd_set t fd x) fd y = fd_set t fd y.
Proof.
  unfold fd_set. destruct (fd <? 0); [done |]. apply list_insert_insert_eq.
Qed.

Lemma fd_set_id t fd f : fd_lookup t fd = Some f → fd_set t fd (Some f) = t.
Proof.
  intros [Hfd Hl]%fd_lookup_Some. unfold fd_set.
  destruct (Z.ltb_spec fd 0); [lia |]. by apply list_insert_id.
Qed.

(** [fd_alloc] returns a descriptor that was not open, and leaves the
    others alone. *)
Lemma fd_alloc_spec t f n t' :
  fd_alloc t f = (n, t') →
  fd_lookup t (Z.of_nat n) = None ∧
  fd_lookup t' (Z.of_nat n) = Some f ∧
  ∀ fd, fd ≠ Z.of_nat n → fd_lookup t' fd = fd_lookup t fd.
Proof.
  unfold fd_lookup.
  assert (Hnat : ∀ k, (Z.of_nat k <? 0) = false) by (intros; apply Z.ltb_ge; lia).
  revert n t'. induction t as [|[g|] t IH]; intros n t' Halloc;
    simpl in Halloc.
  - injection Halloc as <- <-. rewrite !Hnat, Nat2Z.id. simpl.
    split_and!; [done.. |]. intros fd Hfd.
    destruct (Z.ltb_spec fd 0); [done |].
    destruct (Z.to_nat fd) as [|k] eqn:E; [lia | done].
  - destruct (fd_alloc t f) as [k t''] eqn:E.
    injection Halloc as <- <-.
    destruct (IH k t'' eq_refl) as (H1 & H2 & H3).
    rewrite !Hnat, !Nat2Z.id in *. simpl. split_and!; [done.. |].
    intros fd Hfd. destruct (Z.ltb_spec fd 0); [done |].
    destruct (Z.to_nat fd) as [|j] eqn:Ej; [done |]. simpl.
    specialize (H3 (Z.of_nat j)). rewrite Hnat, Nat2Z.id in H3.
    apply H3. lia.
  - injection Halloc as <- <-. rewrite !Hnat, Nat2Z.id. simpl.
    split_and!; [done.. |]. intros fd Hfd.
    destruct (Z.ltb_spec fd 0); [done |].
    destruct (Z.to_nat fd) as [|k] eqn:E; [lia | done].
Qed.
End descriptors.

(** ** Memory *)

Lemma overlay_take d old : take (length d) (overlay d old) = d.
Proof. unfold overlay. by rewrite take_app_length. Qed.

Lemma mem_load_store p d m :
  valid_ptr p m → take (length d) (mem_load p (mem_store p d m)) = d.
Proof.
  destruct p as [i|a|s]; simpl; [| |done].
  - intros Hi. apply lookup_lt_is_Some in Hi as [old Hold].
    rewrite list_lookup_alter, Hold. simpl.
    rewrite decide_True by done. apply overlay_take.
  - intros _. rewrite decide_True by done. apply overlay_take.
Qed.

Lemma mem_store_kernel p d m :
  fs (mem_store p d m) = fs m ∧ fdtab (mem_store p d m) = fdtab m ∧
  length (buffers (mem_store p d m)) = length (buffers m).
Proof.
  destruct p; simpl; split_and!; try done. apply length_alter.
Qed.

Lemma valid_ptr_ext p m m' :
  length (buffers m') = length (buffers m) → valid_ptr p m → valid_ptr p m'.
Proof. destruct p; simpl; [lia | done..]. Qed.

(** ** Running to the end *)

Lemma exec_bind {A B : Type} (c : coro A) (f : A → coro B) m :
  exec (bind c f) m =
    let r := exec c m in
    match result r with
    | inl e => Run (calls r) (final r) (inl e)
    | inr a =>
        let r' := exec (f a) (final r) in
        Run (calls r ++ calls r') (final r') (result r')
    end.
Proof.
  revert m.
  induction c as [a|e|s k IH|path k IH|fd k IH|fd k IH|p k IH|msg k IH];
    intros m; simpl.
  - by destruct (exec (f a) m).
  - done.
  - rewrite IH. simpl. by case_match.
  - destruct (sys_open path m) as [fd m']. rewrite IH. simpl. by case_match.
  - rewrite IH. simpl. by case_match.
  - rewrite IH. simpl. by case_match.
  - apply IH.
  - rewrite IH. simpl. by case_match.
Qed.

Lemma exec_bind_ok {A B : Type} (c : coro A) (f : A → coro B) m cs m' a cs'
    m'' r :
  exec c m = Run cs m' (inr a) →
  exec (f a) m' = Run cs' m'' r →
  exec (bind c f) m = Run (cs ++ cs') m'' r.
Proof. intros H1 H2. by rewrite exec_bind, H1; simpl; rewrite H2. Qed.

Lemma exec_bind_exn {A B : Type} (c : coro A) (f : A → coro B) m cs m' e :
  exec c m = Run cs m' (inl e) → exec (bind c f) m = Run cs m' (inl e).
Proof. intros H1. by rewrite exec_bind, H1. Qed.

(** An awaited primitive, when the entry completes in full. *)
Lemma exec_await s operation m :
  exec (Yield s (λ res, if res <=? 0 then panic operation else Ret res)) m =
    let res := full_result s m in
    Run [io_uring_submit s res] (complete s res m)
      (if res <=? 0 then inl (system_error operation) else inr res).
Proof. simpl. by destruct (full_result s m <=? 0). Qed.

(** A read of a file, a read of a connection and a write to a connection,
    on one range of memory. *)
Section one_range.
Context (s : io_uring_sqe) (m : machine) (b : ptr) (n : Z).
Hypothesis Hranges :
  sqe_ranges s m = Some [{| iov_base := b; iov_len := n |}].

Lemma read_file_full ino :
  sqe_op s = READ →
  fd_lookup (fdtab m) (sqe_fd s) = Some (File ino) →
  0 ≤ sqe_offset s → 0 < n →
  sqe_offset s + n ≤ string_view.size (i_data ino) →
  full_result s m = n ∧
  complete s n m =
    mem_store b (take (Z.to_nat n) (drop (Z.to_nat (sqe_offset s))
                                      (i_data ino))) m.
Proof.
  intros Hop Hfd Hoff Hn Hsize. unfold full_result, complete.
  rewrite Hranges, Hfd, Hop. unfold string_view.size in *. simpl.
  rewrite length_drop. split; [lia |].
  destruct (Z.leb_spec n 0); [lia |]. by rewrite take_take, Nat.min_id.
Qed.

Lemma read_socket_full rx tx :
  sqe_op s = READ →
  fd_lookup (fdtab m) (sqe_fd s) = Some (Socket rx tx) →
  0 < n → rx ≠ [] →
  let chunk := take (Z.to_nat n) rx in
  full_result s m = string_view.size chunk ∧
  0 < string_view.size chunk ∧
  complete s (string_view.size chunk) m =
    mem_store b chunk
      (set_fdtab (fd_set (fdtab m) (sqe_fd s)
                    (Some (Socket (drop (Z.to_nat n) rx) tx))) m).
Proof.
  intros Hop Hfd Hn Hrx chunk. unfold full_result, complete.
  rewrite Hranges, Hfd, Hop. unfold string_view.size in *. simpl.
  assert (Hlen : Z.of_nat (length chunk) = Z.min (n + 0) (Z.of_nat (length rx))).
  { unfold chunk. rewrite length_take. lia. }
  assert (Hpos : 0 < Z.of_nat (length chunk)).
  { rewrite Hlen. destruct rx; [done | simpl; lia]. }
  split; [lia |]. split; [done |].
  destruct (Z.leb_spec (Z.of_nat (length chunk)) 0); [lia |].
  rewrite Nat2Z.id.
  destruct (decide (Z.to_nat n ≤ length rx)%nat) as [Hle|Hgt].
  - replace (length chunk) with (Z.to_nat n) by lia.
    by rewrite take_take, Nat.min_id.
  - replace (length chunk) with (length rx) by lia.
    rewrite firstn_all, (drop_ge rx (length rx)), (drop_ge rx (Z.to_nat n))
      by lia.
    done.
Qed.

Lemma write_socket_full rx tx :
  sqe_op s = WRITE →
  fd_lookup (fdtab m) (sqe_fd s) = Some (Socket rx tx) →
  let d := take (Z.to_nat n) (mem_load b m) in
  full_result s m = string_view.size d ∧
  (d ≠ [] →
   complete s (string_view.size d) m =
     set_fdtab (fd_set (fdtab m) (sqe_fd s) (Some (Socket rx (tx ++ d)))) m).
Proof.
  intros Hop Hfd d. unfold full_result, complete.
  rewrite Hranges, Hfd, Hop. unfold string_view.size. simpl.
  rewrite app_nil_r. fold d. split; [done |]. intros Hd.
  destruct (Z.leb_spec (Z.of_nat (length d)) 0) as [Hle|_].
  - destruct d; [done | simpl in Hle; lia].
  - by rewrite Nat2Z.id, firstn_all.
Qed.
End one_range.

(** ** Sending *)

Lemma wrote_nil sockfd m rx tx :
  fd_lookup (fdtab m) sockfd = Some (Socket rx tx) → wrote sockfd [] m m.
Proof.
  intros Hfd. split_and!; [done.. |]. exists rx, tx. split; [done |].
  rewrite app_nil_r. symmetry. by apply fd_set_id.
Qed.

Lemma wrote_app sockfd d1 d2 m m1 m2 :
  wrote sockfd d1 m m1 → wrote sockfd d2 m1 m2 → wrote sockfd (d1 ++ d2) m m2.
Proof.
  intros (Hfs1 & Hb1 & rx & tx & Hfd & Ht1) (Hfs2 & Hb2 & rx' & tx' & Hfd' & Ht2).
  split_and!; [congruence.. |]. exists rx, tx. split; [done |].
  rewrite Ht1 in Hfd'. rewrite (fd_lookup_set_eq _ _ _ _ Hfd) in Hfd'.
  injection Hfd' as <- <-. by rewrite Ht2, Ht1, fd_set_set, app_assoc.
Qed.

Lemma wrote_lookup sockfd d m m' fd :
  wrote sockfd d m m' → fd ≠ sockfd →
  fd_lookup (fdtab m') fd = fd_lookup (fdtab m) fd.
Proof.
  intros (_ & _ & rx & tx & _ & ->) Hne. by apply fd_lookup_set_ne.
Qed.

Lemma wrote_socket sockfd d m m' rx tx :
  wrote sockfd d m m' → fd_lookup (fdtab m) sockfd = Some (Socket rx tx) →
  fd_lookup (fdtab m') sockfd = Some (Socket rx (tx ++ d)).
Proof.
  intros (_ & _ & rx' & tx' & Hfd & ->) Hfd'.
  rewrite (fd_lookup_set_eq _ _ _ _ Hfd). congruence.
Qed.

Lemma wrote_slot_ok fiber sockfd d m m' :
  wrote sockfd d m m' → slot_ok fiber m → slot_ok fiber m'.
Proof. intros (_ & Hb & _) (? & ? & ?). split_and!; [done | congruence | done]. Qed.

(** A write of the characters of a string. *)
Lemma exec_writev_sv fiber sockfd (sv : chars) m rx tx :
  fd_lookup (fdtab m) sockfd = Some (Socket rx tx) → sv ≠ [] →
  ∃ m',
    exec (await_writev fiber sockfd [to_iov_sv sv] 0) m =
      Run [io_uring_submit (prep_v WRITE sockfd [to_iov_sv sv] 1 0)
             (string_view.size sv)] m' (inr (string_view.size sv)) ∧
    wrote sockfd sv m m'.
Proof.
  intros Hfd Hsv. unfold await_writev, await_v. rewrite exec_await.
  set (s := prep_v _ _ _ _ _).
  assert (Hr : sqe_ranges s m = Some [to_iov_sv sv]) by done.
  destruct (write_socket_full s m _ _ Hr rx tx eq_refl Hfd) as [Hres Hcomp].
  cbn [mem_load] in *. unfold string_view.size in *.
  rewrite Nat2Z.id, firstn_all in *. specialize (Hcomp Hsv).
  cbn zeta. rewrite Hres, Hcomp.
  destruct (Z.leb_spec (Z.of_nat (length sv)) 0) as [Hle|_].
  { destruct sv; [done | simpl in Hle; lia]. }
  eexists. split; [done |]. split_and!; [done.. |]. by exists rx, tx.
Qed.

(** The two calls of a cycle.  [data] is the content of the file. *)
Section cycle.
Context (fiber : fiber_data) (infd : Z) (ino : inode).
Implicit Types (m : machine) (n offset : Z).

Lemma file_buffer_valid m : slot_ok fiber m → valid_ptr (file_buffer fiber) m.
Proof.
  intros (_ & Hlen & Hp). unfold file_buffer.
  destruct (pool_ptr fiber) as [p|]; simpl; [|done].
  rewrite Hlen. by apply Hp.
Qed.

Lemma read_sqe_ranges m n offset :
  slot_ok fiber m →
  sqe_ranges (read_sqe fiber infd offset n) m =
    Some [{| iov_base := file_buffer fiber; iov_len := n |}].
Proof.
  intros (_ & Hlen & Hp). unfold read_sqe, file_buffer.
  destruct (pool_ptr fiber) as [p|]; simpl; [|done].
  rewrite decide_True; [done |]. split; [done |]. rewrite Hlen. by apply Hp.
Qed.

Lemma write_sqe_ranges m n :
  slot_ok fiber m →
  sqe_ranges (write_sqe fiber n) m =
    Some [{| iov_base := file_buffer fiber; iov_len := n |}].
Proof.
  intros (_ & Hlen & Hp). unfold write_sqe, file_buffer.
  destruct (pool_ptr fiber) as [p|]; simpl; [|done].
  rewrite decide_True; [done |]. split; [done |]. rewrite Hlen. by apply Hp.
Qed.

(** What the two primitives submit, for a length that fits a buffer. *)
Lemma await_read_sqe n offset :
  pool_start_ptr fiber = O →
  (∀ p, pool_ptr fiber = Some p → (p < POOL_SLOTS)%nat) →
  0 < n ≤ BUF_SIZE →
  await_read fiber infd n offset =
    Yield (read_sqe fiber infd offset n)
      (λ res, if res <=? 0
              then panic (if pool_ptr fiber is Some _ then "read_fixed"
                          else "readv")
              else Ret res).
Proof.
  intros Hstart Hp Hn. unfold await_read, read_sqe, BUF_SIZE in *.
  destruct (pool_ptr fiber) as [p|] eqn:Ep; [|done].
  unfold await_read_fixed, await_fixed. rewrite Ep, Hstart. simpl default.
  destruct (Z.eqb_spec n 0); [lia |].
  specialize (Hp p eq_refl). unfold POOL_SLOTS in Hp.
  unfold uint32_t, uint16_t.
  change (2 ^ 32) with 4294967296. change (2 ^ 16) with 65536.
  by rewrite Z.sub_0_r, !Z.mod_small by lia.
Qed.

Lemma await_write_sqe n :
  pool_start_ptr fiber = O →
  (∀ p, pool_ptr fiber = Some p → (p < POOL_SLOTS)%nat) →
  0 < n ≤ BUF_SIZE →
  await_write fiber n =
    Yield (write_sqe fiber n)
      (λ res, if res <=? 0
              then panic (if pool_ptr fiber is Some _ then "write_fixed"
                          else "writev")
              else Ret res).
Proof.
  intros Hstart Hp Hn. unfold await_write, write_sqe, BUF_SIZE in *.
  destruct (pool_ptr fiber) as [p|] eqn:Ep; [|done].
  unfold await_write_fixed, await_fixed. rewrite Ep, Hstart. simpl default.
  destruct (Z.eqb_spec n 0); [lia |].
  specialize (Hp p eq_refl). unfold POOL_SLOTS in Hp.
  unfold uint32_t, uint16_t.
  change (2 ^ 32) with 4294967296. change (2 ^ 16) with 65536.
  by rewrite Z.sub_0_r, !Z.mod_small by lia.
Qed.

Lemma exec_cycle m n offset rx tx :
  slot_ok fiber m →
  fd_lookup (fdtab m) infd = Some (File ino) →
  fd_lookup (fdtab m) (clientfd fiber) = Some (Socket rx tx) →
  0 ≤ offset → 0 < n ≤ BUF_SIZE → offset + n ≤ string_view.size (i_data ino) →
  ∃ m',
    exec (await_read fiber infd n offset;;; await_write fiber n;;; Ret tt) m
      = Run (cycle fiber infd offset n) m' (inr tt) ∧
    wrote (clientfd fiber) (take (Z.to_nat n) (drop (Z.to_nat offset) (i_data ino))) m m'.
Proof.
  intros Hok Hin Hsock Hoff Hn Hsize.
  pose proof Hok as (Hstart & Hlen & Hp).
  set (chunk := take (Z.to_nat n) (drop (Z.to_nat offset) (i_data ino))).
  assert (Hchunk : length chunk = Z.to_nat n).
  { unfold chunk, string_view.size in *. rewrite length_take, length_drop. lia. }
  (* the read *)
  pose proof (read_sqe_ranges m n offset Hok) as Hr.
  assert (Hrfd : sqe_fd (read_sqe fiber infd offset n) = infd).
  { unfold read_sqe. by destruct (pool_ptr fiber). }
  assert (Hrop : sqe_op (read_sqe fiber infd offset n) = READ).
  { unfold read_sqe. by destruct (pool_ptr fiber). }
  assert (Hroff : sqe_offset (read_sqe fiber infd offset n) = offset).
  { unfold read_sqe. by destruct (pool_ptr fiber). }
  destruct (read_file_full _ m _ _ Hr ino Hrop) as [Hres Hcomp];
    rewrite ?Hrfd, ?Hroff; [done | lia.. |].
  rewrite Hroff in Hcomp. fold chunk in Hcomp.
  set (m1 := mem_store (file_buffer fiber) chunk m) in *.
  destruct (mem_store_kernel (file_buffer fiber) chunk m) as (Hfs1 & Ht1 & Hb1).
  fold m1 in Hfs1, Ht1, Hb1.
  assert (Hok1 : slot_ok fiber m1) by (split_and!; [done | congruence | done]).
  (* the write *)
  pose proof (write_sqe_ranges m1 n Hok1) as Hw.
  assert (Hwfd : sqe_fd (write_sqe fiber n) = (clientfd fiber)).
  { unfold write_sqe. by destruct (pool_ptr fiber). }
  assert (Hwop : sqe_op (write_sqe fiber n) = WRITE).
  { unfold write_sqe. by destruct (pool_ptr fiber). }
  destruct (write_socket_full _ m1 _ _ Hw rx tx Hwop) as [Hres2 Hcomp2].
  { by rewrite Hwfd, Ht1. }
  assert (Hd : take (Z.to_nat n) (mem_load (file_buffer fiber) m1) = chunk).
  { rewrite <- Hchunk. apply mem_load_store. by apply file_buffer_valid. }
  rewrite Hd in Hres2, Hcomp2.
  assert (Hne : chunk ≠ []).
  { intros E. rewrite E in Hchunk. simpl in Hchunk. lia. }
  specialize (Hcomp2 Hne). unfold string_view.size in Hres2, Hcomp2.
  rewrite Hchunk, Z2Nat.id in Hres2, Hcomp2 by lia. rewrite Hwfd in Hcomp2.
  eexists. split.
  - change (cycle fiber infd offset n)
      with ([io_uring_submit (read_sqe fiber infd offset n) n] ++
            [io_uring_submit (write_sqe fiber n) n] ++ []).
    eapply exec_bind_ok.
    + rewrite await_read_sqe, exec_await by done. cbn zeta.
      rewrite Hres, Hcomp. destruct (Z.leb_spec n 0); [lia | done].
    + eapply exec_bind_ok; [|done].
      rewrite await_write_sqe, exec_await by done. cbn zeta.
      rewrite Hres2, Hcomp2. destruct (Z.leb_spec n 0); [lia | done].
  - split_and!; [done.. |]. exists rx, tx. by rewrite Ht1.
Qed.
End cycle.

(** ** The body of a file *)

Lemma for_chunks_eq body st_size offset :
  for_chunks body st_size offset =
    if decide (BUF_SIZE < st_size - offset)
    then body offset;;; for_chunks body st_size (offset + BUF_SIZE)
    else Ret offset.
Proof. rewrite for_chunks_equation_1 at 1. by destruct (decide _). Qed.

Lemma http_send_body_eq fiber infd st_size :
  http_send_body fiber infd st_size =
    (offset <- for_chunks (λ offset,
                 await_read fiber infd BUF_SIZE offset;;;
                 await_write fiber BUF_SIZE;;; Ret tt) st_size 0;;
     if offset <? st_size then
       await_read fiber infd (size_t (st_size - offset)) offset;;;
       await_write fiber (size_t (st_size - offset));;; Ret tt
     else Ret tt).
Proof.
  unfold http_send_body, await_read, await_write.
  by destruct (pool_ptr fiber).
Qed.

Section body.
Context (fiber : fiber_data) (infd : Z) (ino : inode).
Implicit Types (m : machine) (offset : Z) (j : nat).

Lemma sending_wrote m m' rx tx d :
  sending fiber infd ino m rx tx → wrote (clientfd fiber) d m m' → sending fiber infd ino m' rx (tx ++ d).
Proof.
  intros (Hok & Hin & Hsock) Hw. split_and!.
  - by eapply wrote_slot_ok.
  - rewrite (wrote_lookup _ _ _ _ infd Hw); [done | congruence].
  - by eapply wrote_socket.
Qed.

Lemma exec_for_chunks j : ∀ offset m rx tx,
  sending fiber infd ino m rx tx → 0 ≤ offset →
  string_view.size (i_data ino) - offset ≤ BUF_SIZE * (Z.of_nat j + 1) →
  (0 < Z.of_nat j → BUF_SIZE * Z.of_nat j < string_view.size (i_data ino) - offset) →
  ∃ m',
    exec (for_chunks (λ offset,
            await_read fiber infd BUF_SIZE offset;;;
            await_write fiber BUF_SIZE;;; Ret tt)
            (string_view.size (i_data ino)) offset) m
      = Run (cycles fiber infd offset j) m'
            (inr (offset + BUF_SIZE * Z.of_nat j)) ∧
    wrote (clientfd fiber)
      (take (Z.to_nat (BUF_SIZE * Z.of_nat j))
            (drop (Z.to_nat offset) (i_data ino))) m m'.
Proof.
  induction j as [|j IH]; intros offset m rx tx Hs Hoff Hle Hlt;
    rewrite for_chunks_eq.
  - rewrite decide_False by (unfold BUF_SIZE in *; lia).
    exists m. rewrite Z.mul_0_r, Z.add_0_r. split; [done |].
    destruct Hs as (_ & _ & Hsock). by eapply wrote_nil.
  - rewrite decide_True by (unfold BUF_SIZE in *; lia).
    pose proof Hs as (Hok & Hin & Hsock).
    destruct (exec_cycle fiber infd ino m BUF_SIZE offset rx tx)
      as (m1 & Hex1 & Hw1); [done.. | unfold BUF_SIZE; lia |
                              unfold BUF_SIZE in *; lia |].
    destruct (IH (offset + BUF_SIZE) m1 rx
                (tx ++ take (Z.to_nat BUF_SIZE)
                         (drop (Z.to_nat offset) (i_data ino))))
      as (m2 & Hex2 & Hw2);
      [by eapply sending_wrote | unfold BUF_SIZE in *; lia.. |].
    exists m2. split.
    + change (cycles fiber infd offset (S j))
        with (cycle fiber infd offset BUF_SIZE ++
              cycles fiber infd (offset + BUF_SIZE) j).
      eapply exec_bind_ok; [exact Hex1 |].
      rewrite Hex2. do 2 f_equal. lia.
    + replace (Z.to_nat (BUF_SIZE * Z.of_nat (S j)))
        with (Z.to_nat BUF_SIZE + Z.to_nat (BUF_SIZE * Z.of_nat j))%nat
        by (unfold BUF_SIZE; lia).
      rewrite <- take_take_drop, drop_drop.
      replace (Z.to_nat offset + Z.to_nat BUF_SIZE)%nat
        with (Z.to_nat (offset + BUF_SIZE)) by (unfold BUF_SIZE; lia).
      by eapply wrote_app.
Qed.

(** All of the file goes out, in the calls of [body_calls]. *)
Lemma exec_http_send_body m rx tx :
  sending fiber infd ino m rx tx →
  ∃ m',
    exec (http_send_body fiber infd (string_view.size (i_data ino))) m
      = Run (body_calls fiber infd (string_view.size (i_data ino))) m'
            (inr tt) ∧
    wrote (clientfd fiber) (i_data ino) m m'.
Proof.
  intros Hs. rewrite http_send_body_eq. unfold body_calls.
  set (st_size := string_view.size (i_data ino)).
  assert (Hsize : 0 ≤ st_size) by (unfold st_size, string_view.size; lia).
  destruct (Z.leb_spec st_size 0) as [H0|Hpos].
  - (* an empty file *)
    destruct (exec_for_chunks O 0 m rx tx Hs) as (m1 & Hex1 & Hw1);
      [unfold BUF_SIZE; fold st_size; lia.. |].
    exists m1. split.
    + eapply (exec_bind_ok _ _ _ [] _ _ []); [exact Hex1 |].
      change (0 + BUF_SIZE * Z.of_nat 0) with 0.
      destruct (Z.ltb_spec 0 st_size); [lia | done].
    + assert (i_data ino = []) as E.
      { apply length_zero_iff_nil. unfold st_size, string_view.size in H0. lia. }
      rewrite E. rewrite E in Hw1. by rewrite drop_nil, take_nil in Hw1.
  - set (full := (st_size - 1) / BUF_SIZE).
    assert (Hfull : 0 ≤ full ∧ BUF_SIZE * full < st_size ≤ BUF_SIZE * (full + 1)).
    { unfold full, BUF_SIZE. split; [apply Z.div_pos; lia |].
      pose proof (Z.div_mod (st_size - 1) 1024 ltac:(lia)).
      pose proof (Z.mod_pos_bound (st_size - 1) 1024 ltac:(lia)). lia. }
    destruct (exec_for_chunks (Z.to_nat full) 0 m rx tx Hs)
      as (m1 & Hex1 & Hw1); [fold st_size; unfold BUF_SIZE in *; lia.. |].
    rewrite Z2Nat.id in Hex1, Hw1 by lia.
    pose proof (sending_wrote _ _ _ _ _ Hs Hw1) as (Hok1 & Hin1 & Hsock1).
    set (n := st_size - BUF_SIZE * full).
    destruct (exec_cycle fiber infd ino m1 n (BUF_SIZE * full) _ _ Hok1 Hin1 Hsock1)
      as (m2 & Hex2 & Hw2); [unfold n, BUF_SIZE in *; fold st_size; lia.. |].
    exists m2. split.
    + eapply exec_bind_ok; [exact Hex1 |].
      rewrite Z.add_0_l. destruct (Z.ltb_spec (BUF_SIZE * full) st_size); [|lia].
      fold n. unfold size_t. rewrite Z.mod_small
        by (change (2 ^ 64) with 18446744073709551616; unfold n, BUF_SIZE in *; lia).
      rewrite (Z.mul_comm full). exact Hex2.
    + pose proof (wrote_app _ _ _ _ _ _ Hw1 Hw2) as Hw.
      change (Z.to_nat 0) with O in Hw. rewrite drop_0 in Hw.
      rewrite take_take_drop, take_ge in Hw; [done |].
      unfold n, st_size, string_view.size in *. lia.
Qed.
End body.

(** ** [http_send_file] *)

Lemma exec_open path m fd m' :
  sys_open path m = (fd, m') →
  exec (open path) m = Run [call_open path fd] m' (inr fd).
Proof. intros E. unfold open. simpl. by rewrite E. Qed.

Lemma exec_fstat fd m :
  exec (fstat fd) m = Run [call_fstat fd] m (inr (sys_fstat fd m)).
Proof. done. Qed.

Lemma exec_close fd m :
  exec (close fd) m = Run [call_close fd] (sys_close fd m) (inr tt).
Proof. done. Qed.

Lemma exec_print msg m : exec (print msg) m = Run [call_print msg] m (inr tt).
Proof. done. Qed.

Lemma exec_Ret {A : Type} (a : A) m : exec (Ret a) m = Run [] m (inr a).
Proof. done. Qed.

Lemma wrote_served fiber d m m' :
  wrote (clientfd fiber) d m m' → served fiber d m m'.
Proof.
  intros Hw. pose proof Hw as (Hfs & Hb & rx & tx & Hfd & Ht).
  split_and!; [done.. | |].
  - intros fd Hne. by eapply wrote_lookup.
  - exists rx, tx. split; [done |]. by eapply wrote_socket.
Qed.

(** A successful [open]: the new descriptor was not in use. *)
Lemma sys_open_found path m ino :
  fs m (c_str path) = Some ino →
  ∃ infd m1,
    sys_open path m = (infd, m1) ∧ 0 ≤ infd ∧
    fd_lookup (fdtab m) infd = None ∧
    fd_lookup (fdtab m1) infd = Some (File ino) ∧
    (∀ fd, fd ≠ infd → fd_lookup (fdtab m1) fd = fd_lookup (fdtab m) fd) ∧
    fs m1 = fs m ∧ buffers m1 = buffers m.
Proof.
  intros Hfs. unfold sys_open. rewrite Hfs.
  destruct (fd_alloc (fdtab m) (File ino)) as [k t] eqn:E.
  destruct (fd_alloc_spec _ _ _ _ E) as (H1 & H2 & H3).
  exists (Z.of_nat k), (set_fdtab t m). split_and!; try done. lia.
Qed.

Lemma sys_close_open fd m f :
  fd_lookup (fdtab m) fd = Some f →
  fd_lookup (fdtab (sys_close fd m)) fd = None ∧
  (∀ fd', fd' ≠ fd →
     fd_lookup (fdtab (sys_close fd m)) fd' = fd_lookup (fdtab m) fd') ∧
  fs (sys_close fd m) = fs m ∧ buffers (sys_close fd m) = buffers m.
Proof.
  intros Hfd. unfold sys_close. rewrite Hfd. simpl. split_and!; try done.
  - by eapply fd_lookup_set_eq.
  - intros fd' Hne. by apply fd_lookup_set_ne.
Qed.

Lemma response_200_hdr data :
  http_200_hdr (string_view.size data) ++ data = response_200 data.
Proof.
  unfold http_200_hdr, response_200, string_view.size.
  by rewrite <- !app_assoc.
Qed.

Lemma http_200_hdr_nonempty n : http_200_hdr n ≠ [].
Proof. done. Qed.

Section send_file.
Context (fiber : fiber_data) (filename : chars) (m : machine).
Context (rx tx : chars).
Hypothesis Hconn : connected fiber m rx tx.

(** The file is there: header, content, and the file is closed. *)
Lemma exec_http_send_file_200 ino :
  fs m (c_str filename) = Some ino →
  S_ISREG (i_mode ino) = true →
  ∃ infd m',
    exec (http_send_file fiber filename) m =
      Run ([call_open filename infd; call_fstat infd;
            io_uring_submit
              (prep_v WRITE (clientfd fiber)
                 [to_iov_sv (http_200_hdr (string_view.size (i_data ino)))]
                 1 0)
              (string_view.size
                 (http_200_hdr (string_view.size (i_data ino))))] ++
           body_calls fiber infd (string_view.size (i_data ino)) ++
           [call_close infd])
          m' (inr tt) ∧
    served fiber (response_200 (i_data ino)) m m'.
Proof.
  intros Hfs Hreg. destruct Hconn as [Hsock Hok].
  destruct (sys_open_found filename m ino Hfs)
    as (infd & m1 & Hopen & Hinfd & Hfree & Hin1 & Hoth1 & Hfs1 & Hb1).
  assert (Hne : clientfd fiber ≠ infd) by congruence.
  assert (Hsock1 : fd_lookup (fdtab m1) (clientfd fiber) = Some (Socket rx tx)).
  { by rewrite Hoth1. }
  assert (Hok1 : slot_ok fiber m1).
  { destruct Hok as (? & ? & ?). split_and!; [done | congruence | done]. }
  destruct (exec_writev_sv fiber (clientfd fiber)
              (http_200_hdr (string_view.size (i_data ino))) m1 rx tx Hsock1)
    as (m2 & Hex2 & Hw2); [apply http_200_hdr_nonempty |].
  assert (Hs2 : sending fiber infd ino m2 rx
                  (tx ++ http_200_hdr (string_view.size (i_data ino)))).
  { eapply sending_wrote; [|done]. by split_and!. }
  destruct (exec_http_send_body fiber infd ino m2 _ _ Hs2)
    as (m3 & Hex3 & Hw3).
  pose proof (sending_wrote _ _ _ _ _ _ _ _ Hs2 Hw3) as (Hok3 & Hin3 & Hsock3).
  destruct (sys_close_open infd m3 _ Hin3) as (Hc1 & Hc2 & Hc3 & Hc4).
  exists infd, (sys_close infd m3). split.
  - unfold http_send_file.
    eapply (exec_bind_ok _ _ _ [_]).
    { by apply exec_open. }
    eapply (exec_bind_ok _ _ _ [_]).
    { destruct (Z.ltb_spec infd 0); [lia |]. apply exec_fstat. }
    unfold sys_fstat. rewrite Hin1. cbn [st_mode st_size]. rewrite Hreg.
    cbn [negb].
    eapply (exec_bind_ok _ _ _
              (_ :: body_calls fiber infd (string_view.size (i_data ino))));
      [|apply exec_close].
    eapply (exec_bind_ok _ _ _ [_]); [exact Hex2 |]. exact Hex3.
  - pose proof Hw2 as (Hfs2 & Hb2 & _). pose proof Hw3 as (Hfs3 & Hb3 & _).
    split_and!.
    + congruence.
    + congruence.
    + intros fd Hfd. destruct (decide (fd = infd)) as [->|Hfd'].
      * by rewrite Hc1, Hfree.
      * rewrite Hc2, (wrote_lookup _ _ _ _ fd Hw3),
          (wrote_lookup _ _ _ _ fd Hw2), Hoth1 by done. done.
    + exists rx, tx. split; [done |].
      rewrite Hc2, Hsock3 by done.
      by rewrite <- app_assoc, response_200_hdr.
Qed.

(** The file is not there, or it is not a regular file: the fixed
    response, and what was opened is closed. *)
Lemma exec_http_send_file_404 :
  match fs m (c_str filename) with
  | Some ino => S_ISREG (i_mode ino) = false
  | None => True
  end →
  ∃ cs m',
    exec (http_send_file fiber filename) m = Run cs m' (inr tt) ∧
    submitted cs =
      [prep_v WRITE (clientfd fiber) [to_iov_sv http_404_hdr] 1 0] ∧
    opened cs = [filename] ∧
    served fiber http_404_hdr m m'.
Proof.
  intros Hfs. destruct Hconn as [Hsock Hok]. unfold http_send_file.
  destruct (fs m (c_str filename)) as [ino|] eqn:Efs.
  - destruct (sys_open_found filename m ino Efs)
      as (infd & m1 & Hopen & Hinfd & Hfree & Hin1 & Hoth1 & Hfs1 & Hb1).
    assert (Hne : clientfd fiber ≠ infd) by congruence.
    assert (Hsock1 : fd_lookup (fdtab m1) (clientfd fiber)
                     = Some (Socket rx tx)) by (by rewrite Hoth1).
    destruct (exec_writev_sv fiber (clientfd fiber) http_404_hdr m1 rx tx
                Hsock1) as (m2 & Hex2 & Hw2); [done |].
    assert (Hin2 : fd_lookup (fdtab m2) infd = Some (File ino)).
    { by rewrite (wrote_lookup _ _ _ _ infd Hw2). }
    destruct (sys_close_open infd m2 _ Hin2) as (Hc1 & Hc2 & Hc3 & Hc4).
    eexists _, (sys_close infd m2). split; [|split; [|split]].
    + eapply (exec_bind_ok _ _ _ [_]); [by apply exec_open |].
      eapply (exec_bind_ok _ _ _ [_]).
      { destruct (Z.ltb_spec infd 0); [lia |]. apply exec_fstat. }
      unfold sys_fstat. rewrite Hin1. cbn [st_mode st_size]. rewrite Hfs.
      cbn [negb].
      eapply (exec_bind_ok _ _ _ [_; _]); [|apply exec_close].
      eapply (exec_bind_ok _ _ _ [_]); [apply exec_print |].
      eapply (exec_bind_ok _ _ _ [_]); [exact Hex2 | apply exec_Ret].
    + done.
    + done.
    + pose proof Hw2 as (Hfs2 & Hb2 & _). split_and!.
      * congruence.
      * congruence.
      * intros fd Hfd. destruct (decide (fd = infd)) as [->|Hfd'].
        -- by rewrite Hc1, Hfree.
        -- by rewrite Hc2, (wrote_lookup _ _ _ _ fd Hw2), Hoth1 by done.
      * exists rx, tx. split; [done |]. rewrite Hc2 by done.
        rewrite (wrote_socket _ _ _ _ _ _ Hw2 Hsock1). done.
  - destruct (exec_writev_sv fiber (clientfd fiber) http_404_hdr m rx tx
                Hsock) as (m2 & Hex2 & Hw2); [done |].
    assert (Hopen : sys_open filename m = (-1, m)).
    { unfold sys_open. by rewrite Efs. }
    assert (Hclose : sys_close (-1) m2 = m2) by done.
    eexists _, m2. split; [|split; [|split]].
    + eapply (exec_bind_ok _ _ _ [_]); [by apply exec_open |].
      eapply (exec_bind_ok _ _ _ []); [apply exec_Ret |].
      eapply (exec_bind_ok _ _ _ [_; _]);
        [|rewrite exec_close, Hclose; reflexivity].
      eapply (exec_bind_ok _ _ _ [_]); [apply exec_print |].
      eapply (exec_bind_ok _ _ _ [_]); [exact Hex2 | apply exec_Ret].
    + done.
    + done.
    + by apply wrote_served.
Qed.
End send_file.

(** ** [serve] *)

Lemma set_locals_id m : set_locals (locals m) m = m.
Proof. by destruct m. Qed.

(** The first read: the chunk is taken off the connection; what
    [buf_view] shows is the chunk in a fiber with a pool slot, and the
    bytes of the dangling storage in a fiber without one. *)
Lemma exec_serve_read fiber m rx tx :
  connected fiber m rx tx → rx ≠ [] →
  ∃ m',
    exec (serve_read fiber) m =
      Run [io_uring_submit (request_sqe fiber)
             (string_view.size (first_chunk rx))] m'
          (inr (request_view fiber m rx)) ∧
    connected fiber m' (drop (Z.to_nat BUF_SIZE) rx) tx ∧
    fs m' = fs m ∧
    ∀ fd, fd ≠ clientfd fiber →
          fd_lookup (fdtab m') fd = fd_lookup (fdtab m) fd.
Proof.
  intros [Hsock Hok] Hrx. pose proof Hok as (Hstart & Hlen & Hp).
  set (chunk := first_chunk rx).
  assert (Hchunk : 0 < string_view.size chunk ≤ BUF_SIZE).
  { unfold chunk, first_chunk, string_view.size, BUF_SIZE.
    rewrite length_take. destruct rx; [done | simpl length; lia]. }
  assert (Hfd : sqe_fd (request_sqe fiber) = clientfd fiber).
  { unfold request_sqe. by destruct (pool_ptr fiber). }
  assert (Hop : sqe_op (request_sqe fiber) = READ).
  { unfold request_sqe. by destruct (pool_ptr fiber). }
  assert (Hr : sqe_ranges (request_sqe fiber) m =
               Some [{| iov_base := request_buffer fiber;
                        iov_len := BUF_SIZE |}]).
  { unfold request_sqe, request_buffer.
    destruct (pool_ptr fiber) as [p|] eqn:Ep; simpl; [|done].
    rewrite decide_True; [done |]. split; [done |]. rewrite Hlen. by apply Hp. }
  assert (Hvalid : ∀ m1, length (buffers m1) = length (buffers m) →
                         valid_ptr (request_buffer fiber) m1).
  { intros m1 Hm1. unfold request_buffer.
    destruct (pool_ptr fiber) as [p|] eqn:Ep; simpl; [|done].
    rewrite Hm1, Hlen. by apply Hp. }
  destruct (read_socket_full _ m _ _ Hr rx tx Hop) as (Hres & _ & Hcomp);
    [by rewrite Hfd | done.. |].
  fold (first_chunk rx) in Hres, Hcomp. fold chunk in Hres, Hcomp.
  rewrite Hfd in Hcomp.
  set (m0 := set_fdtab _ m) in Hcomp.
  set (m1 := mem_store (request_buffer fiber) chunk m0) in Hcomp.
  destruct (mem_store_kernel (request_buffer fiber) chunk m0)
    as (Hfs1 & Ht1 & Hb1). fold m1 in Hfs1, Ht1, Hb1.
  assert (Hview : take (Z.to_nat (size_t (string_view.size chunk)))
                    (mem_load (request_buffer fiber) m1) = chunk).
  { unfold size_t. rewrite Z.mod_small
      by (change (2 ^ 64) with 18446744073709551616; unfold BUF_SIZE in *; lia).
    unfold string_view.size. rewrite Nat2Z.id.
    apply mem_load_store. by apply Hvalid. }
  assert (Hyield :
    exec (Yield (request_sqe fiber)
            (λ res, if res <=? 0
                    then panic (if pool_ptr fiber is Some _ then "read_fixed"
                                else "readv")
                    else Ret res)) m =
      Run [io_uring_submit (request_sqe fiber) (string_view.size chunk)] m1
          (inr (string_view.size chunk))).
  { rewrite exec_await. cbn zeta. rewrite Hres, Hcomp.
    destruct (Z.leb_spec (string_view.size chunk) 0); [lia | done]. }
  assert (Hsize : Z.to_nat (size_t (string_view.size chunk)) = length chunk).
  { unfold size_t. rewrite Z.mod_small
      by (change (2 ^ 64) with 18446744073709551616; unfold BUF_SIZE in *; lia).
    unfold string_view.size. by rewrite Nat2Z.id. }
  exists m1. split; [|split_and!].
  - unfold serve_read, request_view, request_sqe, request_buffer in *.
    destruct (pool_ptr fiber) as [p|] eqn:Ep.
    + eapply (exec_bind_ok _ _ _ [_] _ _ []).
      { unfold await_read_fixed, await_fixed. rewrite Ep, Hstart.
        simpl default. change (0 =? 0) with true. cbn iota.
        specialize (Hp p eq_refl). unfold POOL_SLOTS in Hp.
        change (uint32_t BUF_SIZE) with BUF_SIZE.
        unfold uint16_t. change (2 ^ 16) with 65536.
        rewrite Z.sub_0_r, Z.mod_small by lia. exact Hyield. }
      unfold load. cbn [bind exec]. by rewrite Hview.
    + eapply (exec_bind_ok _ _ _ [_] _ _ []); [exact Hyield |].
      unfold load. cbn [bind exec]. rewrite Hsize. fold (first_chunk rx).
      fold chunk. unfold m1, m0. simpl. done.
  - split.
    + rewrite Ht1. unfold m0. simpl. by eapply fd_lookup_set_eq.
    + split_and!; [done | | done]. by rewrite Hb1.
  - by rewrite Hfs1.
  - intros fd Hne. rewrite Ht1. unfold m0. simpl. by apply fd_lookup_set_ne.
Qed.

(** The three ways of [serve_parse]. *)
Lemma serve_parse_other fiber buf_view :
  take 3 buf_view ≠ lit "GET" →
  serve_parse fiber buf_view =
    (print (lit "unsupported request: %.*s" ++ LF);;;
     await_writev fiber (clientfd fiber) [to_iov_sv http_400_hdr] 0;;;
     Ret tt).
Proof.
  intros Hne. unfold serve_parse. rewrite compare_GET. cbn [bind].
  destruct (Z.eqb_spec (string_view.compare_view (take 3 buf_view) (lit "GET")) 0)
    as [E%compare_view_eq|]; done.
Qed.

Lemma serve_parse_GET fiber buf_view :
  take 3 buf_view = lit "GET" →
  string_view.size buf_view ≤ BUF_SIZE →
  serve_parse fiber buf_view =
    if string_view.size buf_view <? 4
    then Throw (out_of_range "basic_string_view::substr")
    else (print (lit "received request: " ++ target buf_view ++ LF);;;
          http_send_file fiber (target buf_view)).
Proof.
  intros HGET Hsize. unfold serve_parse. rewrite compare_GET. cbn [bind].
  apply compare_view_eq in HGET. rewrite HGET. cbn [Z.eqb].
  rewrite substr_target by done.
  by destruct (string_view.size buf_view <? 4).
Qed.

Lemma first_chunk_size rx : string_view.size (first_chunk rx) ≤ BUF_SIZE.
Proof.
  unfold first_chunk, string_view.size, BUF_SIZE. rewrite length_take. lia.
Qed.

Lemma request_view_size fiber m rx :
  string_view.size (request_view fiber m rx) ≤ BUF_SIZE.
Proof.
  pose proof (first_chunk_size rx) as H. unfold request_view.
  destruct (pool_ptr fiber); [done |].
  unfold string_view.size in *. rewrite length_take. lia.
Qed.

(** With a pool slot the view shows the first chunk. *)
Lemma request_view_pooled fiber m rx :
  pool_ptr fiber ≠ None → request_view fiber m rx = first_chunk rx.
Proof. unfold request_view. by destruct (pool_ptr fiber). Qed.

(** What [cycles] and [body_calls] consist of. *)
Lemma opened_app cs cs' : opened (cs ++ cs') = opened cs ++ opened cs'.
Proof. apply omap_app. Qed.

Lemma submitted_app cs cs' :
  submitted (cs ++ cs') = submitted cs ++ submitted cs'.
Proof. apply omap_app. Qed.

Lemma opened_cycles fiber infd offset count :
  opened (cycles fiber infd offset count) = [].
Proof.
  revert offset. induction count as [|count IH]; intros offset; [done |].
  simpl. apply IH.
Qed.

Lemma opened_body_calls fiber infd st_size :
  opened (body_calls fiber infd st_size) = [].
Proof.
  unfold body_calls. destruct (st_size <=? 0); [done |].
  by rewrite opened_app, opened_cycles.
Qed.

Lemma submitted_cycles_unfixed fiber infd offset count :
  pool_ptr fiber = None →
  Forall (λ s, is_fixed s = false)
         (submitted (cycles fiber infd offset count)).
Proof.
  intros Hp. revert offset.
  induction count as [|count IH]; intros offset; [by constructor |].
  simpl. unfold read_sqe, write_sqe. rewrite Hp.
  do 2 (constructor; [done |]). apply IH.
Qed.

Lemma submitted_body_unfixed fiber infd st_size :
  pool_ptr fiber = None →
  Forall (λ s, is_fixed s = false) (submitted (body_calls fiber infd st_size)).
Proof.
  intros Hp. unfold body_calls. destruct (st_size <=? 0); [by constructor |].
  rewrite submitted_app. apply Forall_app. split.
  - by apply submitted_cycles_unfixed.
  - simpl. unfold read_sqe, write_sqe. rewrite Hp. by repeat constructor.
Qed.

(** The whole of [serve] when it can parse what [buf_view] shows: it
    returns, and the connection has received the response of the code for
    those bytes. *)
Lemma exec_serve fiber m rx tx :
  connected fiber m rx tx → rx ≠ [] →
  (take 3 (request_view fiber m rx) = lit "GET" →
   4 ≤ string_view.size (request_view fiber m rx)) →
  ∃ cs m',
    exec (serve fiber) m = Run cs m' (inr tt) ∧
    fd_lookup (fdtab m') (clientfd fiber) =
      Some (Socket (drop (Z.to_nat BUF_SIZE) rx)
              (tx ++ http_response (fs m) (request_view fiber m rx))) ∧
    (∀ fd, fd ≠ clientfd fiber →
           fd_lookup (fdtab m') fd = fd_lookup (fdtab m) fd) ∧
    opened cs =
      (if decide (take 3 (request_view fiber m rx) = lit "GET")
       then [target (request_view fiber m rx)] else []) ∧
    (pool_ptr fiber = None →
     Forall (λ s, is_fixed s = false) (submitted cs)).
Proof.
  intros Hconn Hrx Hlen.
  destruct (exec_serve_read fiber m rx tx Hconn Hrx)
    as (m1 & Hread & Hconn1 & Hfs1 & Hoth1).
  pose proof Hconn1 as [Hsock1 Hok1].
  set (chunk := request_view fiber m rx) in *.
  assert (Hreq : pool_ptr fiber = None → is_fixed (request_sqe fiber) = false).
  { intros Hp. unfold request_sqe. by rewrite Hp. }
  unfold serve, http_response.
  destruct (decide (take 3 chunk = lit "GET")) as [HGET|Hother].
  - (* a GET request *)
    assert (Hparse : serve_parse fiber chunk =
              (print (lit "received request: " ++ target chunk ++ LF);;;
               http_send_file fiber (target chunk))).
    { rewrite serve_parse_GET by (done || apply request_view_size).
      specialize (Hlen HGET).
      destruct (Z.ltb_spec (string_view.size chunk) 4); [lia | done]. }
    rewrite <- Hfs1.
    destruct (fs m1 (c_str (target chunk))) as [ino|] eqn:Efs;
      [destruct (S_ISREG (i_mode ino)) eqn:Ereg |].
    + destruct (exec_http_send_file_200 fiber (target chunk) m1 _ _ Hconn1
                  ino Efs Ereg) as (infd & m2 & Hex & Hserved).
      destruct Hserved as (_ & _ & Hoth2 & rx' & tx' & Hs1 & Hs2).
      rewrite Hsock1 in Hs1. injection Hs1 as <- <-.
      eexists _, m2. split; [|split_and!].
      * eapply (exec_bind_ok _ _ _ [_]); [exact Hread |]. rewrite Hparse.
        eapply (exec_bind_ok _ _ _ [_]); [apply exec_print | exact Hex].
      * done.
      * intros fd Hfd. by rewrite Hoth2, Hoth1.
      * simpl. by rewrite opened_app, opened_body_calls.
      * intros Hp. simpl. constructor; [by apply Hreq |].
        constructor; [done |]. rewrite submitted_app, app_nil_r.
        by apply submitted_body_unfixed.
    + destruct (exec_http_send_file_404 fiber (target chunk) m1 _ _ Hconn1)
        as (cs & m2 & Hex & Hsub & Hopen & Hserved); [by rewrite Efs |].
      destruct Hserved as (_ & _ & Hoth2 & rx' & tx' & Hs1 & Hs2).
      rewrite Hsock1 in Hs1. injection Hs1 as <- <-.
      eexists _, m2. split; [|split_and!].
      * eapply (exec_bind_ok _ _ _ [_]); [exact Hread |]. rewrite Hparse.
        eapply (exec_bind_ok _ _ _ [_]); [apply exec_print | exact Hex].
      * done.
      * intros fd Hfd. by rewrite Hoth2, Hoth1.
      * simpl. by rewrite Hopen.
      * intros Hp. simpl. constructor; [by apply Hreq |].
        rewrite Hsub. by repeat constructor.
    + destruct (exec_http_send_file_404 fiber (target chunk) m1 _ _ Hconn1)
        as (cs & m2 & Hex & Hsub & Hopen & Hserved); [by rewrite Efs |].
      destruct Hserved as (_ & _ & Hoth2 & rx' & tx' & Hs1 & Hs2).
      rewrite Hsock1 in Hs1. injection Hs1 as <- <-.
      eexists _, m2. split; [|split_and!].
      * eapply (exec_bind_ok _ _ _ [_]); [exact Hread |]. rewrite Hparse.
        eapply (exec_bind_ok _ _ _ [_]); [apply exec_print | exact Hex].
      * done.
      * intros fd Hfd. by rewrite Hoth2, Hoth1.
      * simpl. by rewrite Hopen.
      * intros Hp. simpl. constructor; [by apply Hreq |].
        rewrite Hsub. by repeat constructor.
  - (* anything else *)
    destruct (exec_writev_sv fiber (clientfd fiber) http_400_hdr m1 _ _ Hsock1)
      as (m2 & Hex & Hw); [done |].
    eexists _, m2. split; [|split_and!].
    + eapply (exec_bind_ok _ _ _ [_]); [exact Hread |].
      rewrite serve_parse_other by done.
      eapply (exec_bind_ok _ _ _ [_]); [apply exec_print |].
      eapply (exec_bind_ok _ _ _ [_]); [exact Hex | apply exec_Ret].
    + by rewrite (wrote_socket _ _ _ _ _ _ Hw Hsock1).
    + intros fd Hfd. by rewrite (wrote_lookup _ _ _ _ fd Hw), Hoth1.
    + done.
    + intros Hp. simpl. constructor; [by apply Hreq |]. by repeat constructor.
Qed.

(** ** The claims about one connection

    The statements below are about [exec]: every entry the body submits is
    carried out in full by the kernel, and the file system does not change
    while the request is served. *)

Lemma sent_lookup m fd rx tx :
  fd_lookup (fdtab m) fd = Some (Socket rx tx) → sent m fd = tx.
Proof. intros H. unfold sent. by rewrite H. Qed.

Lemma take_3_of_4 (chunk : chars) :
  take 4 chunk = lit "GET " →
  take 3 chunk = lit "GET" ∧ 4 ≤ string_view.size chunk.
Proof.
  intros H. split.
  - replace (take 3 chunk) with (take 3 (take 4 chunk))
      by (by rewrite take_take). by rewrite H.
  - apply (f_equal length) in H. rewrite length_take in H.
    change (length (lit "GET ")) with 4%nat in H.
    unfold string_view.size. lia.
Qed.

(** C1: for a request whose first chunk begins with "GET " and names an
    existing regular file, [http_send_file], given the target of the
    chunk, sends the 200 header, whose Content-Length is the size the file
    had when it was opened, followed by that many bytes, the content of
    the file, and returns; the bytes sent are the same for a fiber that
    holds a pool slot (the fixed branch) and for one that does not (the
    [readv]/[writev] branch).  In a fiber with a pool slot that is the
    answer of [serve] to the request.  In a fiber without one,
    [http_send_file] is not given the target of the chunk: [serve] parses
    what its dangling view shows, and answers that. *)
Theorem get_file_response_any_buffer fiber fiber' m rx tx chunk ino :
  connected fiber m rx tx →
  connected fiber' m rx tx →
  clientfd fiber' = clientfd fiber →
  take 4 chunk = lit "GET " →
  fs m (c_str (target chunk)) = Some ino →
  S_ISREG (i_mode ino) = true →
  let r := exec (http_send_file fiber (target chunk)) m in
  let r' := exec (http_send_file fiber' (target chunk)) m in
  let s := exec (serve fiber) m in
  result r = inr tt ∧
  sent (final r) (clientfd fiber) =
    tx ++ http_200_hdr (Z.of_nat (length (i_data ino))) ++ i_data ino ∧
  result r' = inr tt ∧
  sent (final r') (clientfd fiber) = sent (final r) (clientfd fiber) ∧
  (first_chunk rx = chunk →
   (pool_ptr fiber ≠ None →
    result s = inr tt ∧
    sent (final s) (clientfd fiber) = sent (final r) (clientfd fiber)) ∧
   (pool_ptr fiber = None →
    let view := take (length chunk) (locals m dangling) in
    (take 3 view = lit "GET" → 4 ≤ string_view.size view) →
    result s = inr tt ∧
    sent (final s) (clientfd fiber) = tx ++ http_response (fs m) view)).
Proof.
  intros Hconn Hconn' Hfd HGET4 Hfs Hreg r r' s.
  pose proof HGET4 as [HGET Hlen]%take_3_of_4.
  assert (Hsend : ∀ f, connected f m rx tx → clientfd f = clientfd fiber →
            result (exec (http_send_file f (target chunk)) m) = inr tt ∧
            sent (final (exec (http_send_file f (target chunk)) m))
                 (clientfd fiber) = tx ++ response_200 (i_data ino)).
  { intros f Hf Hcf.
    destruct (exec_http_send_file_200 f (target chunk) m rx tx Hf ino Hfs Hreg)
      as (infd & m' & -> & _ & _ & _ & rx0 & tx0 & Hs0 & Hs1).
    destruct Hf as [Hsock _]. rewrite Hsock in Hs0. injection Hs0 as <- <-.
    rewrite Hcf in Hs1. simpl. by rewrite (sent_lookup _ _ _ _ Hs1). }
  destruct (Hsend fiber Hconn eq_refl) as [Hr Hs].
  destruct (Hsend fiber' Hconn' Hfd) as [Hr' Hs'].
  unfold r, r'. rewrite Hs, Hs'.
  split_and!; [done | by rewrite <- response_200_hdr | done | done |].
  intros Hchunk.
  assert (Hrx : rx ≠ []).
  { intros ->. rewrite <- Hchunk in HGET. unfold first_chunk in HGET.
    by rewrite take_nil in HGET. }
  assert (Hserve : (take 3 (request_view fiber m rx) = lit "GET" →
                    4 ≤ string_view.size (request_view fiber m rx)) →
            result s = inr tt ∧
            sent (final s) (clientfd fiber) =
              tx ++ http_response (fs m) (request_view fiber m rx)).
  { intros Hview.
    destruct (exec_serve fiber m rx tx Hconn Hrx Hview)
      as (cs & m1 & Hex & Hsock & _).
    unfold s. rewrite Hex. simpl. by rewrite (sent_lookup _ _ _ _ Hsock). }
  split.
  - intros Hpool. rewrite (request_view_pooled fiber m rx Hpool), Hchunk in Hserve.
    destruct (Hserve (λ _, Hlen)) as [-> ->]. split; [done |].
    unfold http_response. by rewrite decide_True, Hfs, Hreg.
  - intros Hpool. cbn zeta. unfold request_view in Hserve.
    rewrite Hpool, Hchunk in Hserve. exact Hserve.
Qed.

(** The fiber of the example is connected in the example machine. *)
Lemma example_connected pool rx :
  (∀ p, pool = Some p → (p < POOL_SLOTS)%nat) →
  connected (example_fiber pool) (example_machine rx) rx [].
Proof.
  intros Hp. split; [reflexivity |]. split; [reflexivity |].
  split; [reflexivity | exact Hp].
Defined.

(** The same request on a connection with a pool slot and on one without,
    whose view dangles into storage that holds other bytes: the first
    receives the file, the second the 404 response. *)
Lemma get_file_response_any_buffer_witness :
  let rx := lit "GET /a HTTP/1.1" in
  let m := set_locals example_stack (example_machine rx) in
  let pooled := example_fiber (Some 3%nat) in
  let unpooled := example_fiber None in
  sent (final (exec (http_send_file pooled (lit "/a")) m)) 5
    = http_200_hdr 5 ++ lit "hello" ∧
  sent (final (exec (http_send_file unpooled (lit "/a")) m)) 5
    = http_200_hdr 5 ++ lit "hello" ∧
  sent (final (exec (serve pooled) m)) 5 = http_200_hdr 5 ++ lit "hello" ∧
  sent (final (exec (serve unpooled) m)) 5 = response_404.
Proof.
  intros rx m pooled unpooled.
  assert (Hc : ∀ pool, (∀ p, pool = Some p → (p < POOL_SLOTS)%nat) →
                       connected (example_fiber pool) m rx []).
  { intros pool Hp. split; [reflexivity |]. split; [reflexivity |].
    split; [reflexivity | exact Hp]. }
  assert (Hp : ∀ p, Some 3%nat = Some p → (p < POOL_SLOTS)%nat).
  { intros p [= <-]. unfold POOL_SLOTS. lia. }
  assert (Hu : ∀ p, @None nat = Some p → (p < POOL_SLOTS)%nat).
  { intros p [=]. }
  destruct (get_file_response_any_buffer pooled unpooled m rx [] rx
              (example_file (lit "hello")) (Hc _ Hp) (Hc _ Hu))
    as (_ & H1 & _ & H2 & H3); [reflexivity.. |].
  destruct (get_file_response_any_buffer unpooled pooled m rx [] rx
              (example_file (lit "hello")) (Hc _ Hu) (Hc _ Hp))
    as (_ & _ & _ & _ & H4); [reflexivity.. |].
  destruct (H3 eq_refl) as [H3' _]. destruct (H4 eq_refl) as [_ H4'].
  destruct H3' as [_ H3']; [intros [=] |].
  destruct H4' as [_ H4']; [reflexivity | |].
  { intros _. unfold string_view.size. simpl. lia. }
  split; [exact H1 |]. split; [exact (eq_trans H2 H1) |].
  split; [exact (eq_trans H3' H1) |]. exact (eq_trans H4' eq_refl).
Defined.

(** The 400 response, with the calls that produce it. *)
Lemma exec_serve_other fiber m rx tx :
  connected fiber m rx tx → rx ≠ [] →
  take 3 (request_view fiber m rx) ≠ lit "GET" →
  ∃ cs m',
    exec (serve fiber) m = Run cs m' (inr tt) ∧
    submitted cs =
      [request_sqe fiber;
       prep_v WRITE (clientfd fiber) [to_iov_sv http_400_hdr] 1 0] ∧
    opened cs = [] ∧
    fd_lookup (fdtab m') (clientfd fiber) =
      Some (Socket (drop (Z.to_nat BUF_SIZE) rx) (tx ++ http_400_hdr)).
Proof.
  intros Hconn Hrx Hother.
  destruct (exec_serve_read fiber m rx tx Hconn Hrx)
    as (m1 & Hread & [Hsock1 Hok1] & Hfs1 & Hoth1).
  destruct (exec_writev_sv fiber (clientfd fiber) http_400_hdr m1 _ _ Hsock1)
    as (m2 & Hex & Hw); [done |].
  eexists _, m2. split; [|split_and!].
  - eapply (exec_bind_ok _ _ _ [_]); [exact Hread |].
    rewrite serve_parse_other by done.
    eapply (exec_bind_ok _ _ _ [_]); [apply exec_print |].
    eapply (exec_bind_ok _ _ _ [_]); [exact Hex | apply exec_Ret].
  - done.
  - done.
  - by rewrite (wrote_socket _ _ _ _ _ _ Hw Hsock1).
Qed.

(** Where the code and the specification agree on a chunk: everywhere but
    on "GET" followed by a byte that is not a space. *)
Lemma http_response_spec fs chunk :
  take 4 chunk = lit "GET " ∨ take 3 chunk ≠ lit "GET" →
  http_response fs chunk = spec_response fs chunk.
Proof.
  unfold http_response, spec_response. intros [H4|H3].
  - destruct (take_3_of_4 chunk H4) as [H3 _]. by rewrite !decide_True.
  - rewrite decide_False by done. rewrite decide_False; [done |].
    intros H4. by destruct (take_3_of_4 chunk H4).
Qed.

(** C2: what [serve] does with the bytes [buf_view] shows.  The test of
    line 161 looks at three bytes: a view whose first three bytes are not
    "GET" is answered with the fixed 400 response and nothing else; a view
    that begins with "GET" and has at least four bytes has its byte 3
    skipped, whatever it is, and the bytes from index 4 up to the next
    space (or to the end of the view) are the target handed to
    [http_send_file].  The answer is the one of the specification when the
    view begins with "GET " or does not begin with "GET"; on "GET"
    followed by another byte the code serves a target where the
    specification answers 400. *)
Theorem serve_dispatch_on_three_bytes fiber m rx tx :
  connected fiber m rx tx → rx ≠ [] →
  let chunk := request_view fiber m rx in
  (take 3 chunk ≠ lit "GET" →
   ∃ cs m',
     exec (serve fiber) m = Run cs m' (inr tt) ∧
     submitted cs =
       [request_sqe fiber;
        prep_v WRITE (clientfd fiber) [to_iov_sv response_400] 1 0] ∧
     sent m' (clientfd fiber) = tx ++ response_400) ∧
  (take 3 chunk = lit "GET" → 4 ≤ string_view.size chunk →
   serve_parse fiber chunk =
     (print (lit "received request: " ++ target chunk ++ LF);;;
      http_send_file fiber (target chunk))) ∧
  ((take 3 chunk = lit "GET" → 4 ≤ string_view.size chunk) →
   result (exec (serve fiber) m) = inr tt ∧
   sent (final (exec (serve fiber) m)) (clientfd fiber) =
     tx ++ http_response (fs m) chunk) ∧
  (take 4 chunk = lit "GET " ∨ take 3 chunk ≠ lit "GET" →
   http_response (fs m) chunk = spec_response (fs m) chunk).
Proof.
  intros Hconn Hrx chunk. split_and!.
  - intros Hother.
    destruct (exec_serve_other fiber m rx tx Hconn Hrx Hother)
      as (cs & m' & Hex & Hsub & _ & Hsock).
    exists cs, m'. split_and!; [done.. |]. by rewrite (sent_lookup _ _ _ _ Hsock).
  - intros HGET Hlen.
    rewrite serve_parse_GET by (done || apply request_view_size).
    destruct (Z.ltb_spec (string_view.size chunk) 4); [lia | done].
  - intros Hlen.
    destruct (exec_serve fiber m rx tx Hconn Hrx Hlen)
      as (cs & m' & Hex & Hsock & _).
    rewrite Hex. simpl. by rewrite (sent_lookup _ _ _ _ Hsock).
  - apply http_response_spec.
Qed.

(** The input on which the code leaves the specification: the chunk
    "GETX/a HTTP/1.1" does not begin with "GET ", the specification
    answers it with 400, and [serve], in a fiber with a pool slot, answers
    it with the file [/a]. *)
Lemma serve_dispatch_on_three_bytes_witness :
  let rx := lit "GETX/a HTTP/1.1" in
  let fiber := example_fiber (Some 0%nat) in
  let r := exec (serve fiber) (example_machine rx) in
  take 4 (first_chunk rx) ≠ lit "GET " ∧
  spec_response example_fs (first_chunk rx) = response_400 ∧
  result r = inr tt ∧
  sent (final r) 5 = response_200 (lit "hello").
Proof.
  intros rx fiber r.
  split; [intros [=] |]. split; [reflexivity |].
  destruct (serve_dispatch_on_three_bytes fiber (example_machine rx) rx [])
    as (_ & _ & H & _).
  - apply example_connected. intros p [= <-]. unfold POOL_SLOTS. lia.
  - intros [=].
  - destruct H as [Hr Hs].
    + intros _. unfold string_view.size. simpl. lia.
    + split; [exact Hr |]. unfold r. change 5 with (clientfd fiber) at 1.
      rewrite Hs. reflexivity.
Defined.

(** The cycles of a file whose size is a multiple of [BUF_SIZE]. *)
Lemma cycles_snoc fiber infd count : ∀ offset,
  cycles fiber infd offset (S count) =
    cycles fiber infd offset count ++
    cycle fiber infd (offset + BUF_SIZE * Z.of_nat count) BUF_SIZE.
Proof.
  induction count as [|count IH]; intros offset.
  - simpl. by rewrite Z.add_0_r.
  - change (cycles fiber infd offset (S (S count)))
      with (cycle fiber infd offset BUF_SIZE ++
            cycles fiber infd (offset + BUF_SIZE) (S count)).
    rewrite IH.
    change (cycles fiber infd offset (S count))
      with (cycle fiber infd offset BUF_SIZE ++
            cycles fiber infd (offset + BUF_SIZE) count).
    rewrite <- app_assoc. do 3 f_equal. lia.
Qed.

Lemma body_calls_multiple fiber infd k :
  0 < k →
  body_calls fiber infd (k * BUF_SIZE) = cycles fiber infd 0 (Z.to_nat k).
Proof.
  intros Hk. unfold body_calls.
  destruct (Z.leb_spec (k * BUF_SIZE) 0); [unfold BUF_SIZE in *; lia |].
  assert (Hfull : (k * BUF_SIZE - 1) / BUF_SIZE = k - 1).
  { unfold BUF_SIZE. symmetry. apply (Z.div_unique _ _ _ 1023); lia. }
  rewrite Hfull. replace (Z.to_nat k) with (S (Z.to_nat (k - 1))) by lia.
  rewrite cycles_snoc. do 2 f_equal; unfold BUF_SIZE; lia.
Qed.

Lemma sqe_len_cycles fiber infd count : ∀ offset,
  Forall (λ s, sqe_len s = BUF_SIZE) (submitted (cycles fiber infd offset count)).
Proof.
  induction count as [|count IH]; intros offset; [by constructor |].
  simpl. unfold read_sqe, write_sqe.
  destruct (pool_ptr fiber); (do 2 (constructor; [done |])); apply IH.
Qed.

Lemma response_200_empty :
  response_200 [] =
    lit "HTTP/1.1 200 OK" ++ CRLF ++ lit "Content-type: text/plain" ++ CRLF ++
    lit "Content-Length: 0" ++ CRLF ++ CRLF.
Proof. reflexivity. Qed.

(** C7: for a file of [k * BUF_SIZE] bytes with [k] positive,
    [http_send_file] makes [k] cycles of a read followed by a write, each of
    [BUF_SIZE] bytes, and no entry it submits has length zero; for an empty
    file it submits the header, which says "Content-Length: 0", and no read
    or write for a body. *)
Theorem chunked_body_cycles fiber filename m rx tx ino :
  connected fiber m rx tx →
  fs m (c_str filename) = Some ino →
  S_ISREG (i_mode ino) = true →
  let st_size := string_view.size (i_data ino) in
  let header :=
    io_uring_submit
      (prep_v WRITE (clientfd fiber) [to_iov_sv (http_200_hdr st_size)] 1 0)
      (string_view.size (http_200_hdr st_size)) in
  ∃ infd cs m',
    exec (http_send_file fiber filename) m = Run cs m' (inr tt) ∧
    (∀ k, 0 < k → st_size = k * BUF_SIZE →
       cs = [call_open filename infd; call_fstat infd; header] ++
            cycles fiber infd 0 (Z.to_nat k) ++ [call_close infd] ∧
       length (cycles fiber infd 0 (Z.to_nat k)) = (2 * Z.to_nat k)%nat ∧
       Forall (λ s, 0 < sqe_len s) (submitted cs)) ∧
    (st_size = 0 →
       cs = [call_open filename infd; call_fstat infd; header;
             call_close infd] ∧
       sent m' (clientfd fiber) =
         tx ++ lit "HTTP/1.1 200 OK" ++ CRLF ++
         lit "Content-type: text/plain" ++ CRLF ++
         lit "Content-Length: 0" ++ CRLF ++ CRLF).
Proof.
  intros Hconn Hfs Hreg st_size header.
  destruct (exec_http_send_file_200 fiber filename m rx tx Hconn ino Hfs Hreg)
    as (infd & m' & Hex & Hserved).
  eexists infd, _, m'. split; [exact Hex |]. fold st_size. split.
  - intros k Hk Hsize. unfold header. rewrite Hsize, body_calls_multiple by done.
    split; [done |]. split.
    + clear. generalize 0. induction (Z.to_nat k) as [|n IH]; intros offset;
        [done |]. simpl. rewrite IH. lia.
    + simpl. constructor.
      { simpl. unfold string_view.size. rewrite Z.add_0_r.
        destruct (http_200_hdr (k * BUF_SIZE)) eqn:E;
          [by apply http_200_hdr_nonempty in E | simpl; lia]. }
      rewrite submitted_app, app_nil_r.
      eapply Forall_impl; [apply sqe_len_cycles |].
      intros s ->. by unfold BUF_SIZE.
  - intros Hsize. unfold body_calls, header. rewrite Hsize. split; [done |].
    destruct Hserved as (_ & _ & _ & rx' & tx' & Hs1 & Hs2).
    destruct Hconn as [Hsock _]. rewrite Hsock in Hs1. injection Hs1 as <- <-.
    rewrite (sent_lookup _ _ _ _ Hs2).
    assert (i_data ino = []) as ->.
    { apply length_zero_iff_nil. unfold st_size, string_view.size in Hsize. lia. }
    by rewrite response_200_empty.
Qed.

Lemma chunked_body_cycles_witness :
  let fiber := example_fiber (Some 0%nat) in
  let m := example_machine (lit "GET /k HTTP/1.1") in
  let header :=
    io_uring_submit
      (prep_v WRITE (clientfd fiber) [to_iov_sv (http_200_hdr 2048)] 1 0)
      (string_view.size (http_200_hdr 2048)) in
  ∃ infd cs m',
    exec (http_send_file fiber (lit "/k")) m = Run cs m' (inr tt) ∧
    cs = [call_open (lit "/k") infd; call_fstat infd; header] ++
         cycles fiber infd 0 2 ++ [call_close infd].
Proof.
  intros fiber m header.
  destruct (chunked_body_cycles fiber (lit "/k") m (lit "GET /k HTTP/1.1") []
              (example_file (replicate 2048 "x"%char)))
    as (infd & cs & m' & Hex & Hk & _).
  - apply example_connected. intros p [= <-]. unfold POOL_SLOTS. lia.
  - reflexivity.
  - reflexivity.
  - exists infd, cs, m'. split; [exact Hex |].
    apply (Hk 2); [lia | reflexivity].
Defined.

(** C8: there is an input, a first chunk of exactly the three bytes "GET",
    on which the comparison of line 161 succeeds and [substr(4, ...)] is
    applied to a view of three bytes: nothing has established that the
    chunk has four bytes, [substr] throws [std::out_of_range], the
    exception leaves [serve], and nothing is sent.  The condition is on
    what [buf_view] shows, which in a fiber with a pool slot is the first
    chunk. *)
Theorem bare_GET_substr_out_of_range fiber m rx tx :
  connected fiber m rx tx →
  request_view fiber m rx = lit "GET" →
  let buf_view := request_view fiber m rx in
  string_view.compare buf_view 0 3 (lit "GET") = Ret 0 ∧
  string_view.size buf_view = 3 ∧
  string_view.substr buf_view 4
      (size_t (string_view.find buf_view SP 4 - 4)) =
    Throw (out_of_range "basic_string_view::substr") ∧
  ∃ cs m',
    exec (serve fiber) m =
      Run cs m' (inl (out_of_range "basic_string_view::substr")) ∧
    submitted cs = [request_sqe fiber] ∧
    sent m' (clientfd fiber) = tx.
Proof.
  intros Hconn Hchunk buf_view.
  assert (Hrx : rx ≠ []).
  { intros ->. unfold request_view, first_chunk in Hchunk.
    rewrite take_nil in Hchunk. by destruct (pool_ptr fiber). }
  destruct (exec_serve_read fiber m rx tx Hconn Hrx)
    as (m1 & Hread & [Hsock1 Hok1] & Hfs1 & Hoth1).
  unfold buf_view. rewrite Hchunk in *. split_and!; [done.. |].
  eexists [io_uring_submit (request_sqe fiber) _], m1.
  split_and!.
  - unfold serve. eapply (exec_bind_ok _ _ _ [_] _ _ []); [exact Hread |].
    by rewrite (serve_parse_GET fiber (lit "GET")).
  - done.
  - by rewrite (sent_lookup _ _ _ _ Hsock1).
Qed.

Lemma bare_GET_substr_out_of_range_witness :
  ∃ cs m',
    exec (serve (example_fiber (Some 0%nat))) (example_machine (lit "GET")) =
      Run cs m' (inl (out_of_range "basic_string_view::substr")) ∧
    submitted cs = [request_sqe (example_fiber (Some 0%nat))] ∧
    sent m' 5 = [].
Proof.
  refine (proj2 (proj2 (proj2
    (bare_GET_substr_out_of_range (example_fiber (Some 0%nat))
       (example_machine (lit "GET")) (lit "GET") [] _ _)))).
  - apply example_connected. intros p [= <-]. unfold POOL_SLOTS. lia.
  - reflexivity.
Defined.







(** ** Awaited results *)

Section guarded_bodies.
Context (fiber : fiber_data).

Lemma guarded_bind {A B : Type} (c : coro A) (f : A → coro B) :
  guarded c → (∀ a, guarded (f a)) → guarded (bind c f).
Proof.
  intros Hc Hf. induction Hc as [a|e|s k Hk Hg IH|path k Hg IH|fd k Hg IH
                                 |fd k Hg IH|p k Hg IH|msg k Hg IH];
    simpl; try (constructor; auto; fail); [apply Hf |].
  constructor; [|done]. intros res Hres. by rewrite Hk.
Qed.

Lemma guarded_await_v op (fd : Z) ioves offset :
  guarded (await_v op (match op with READ => "readv" | WRITE => "writev" end)
             fiber fd ioves offset).
Proof.
  unfold await_v. constructor.
  - intros res Hres. destruct (Z.leb_spec res 0); [by destruct op | lia].
  - intros res. destruct (res <=? 0); constructor.
Qed.

Lemma guarded_await_fixed op (fd nbyte offset : Z) :
  guarded (await_fixed op (match op with READ => "read_fixed"
                                       | WRITE => "write_fixed" end)
             fiber fd nbyte offset).
Proof.
  unfold await_fixed. constructor.
  - intros res Hres. destruct (Z.leb_spec res 0); [by destruct op | lia].
  - intros res. destruct (res <=? 0); constructor.
Qed.

Lemma guarded_for_chunks body st_size :
  (∀ offset, guarded (body offset)) →
  ∀ offset, guarded (for_chunks body st_size offset).
Proof.
  intros Hbody offset.
  remember (Z.to_nat (st_size - offset)) as n eqn:Hn.
  revert offset Hn. induction (lt_wf n) as [n _ IH]. intros offset ->.
  rewrite for_chunks_eq.
  destruct (decide (BUF_SIZE < st_size - offset)) as [Hlt|_]; [|constructor].
  apply guarded_bind; [apply Hbody |]. intros _.
  eapply IH; [|done]. unfold BUF_SIZE in *. lia.
Qed.

Lemma guarded_http_send_body infd st_size :
  guarded (http_send_body fiber infd st_size).
Proof.
  unfold http_send_body. destruct (pool_ptr fiber).
  - apply guarded_bind.
    + apply guarded_for_chunks. intros offset.
      apply guarded_bind; [apply (guarded_await_fixed READ) |]. intros _.
      apply guarded_bind; [apply (guarded_await_fixed WRITE) |]. constructor.
    + intros offset. destruct (offset <? st_size); [|constructor].
      apply guarded_bind; [apply (guarded_await_fixed READ) |]. intros _.
      apply guarded_bind; [apply (guarded_await_fixed WRITE) |]. constructor.
  - apply guarded_bind.
    + apply guarded_for_chunks. intros offset.
      apply guarded_bind; [apply (guarded_await_v READ) |]. intros _.
      apply guarded_bind; [apply (guarded_await_v WRITE) |]. constructor.
    + intros offset. destruct (offset <? st_size); [|constructor].
      apply guarded_bind; [apply (guarded_await_v READ) |]. intros _.
      apply guarded_bind; [apply (guarded_await_v WRITE) |]. constructor.
Qed.

Lemma guarded_http_send_file filename :
  guarded (http_send_file fiber filename).
Proof.
  assert (Hnf : guarded
            (print (filename ++ lit ": file not found!" ++ LF);;;
             await_writev fiber (clientfd fiber) [to_iov_sv http_404_hdr] 0;;;
             Ret tt)).
  { apply guarded_bind; [repeat constructor |]. intros _.
    apply guarded_bind; [apply (guarded_await_v WRITE) |]. constructor. }
  unfold http_send_file.
  apply guarded_bind; [repeat constructor |]. intros infd.
  apply guarded_bind.
  { destruct (infd <? 0); repeat constructor. }
  intros [st|]; (apply guarded_bind; [|intros _; repeat constructor]);
    [|exact Hnf].
  destruct (negb _); [exact Hnf |].
  apply guarded_bind; [apply (guarded_await_v WRITE) |]. intros _.
  apply guarded_http_send_body.
Qed.

Lemma guarded_serve : guarded (serve fiber).
Proof.
  unfold serve. apply guarded_bind.
  - unfold serve_read. destruct (pool_ptr fiber).
    + apply guarded_bind; [apply (guarded_await_fixed READ) |]. intros res.
      repeat constructor.
    + apply guarded_bind; [apply (guarded_await_v READ) |]. intros res.
      repeat constructor.
  - intros buf_view. unfold serve_parse, string_view.compare.
    apply guarded_bind.
    { apply guarded_bind; [|constructor].
      unfold string_view.substr. destruct (_ <? _); constructor. }
    intros cmp. destruct (cmp =? 0).
    + apply guarded_bind.
      { unfold string_view.substr. destruct (_ <? _); constructor. }
      intros file. apply guarded_bind; [repeat constructor |]. intros _.
      apply guarded_http_send_file.
    + apply guarded_bind; [repeat constructor |]. intros _.
      apply guarded_bind; [apply (guarded_await_v WRITE) |]. constructor.
Qed.
End guarded_bodies.

(** Where a guarded body is suspended, it will throw on a result that is
    not positive. *)
Lemma advance_guarded (c : coro unit) m :
  guarded c →
  match advance c m with
  | Suspended _ q k =>
      (∀ res, res ≤ 0 → k res = panic (operation_name q)) ∧
      ∀ res, guarded (k res)
  | _ => True
  end.
Proof.
  intros Hc. revert m.
  induction Hc as [a|e|s k Hk Hg IH|path k Hg IH|fd k Hg IH
                   |fd k Hg IH|p k Hg IH|msg k Hg IH]; intros m; simpl;
    try apply IH; auto.
  destruct (sys_open path m). apply IH.
Qed.

Lemma next_guarded addr fiber body s s' :
  guarded body →
  next addr fiber body s = Running s' →
  (∀ a f, fibers s !! a = Some f → fiber_guarded f) →
  ∀ a f, fibers s' !! a = Some f → fiber_guarded f.
Proof.
  intros Hbody Hnext Hinv a f. unfold next in Hnext.
  pose proof (advance_guarded body (mach s) Hbody) as Hadv.
  destruct (advance body (mach s)) as [m q k|m []|m e]; [| |done];
    injection Hnext as <-; simpl.
  - destruct (decide (a = addr)) as [->|Hne].
    + rewrite lookup_insert_eq. by intros [= <-].
    + rewrite lookup_insert_ne by done. apply Hinv.
  - destruct (decide (a = addr)) as [->|Hne].
    + by rewrite lookup_delete_eq.
    + rewrite lookup_delete_ne by done. apply Hinv.
Qed.

Lemma reachable_guarded fs fdtab s :
  reachable (main_init fs fdtab) s →
  ∀ a f, fibers s !! a = Some f → fiber_guarded f.
Proof.
  induction 1 as [|s i s' _ IH Hstep].
  - intros a f Hf. simpl in Hf. by rewrite lookup_empty in Hf.
  - destruct i as [rx addr uninit|addr res| |]; unfold step in Hstep.
    + destruct (decide _); [done |].
      destruct (sys_accept rx (mach s)) as [newfd m].
      destruct (acquire (available_buffers s)) as [pool available].
      apply (inj Some) in Hstep.
      eapply next_guarded; [apply guarded_serve | exact Hstep | exact IH].
    + destruct (fibers s !! addr) as [f|] eqn:Ef; [|done].
      apply (inj Some) in Hstep.
      eapply next_guarded; [apply (IH _ _ Ef) | exact Hstep | exact IH].
    + by injection Hstep as <-.
    + done.
Qed.

(** C4: each of the four awaited primitives checks the result it is resumed
    with: a result that is zero or negative goes to [panic], a positive one
    is returned as it is.  What [panic] throws is caught nowhere: in every
    state the loop can reach, a completion with such a result for any
    waiting fiber ends [main], and with it every other connection. *)
Theorem nonpositive_result_ends_process fs fdtab s addr f res :
  reachable (main_init fs fdtab) s →
  fibers s !! addr = Some f →
  res ≤ 0 →
  step (cqe_ready addr res) s
    = Some (Terminated (system_error (operation_name (pending f)))) ∧
  (∀ fiber fd ioves offset, ∃ q k,
     await_readv fiber fd ioves offset = Yield q k ∧
     (∀ r, r ≤ 0 → k r = panic "readv") ∧ (∀ r, 0 < r → k r = Ret r)) ∧
  (∀ fiber fd ioves offset, ∃ q k,
     await_writev fiber fd ioves offset = Yield q k ∧
     (∀ r, r ≤ 0 → k r = panic "writev") ∧ (∀ r, 0 < r → k r = Ret r)) ∧
  (∀ fiber fd nbyte offset, ∃ q k,
     await_read_fixed fiber fd nbyte offset = Yield q k ∧
     (∀ r, r ≤ 0 → k r = panic "read_fixed") ∧ (∀ r, 0 < r → k r = Ret r)) ∧
  (∀ fiber fd nbyte offset, ∃ q k,
     await_write_fixed fiber fd nbyte offset = Yield q k ∧
     (∀ r, r ≤ 0 → k r = panic "write_fixed") ∧ (∀ r, 0 < r → k r = Ret r)).
Proof.
  intros Hreach Hf Hres. split.
  - destruct (reachable_guarded _ _ _ Hreach _ _ Hf) as [Hpanic _].
    unfold step. rewrite Hf. unfold next. by rewrite (Hpanic res Hres).
  - split_and!; intros; eexists _, _;
      (split; [reflexivity |]); split; intros r Hr; simpl;
      by (destruct (Z.leb_spec r 0); [|lia]) || 
         (destruct (Z.leb_spec r 0); [lia|]).
Qed.

(** The example states are states of the loop. *)
Lemma example_accepted_reachable rx :
  reachable example_init (example_accepted rx).
Proof.
  apply (reachable_step _ example_init (accept_ok rx 1%positive (λ _, [])));
    [apply reachable_init | reflexivity].
Defined.

Lemma nonpositive_result_ends_process_witness :
  ∃ operation,
    step (cqe_ready 1%positive (-104)) (example_accepted (lit "GET /a HTTP/1.1"))
    = Some (Terminated (system_error operation)).
Proof.
  destruct (fibers (example_accepted (lit "GET /a HTTP/1.1")) !! 1%positive)
    as [f|] eqn:Hf; [|discriminate Hf].
  exists (operation_name (pending f)).
  refine (proj1 (nonpositive_result_ends_process example_fs _ _ 1%positive f
                   (-104) (example_accepted_reachable _) Hf _)).
  lia.
Defined.

(** ** A connection, from [accept] to [cleanFiber] *)

(** [serve] begins with the read of the request: when [next] returns, a new
    fiber is suspended in it. *)
Lemma advance_serve fiber m :
  ∃ q k,
    advance (serve fiber) m = Suspended m q k ∧
    (pool_ptr fiber = None → q = request_sqe fiber).
Proof.
  unfold serve, serve_read, request_sqe.
  destruct (pool_ptr fiber) as [p|]; simpl; eexists _, _; split; done.
Qed.

(** The iteration that accepts a connection. *)
Lemma step_accept s rx addr uninit :
  fibers s !! addr = None →
  ∃ s' f,
    step (accept_ok rx addr uninit) s = Some (Running s') ∧
    fibers s' = <[addr := f]> (fibers s) ∧
    localData f =
      {| pool_start_ptr := O;
         pool_ptr := (acquire (available_buffers s)).1;
         clientfd := (sys_accept rx (mach s)).1 |} ∧
    available_buffers s' = (acquire (available_buffers s)).2 ∧
    mach s' = set_locals uninit (sys_accept rx (mach s)).2 ∧
    saved_locals f = uninit ∧
    (pool_ptr (localData f) = None → pending f = request_sqe (localData f)).
Proof.
  intros Hfresh. unfold step.
  rewrite decide_False by (by apply not_elem_of_dom).
  destruct (sys_accept rx (mach s)) as [newfd m].
  destruct (acquire (available_buffers s)) as [pool available].
  set (fiber := {| pool_start_ptr := O; pool_ptr := pool; clientfd := newfd |}).
  unfold next. cbn [mach available_buffers fibers].
  destruct (advance_serve fiber (set_locals uninit m)) as (q & k & -> & Hq).
  eexists _, {| localData := fiber; saved_locals := uninit; pending := q;
                continuation := k |}.
  split; [reflexivity |]. by split_and!.
Qed.

(** A fiber alone: from where [next] leaves it, the completions of its
    entries take the loop to the state in which it has been cleaned up, or
    to the end of [main] when its body throws; the machine goes as [exec]
    says. *)
Lemma next_drives addr fiber (c : coro unit) : ∀ m available flist,
  let r := exec c m in
  drives addr (submitted (calls r))
    (next addr fiber c
       {| mach := m; available_buffers := available; fibers := flist |})
    (match result r with
     | inr _ =>
         Running (cleanFiber addr fiber
                    {| mach := final r; available_buffers := available;
                       fibers := flist |})
     | inl e => Terminated e
     end).
Proof.
  induction c as [a|e|q k IH|path k IH|fd k IH|fd k IH|p k IH|msg k IH];
    intros m available flist; simpl.
  - destruct a. apply drives_refl.
  - apply drives_refl.
  - unfold next. cbn [advance mach available_buffers fibers].
    set (f := {| localData := fiber; saved_locals := locals m; pending := q;
                 continuation := k |}).
    eapply (drives_step addr _ f); [apply lookup_insert_eq | |].
    + unfold step. cbn [fibers]. rewrite lookup_insert_eq. reflexivity.
    + cbn [f pending saved_locals continuation localData mach
             available_buffers fibers].
      rewrite set_locals_id.
      specialize (IH (full_result q m) (complete q (full_result q m) m)
                     available (<[addr := f]> flist)).
      cbn zeta in IH.
      replace (cleanFiber addr fiber
                 {| mach := final (exec (k (full_result q m))
                                     (complete q (full_result q m) m));
                    available_buffers := available;
                    fibers := <[addr := f]> flist |})
        with (cleanFiber addr fiber
                {| mach := final (exec (k (full_result q m))
                                    (complete q (full_result q m) m));
                   available_buffers := available;
                   fibers := flist |}) in IH.
      { exact IH. }
      unfold cleanFiber. cbn [mach available_buffers fibers].
      by rewrite delete_insert_eq.
  - unfold next in *. cbn [advance mach available_buffers fibers] in *.
    destruct (sys_open path m) as [fd m']. apply IH.
  - unfold next in *. cbn [advance mach available_buffers fibers] in *.
    apply IH.
  - unfold next in *. cbn [advance mach available_buffers fibers] in *.
    apply IH.
  - unfold next in *. cbn [advance mach available_buffers fibers] in *.
    apply IH.
  - unfold next in *. cbn [advance mach available_buffers fibers] in *.
    apply IH.
Qed.

(** The vector [buffers] keeps its slots. *)
Lemma scatter_buffers ioves : ∀ d m,
  length (buffers (scatter ioves d m)) = length (buffers m).
Proof.
  induction ioves as [|v vs IH]; intros d m; [done |].
  simpl. rewrite IH. apply mem_store_kernel.
Qed.

Lemma complete_buffers q res m :
  length (buffers (complete q res m)) = length (buffers m).
Proof.
  unfold complete.
  destruct (sqe_ranges q m) as [ioves|]; [|done].
  destruct (fd_lookup _ _) as [f|]; [|done].
  destruct (res <=? 0); [done |].
  destruct (sqe_op q), f; try done; by rewrite scatter_buffers.
Qed.

Lemma advance_buffers (c : coro unit) : ∀ m,
  match advance c m with
  | Suspended m' _ _ | Finished m' _ | Raised m' _ => buffers m' = buffers m
  end.
Proof.
  induction c as [a|e|q k IH|path k IH|fd k IH|fd k IH|p k IH|msg k IH];
    intros m; simpl; try done; try apply IH.
  - unfold sys_open. destruct (fs m (c_str path)) as [ino|]; [|apply IH].
    destruct (fd_alloc _ _) as [n t]. apply (IH _ (set_fdtab t m)).
  - specialize (IH (sys_close fd m)).
    assert (buffers (sys_close fd m) = buffers m) as <-; [|exact IH].
    unfold sys_close. by destruct (fd_lookup _ _).
Qed.

Lemma next_buffers addr fiber body s s' :
  next addr fiber body s = Running s' →
  length (buffers (mach s')) = length (buffers (mach s)).
Proof.
  unfold next. pose proof (advance_buffers body (mach s)) as Hadv.
  destruct (advance body (mach s)) as [m q k|m []|m e]; [| |done];
    intros [= <-]; simpl; rewrite <- Hadv; [done |].
  unfold sys_close. by destruct (fd_lookup _ _).
Qed.

Lemma reachable_buffers fs fdtab s :
  reachable (main_init fs fdtab) s → length (buffers (mach s)) = POOL_SLOTS.
Proof.
  induction 1 as [|s i s' _ IH Hstep].
  - reflexivity.
  - destruct i as [rx addr uninit|addr res| |]; unfold step in Hstep.
    + destruct (decide _); [done |].
      unfold sys_accept in Hstep.
      destruct (fd_alloc _ _) as [newfd t].
      destruct (acquire (available_buffers s)) as [pool available].
      apply (inj Some), next_buffers in Hstep. by rewrite Hstep.
    + destruct (fibers s !! addr) as [f|] eqn:Ef; [|done].
      apply (inj Some), next_buffers in Hstep. rewrite Hstep. simpl.
      by rewrite complete_buffers.
    + by injection Hstep as <-.
    + done.
Qed.

(** ** The claims about the loop *)

(** C3: in every state the loop can reach, the free slots and the slots
    leased to live fibers partition the twelve slots of the pool, and no
    slot has two holders.  So the slot that [acquire] takes is free and
    held by no fiber; the body of a new fiber starts in a state from which
    its slot has been removed; and [cleanFiber] puts back a slot that was
    not free, once: the free set grows by that one slot, and the fiber is
    gone. *)
Theorem pool_slots_partitioned fs fdtab s :
  reachable (main_init fs fdtab) s →
  pool_partition s ∧
  (∀ p rest, acquire (available_buffers s) = (Some p, rest) →
     p ∈ available_buffers s ∧ ¬ leased s p ∧
     rest = available_buffers s ∖ {[p]}) ∧
  (∀ rx addr uninit, fibers s !! addr = None →
     ∃ fiber s0,
       step (accept_ok rx addr uninit) s
         = Some (next addr fiber (serve fiber) s0) ∧
       (pool_ptr fiber, available_buffers s0) = acquire (available_buffers s) ∧
       (∀ p, pool_ptr fiber = Some p → p ∉ available_buffers s0) ∧
       fibers s0 = fibers s) ∧
  (∀ addr f p,
     fibers s !! addr = Some f → pool_ptr (localData f) = Some p →
     let s' := cleanFiber addr (localData f) s in
     (p ∉ available_buffers s) ∧
     available_buffers s' = {[p]} ∪ available_buffers s ∧
     size (available_buffers s') = S (size (available_buffers s)) ∧
     fibers s' !! addr = None ∧
     ¬ leased s' p).
Proof.
  intros Hreach.
  pose proof (partition_reachable _ _ _ Hreach) as Hpart.
  pose proof Hpart as (Hall & Hdisj & Huniq).
  split; [done |]. split_and!.
  - intros p rest Hacq.
    destruct (acquire_spec (available_buffers s))
      as [[_ Ha]|(_ & Hin & Ha)]; rewrite Ha in Hacq; [done |].
    injection Hacq as <- <-. split_and!; [done | by apply Hdisj | done].
  - intros rx addr uninit Hfresh. unfold step.
    rewrite decide_False by (by apply not_elem_of_dom).
    destruct (sys_accept rx (mach s)) as [newfd m].
    destruct (acquire_spec (available_buffers s))
      as [[_ Ha]|(_ & Hin & Ha)]; rewrite Ha;
      eexists _, _; (split; [reflexivity |]); simpl;
      (split_and!; [done | | done]); intros p [= <-]. set_solver.
  - intros addr f p Hf Hp s'.
    assert (Hlease : leased_to s p addr) by (by exists f).
    assert (Hnin : p ∉ available_buffers s).
    { intros Hin. apply (Hdisj p Hin). by exists addr. }
    unfold s', cleanFiber. rewrite Hp. simpl. split_and!.
    + done.
    + done.
    + rewrite size_union by set_solver. by rewrite size_singleton.
    + apply lookup_delete_eq.
    + intros [b (g & Hg & Hgp)]. simpl in Hg.
      destruct (decide (b = addr)) as [->|Hne].
      * by rewrite lookup_delete_eq in Hg.
      * rewrite lookup_delete_ne in Hg by done.
        apply Hne, (Huniq p); [by exists g | done].
Qed.

Lemma pool_slots_partitioned_witness :
  pool_partition (example_accepted (lit "GET /a HTTP/1.1")).
Proof.
  exact (proj1 (pool_slots_partitioned example_fs _ _
                  (example_accepted_reachable (lit "GET /a HTTP/1.1")))).
Defined.

(** C10: the slot for a new connection is not arbitrary.  When the free
    set is not empty at [accept], the new fiber gets [begin()] of the
    ordered set, its least element, and that slot leaves the free set; two
    states with the same free set lease the same slot. *)
Theorem least_free_slot_is_leased s rx addr uninit :
  available_buffers s ≠ ∅ →
  fibers s !! addr = None →
  ∃ s' f,
    step (accept_ok rx addr uninit) s = Some (Running s') ∧
    fibers s' !! addr = Some f ∧
    pool_ptr (localData f) = Some (begin (available_buffers s)) ∧
    begin (available_buffers s) ∈ available_buffers s ∧
    (∀ x, x ∈ available_buffers s → (begin (available_buffers s) ≤ x)%nat) ∧
    available_buffers s' = available_buffers s ∖ {[begin (available_buffers s)]} ∧
    (∀ s2 rx2 addr2 uninit2 s2' f2,
       available_buffers s2 = available_buffers s →
       step (accept_ok rx2 addr2 uninit2) s2 = Some (Running s2') →
       fibers s2' !! addr2 = Some f2 →
       pool_ptr (localData f2) = pool_ptr (localData f)).
Proof.
  intros Hne Hfresh.
  destruct (step_accept s rx addr uninit Hfresh)
    as (s' & f & Hstep & Hf & Hld & Hav & _).
  destruct (acquire_spec (available_buffers s)) as [[He _]|(_ & Hin & Ha)];
    [done |].
  rewrite Ha in Hld, Hav. simpl in Hld, Hav.
  exists s', f. split_and!; try done.
  - rewrite Hf. apply lookup_insert_eq.
  - by rewrite Hld.
  - intros x. apply begin_le.
  - intros s2 rx2 addr2 uninit2 s2' f2 Hsame Hstep2 Hf2.
    assert (Hfresh2 : fibers s2 !! addr2 = None).
    { unfold step in Hstep2. destruct (decide (addr2 ∈ dom (fibers s2)));
        [done | by apply not_elem_of_dom]. }
    destruct (step_accept s2 rx2 addr2 uninit2 Hfresh2)
      as (s2'' & f2' & Hstep2' & Hf2' & Hld2 & _).
    rewrite Hstep2' in Hstep2. injection Hstep2 as ->.
    rewrite Hf2', lookup_insert_eq in Hf2. injection Hf2 as ->.
    rewrite Hld2, Hld, Hsame, Ha. done.
Qed.

Lemma least_free_slot_is_leased_witness :
  ∃ s' f,
    step (accept_ok (lit "GET /a HTTP/1.1") 2%positive (λ _, []))
         (example_accepted (lit "GET /k HTTP/1.1")) = Some (Running s') ∧
    fibers s' !! 2%positive = Some f ∧
    pool_ptr (localData f) = Some 1%nat.
Proof.
  destruct (least_free_slot_is_leased
              (example_accepted (lit "GET /k HTTP/1.1"))
              (lit "GET /a HTTP/1.1") 2%positive (λ _, []))
    as (s' & f & Hstep & Hf & Hp & _).
  - apply (bool_decide_unpack _). vm_compute. exact I.
  - reflexivity.
  - exists s', f. split; [exact Hstep |]. split; [exact Hf |].
    rewrite Hp. reflexivity.
Defined.

(** An iteration that leaves the loop running leads to a reachable state. *)
Lemma after_step_reachable init i s :
  reachable init s →
  (if step i s is Some (Running _) then True else False) →
  reachable init (after_step i s).
Proof.
  intros Hreach Hstep. unfold after_step.
  destruct (step i s) as [[s'|]|] eqn:E; [|done..].
  by apply (reachable_step init s i).
Defined.

Lemma example_exhausted_reachable : reachable example_init example_exhausted.
Proof.
  unfold example_exhausted. cbn [foldl].
  repeat (apply after_step_reachable; [|vm_compute; exact I]).
  apply reachable_init.
Defined.

(** C6: a target that cannot be opened, or that is not a regular file, is
    answered by [http_send_file] with the fixed 404 response and nothing
    else, and the body returns.  In the loop this is one [writev]: when it
    completes the fiber is cleaned up and the loop runs on; [main] does not
    end. *)
Theorem not_found_is_answered_locally fiber filename m rx tx :
  connected fiber m rx tx →
  match fs m (c_str filename) with
  | Some ino => S_ISREG (i_mode ino) = false
  | None => True
  end →
  let write_404 :=
    prep_v WRITE (clientfd fiber) [to_iov_sv response_404] 1 0 in
  (∃ cs m',
     exec (http_send_file fiber filename) m = Run cs m' (inr tt) ∧
     submitted cs = [write_404] ∧
     sent m' (clientfd fiber) = tx ++ response_404) ∧
  (∀ addr available flist, ∃ s',
     drives addr [write_404]
       (next addr fiber (http_send_file fiber filename)
          {| mach := m; available_buffers := available; fibers := flist |})
       (Running s') ∧
     fibers s' !! addr = None).
Proof.
  intros Hconn Hfs write_404.
  destruct (exec_http_send_file_404 fiber filename m rx tx Hconn Hfs)
    as (cs & m' & Hex & Hsub & _ & Hserved).
  split.
  - exists cs, m'. split_and!; [done.. |].
    destruct Hserved as (_ & _ & _ & rx' & tx' & Hs1 & Hs2).
    destruct Hconn as [Hsock _]. rewrite Hsock in Hs1. injection Hs1 as <- <-.
    by rewrite (sent_lookup _ _ _ _ Hs2).
  - intros addr available flist.
    pose proof (next_drives addr fiber (http_send_file fiber filename) m
                  available flist) as Hdrive.
    cbn zeta in Hdrive. rewrite Hex in Hdrive.
    cbn [calls result final] in Hdrive. rewrite Hsub in Hdrive.
    eexists. split; [exact Hdrive |]. apply lookup_delete_eq.
Qed.

Lemma not_found_is_answered_locally_witness :
  ∃ cs m',
    exec (http_send_file (example_fiber None) (lit "/d"))
         (example_machine (lit "GET /d HTTP/1.1")) = Run cs m' (inr tt) ∧
    submitted cs = [prep_v WRITE 5 [to_iov_sv response_404] 1 0] ∧
    sent m' 5 = [] ++ response_404.
Proof.
  refine (proj1 (not_found_is_answered_locally (example_fiber None) (lit "/d")
                   (example_machine (lit "GET /d HTTP/1.1"))
                   (lit "GET /d HTTP/1.1") [] _ _)).
  - apply example_connected. intros p [=].
  - reflexivity.
Defined.

(** * Further properties *)

(** ** What a body submits on any path *)

Lemma always_bind {A B : Type} P (Q : A → Prop) (R : B → Prop) c f :
  always P Q c → (∀ a, Q a → always P R (f a)) → always P R (bind c f).
Proof.
  intros Hc Hf.
  induction Hc as [a Ha|e|s k Hs Hk IH|path k Hk IH|fd k Hk IH|fd k Hk IH
                   |p k Hk IH|msg k Hk IH]; simpl;
    try (constructor; auto; fail).
  by apply Hf.
Qed.

Lemma always_for_chunks P body st_size :
  (∀ offset, always P (λ _ : unit, True) (body offset)) →
  ∀ offset,
    always P (λ offset', st_size - offset' ≤ BUF_SIZE)
      (for_chunks body st_size offset).
Proof.
  intros Hbody offset.
  remember (Z.to_nat (st_size - offset)) as n eqn:Hn.
  revert offset Hn. induction (lt_wf n) as [n _ IH]. intros offset ->.
  rewrite for_chunks_eq.
  destruct (decide (BUF_SIZE < st_size - offset)) as [Hlt|Hge].
  - eapply always_bind; [apply Hbody |]. intros _ _.
    eapply IH; [|done]. unfold BUF_SIZE in *. lia.
  - constructor. lia.
Qed.

(** The entries of [serve], for a property [P] that holds of the shapes
    the program prepares. *)
Section entries.
Context (fiber : fiber_data) (P : io_uring_sqe → Prop).

Hypothesis P_array : ∀ op fd a n offset,
  a ≠ dangling →
  0 < n ≤ BUF_SIZE →
  (op = WRITE → fd = clientfd fiber ∧ offset = 0) →
  P (prep_v op fd [{| iov_base := stack a; iov_len := n |}] 1 offset).

Hypothesis P_string : ∀ sv : chars,
  sv ≠ [] → P (prep_v WRITE (clientfd fiber) [to_iov_sv sv] 1 0).

Hypothesis P_fixed : ∀ op fd pool n offset,
  pool_ptr fiber = Some pool →
  0 < n ≤ BUF_SIZE →
  (op = WRITE → fd = clientfd fiber ∧ offset = 0) →
  P (prep_fixed op fd pool n offset
       (uint16_t (Z.of_nat pool - Z.of_nat (pool_start_ptr fiber)))).

Lemma always_await_array op name fd a n offset :
  a ≠ dangling →
  0 < n ≤ BUF_SIZE →
  (op = WRITE → fd = clientfd fiber ∧ offset = 0) →
  always P (λ _, True)
    (await_v op name fiber fd [{| iov_base := stack a; iov_len := n |}]
       offset).
Proof.
  intros Ha Hn Hw. unfold await_v. constructor; [by apply P_array |].
  intros res. destruct (res <=? 0); by constructor.
Qed.

Lemma always_await_string (sv : chars) :
  sv ≠ [] →
  always P (λ _, True)
    (await_writev fiber (clientfd fiber) [to_iov_sv sv] 0).
Proof.
  intros Hsv. unfold await_writev, await_v. constructor; [by apply P_string |].
  intros res. destruct (res <=? 0); by constructor.
Qed.

Lemma always_await_fixed op name fd nbyte offset pool :
  pool_ptr fiber = Some pool →
  0 ≤ nbyte ≤ BUF_SIZE →
  (op = WRITE → fd = clientfd fiber ∧ offset = 0) →
  always P (λ _, True) (await_fixed op name fiber fd nbyte offset).
Proof.
  intros Hpool Hn Hw. unfold await_fixed. rewrite Hpool. simpl default.
  constructor.
  - unfold uint32_t. change (2 ^ 32) with 4294967296.
    destruct (Z.eqb_spec nbyte 0) as [->|Hne];
      (rewrite Z.mod_small by (unfold BUF_SIZE in *; lia));
      apply P_fixed; unfold BUF_SIZE in *; try done; lia.
  - intros res. destruct (res <=? 0); by constructor.
Qed.

Lemma size_t_small n : 0 ≤ n ≤ BUF_SIZE → size_t n = n.
Proof.
  intros Hn. unfold size_t. change (2 ^ 64) with 18446744073709551616.
  apply Z.mod_small. unfold BUF_SIZE in *. lia.
Qed.

Lemma always_http_send_body infd st_size :
  always P (λ _, True) (http_send_body fiber infd st_size).
Proof.
  unfold http_send_body.
  remember (pool_ptr fiber) as o eqn:Hpool in |- *.
  symmetry in Hpool. destruct o as [pool|].
  - eapply always_bind.
    + apply always_for_chunks. intros offset.
      eapply always_bind; [by apply (always_await_fixed READ _ _ _ _ pool) |].
      intros _ _.
      eapply always_bind; [by apply (always_await_fixed WRITE _ _ _ _ pool) |].
      intros _ _. by constructor.
    + intros offset Hoff. simpl in Hoff.
      destruct (Z.ltb_spec offset st_size); [|by constructor].
      rewrite size_t_small by lia.
      eapply always_bind;
        [apply (always_await_fixed READ _ _ _ _ pool); [done | lia | done] |].
      intros _ _.
      eapply always_bind;
        [apply (always_await_fixed WRITE _ _ _ _ pool); [done | lia | done] |].
      intros _ _. by constructor.
  - eapply always_bind.
    + apply always_for_chunks. intros offset.
      eapply always_bind; [by apply (always_await_array READ) |]. intros _ _.
      eapply always_bind; [by apply (always_await_array WRITE) |].
      intros _ _. by constructor.
    + intros offset Hoff. simpl in Hoff.
      destruct (Z.ltb_spec offset st_size); [|by constructor].
      rewrite size_t_small by lia. cbn [iov_base to_iov_array].
      eapply always_bind;
        [apply (always_await_array READ); [done | lia | done] |]. intros _ _.
      eapply always_bind;
        [apply (always_await_array WRITE); [done | lia | done] |].
      intros _ _. by constructor.
Qed.

Lemma always_http_send_file filename :
  always P (λ _, True) (http_send_file fiber filename).
Proof.
  assert (Hnf : always P (λ _ : unit, True)
            (print (filename ++ lit ": file not found!" ++ LF);;;
             await_writev fiber (clientfd fiber) [to_iov_sv http_404_hdr] 0;;;
             Ret tt)).
  { eapply (always_bind _ (λ _, True)); [by repeat constructor |]. intros _ _.
    eapply always_bind; [by apply always_await_string |]. intros _ _.
    by constructor. }
  unfold http_send_file.
  eapply (always_bind _ (λ _, True)); [by repeat constructor |]. intros infd _.
  eapply (always_bind _ (λ _, True)).
  { destruct (infd <? 0); by repeat constructor. }
  intros [st|] _;
    (eapply (always_bind _ (λ _, True)); [|intros _ _; by repeat constructor]);
    [|exact Hnf].
  destruct (negb _); [exact Hnf |].
  eapply always_bind;
    [apply always_await_string, http_200_hdr_nonempty |]. intros _ _.
  apply always_http_send_body.
Qed.

Lemma always_serve : always P (λ _, True) (serve fiber).
Proof.
  unfold serve. eapply (always_bind _ (λ _, True)).
  - unfold serve_read. remember (pool_ptr fiber) as o eqn:Hpool in |- *.
    symmetry in Hpool. destruct o as [pool|].
    + eapply always_bind.
      { apply (always_await_fixed READ _ _ _ _ pool); [done | | done].
        unfold BUF_SIZE. lia. }
      intros res _. by repeat constructor.
    + eapply always_bind.
      { apply (always_await_array READ); [done | unfold BUF_SIZE; lia | done]. }
      intros res _. by repeat constructor.
  - intros buf_view _. unfold serve_parse, string_view.compare.
    eapply (always_bind _ (λ _, True)).
    { eapply (always_bind _ (λ _, True)); [|intros; by constructor].
      unfold string_view.substr. destruct (_ <? _); by constructor. }
    intros cmp _. destruct (cmp =? 0).
    + eapply (always_bind _ (λ _, True)).
      { unfold string_view.substr. destruct (_ <? _); by constructor. }
      intros file _.
      eapply (always_bind _ (λ _, True)); [by repeat constructor |].
      intros _ _. apply always_http_send_file.
    + eapply (always_bind _ (λ _, True)); [by repeat constructor |].
      intros _ _.
      eapply always_bind; [by apply always_await_string |]. intros _ _.
      by constructor.
Qed.
End entries.

Lemma always_impl {A : Type} (P P' : io_uring_sqe → Prop) (Q Q' : A → Prop) c :
  (∀ q, P q → P' q) → (∀ a, Q a → Q' a) → always P Q c → always P' Q' c.
Proof.
  intros HP HQ Hc.
  induction Hc as [a Ha|e|s k Hs Hk IH|path k Hk IH|fd k Hk IH|fd k Hk IH
                   |p k Hk IH|msg k Hk IH]; constructor; auto.
Qed.

(** Both properties of the entries of [serve] at once, for a fiber as
    [main] makes it. *)
Lemma serve_confined fiber :
  pool_start_ptr fiber = O →
  (∀ p, pool_ptr fiber = Some p → (p < POOL_SLOTS)%nat) →
  always (confined fiber) (λ _, True) (serve fiber).
Proof.
  intros Hstart Hp. apply always_serve.
  - intros op fd a n offset Ha Hn Hw. split; [|exact Hw].
    split_and!; [done.. |].
    constructor; [|constructor]. split; [simpl; lia | simpl; split; [done | lia]].
  - intros sv Hsv. split; [|done]. split_and!; [done.. |].
    constructor; [|constructor].
    split; [|done]. simpl. unfold string_view.size.
    destruct sv; [done | simpl; lia].
  - intros op fd pool n offset Hpool Hn Hw. split; [|exact Hw].
    split_and!; [done | | lia..].
    rewrite Hstart. specialize (Hp pool Hpool). unfold POOL_SLOTS in Hp.
    unfold uint16_t. change (2 ^ 16) with 65536.
    rewrite Z.sub_0_r. apply Z.mod_small. lia.
Qed.

(** X1: whatever [fstat] reports and whatever results the kernel returns,
    every entry [serve] submits stays inside the memory of its fiber: a
    fixed entry is on the fiber's own slot and asks for 1 to [BUF_SIZE]
    bytes, an entry on a stack array asks for 1 to [BUF_SIZE] bytes, and a
    write from a string covers exactly the string.  No buffer is
    overrun, and no entry has length zero. *)
Theorem serve_entries_in_bounds fiber :
  pool_start_ptr fiber = O →
  (∀ p, pool_ptr fiber = Some p → (p < POOL_SLOTS)%nat) →
  always (entry_in_bounds fiber) (λ _, True) (serve fiber).
Proof.
  intros Hstart Hp.
  apply (always_impl (confined fiber) _ (λ _, True));
    [by intros q [Hq _] | done | by apply serve_confined].
Qed.

Lemma serve_entries_in_bounds_witness :
  always (entry_in_bounds (example_fiber (Some 11%nat))) (λ _, True)
    (serve (example_fiber (Some 11%nat))).
Proof.
  apply serve_entries_in_bounds.
  - reflexivity.
  - intros p [= <-]. unfold POOL_SLOTS. lia.
Defined.

(** X2: on every path, every write [serve] submits is a write to the
    connection of its fiber, at offset 0: the server writes to no file and
    to no other connection. *)
Theorem serve_writes_only_to_client fiber :
  always (writes_to_client fiber) (λ _, True) (serve fiber).
Proof.
  apply always_serve.
  - intros op fd a n offset _ _ Hw. exact Hw.
  - intros sv _ _. done.
  - intros op fd pool n offset _ _ Hw. exact Hw.
Qed.

(** ** Results are tested, not used *)

Lemma sign_only_bind {A B : Type} (c : coro A) (f : A → coro B) :
  sign_only c → (∀ a, sign_only (f a)) → sign_only (bind c f).
Proof.
  intros Hc Hf.
  induction Hc as [a|e|s k Hk Hs IH|path k Hs IH|fd k Hs IH|fd k Hs IH
                   |p k Hs IH|msg k Hs IH]; simpl;
    try (constructor; auto; fail); [apply Hf |].
  constructor; [|done]. intros r r' Hr Hr'. by rewrite (Hk r r').
Qed.

(** An awaited call whose value is dropped. *)
Lemma sign_only_await_v {B : Type} op name fiber fd ioves offset
    (rest : coro B) :
  sign_only rest →
  sign_only (await_v op name fiber fd ioves offset;;; rest).
Proof.
  intros Hrest. unfold await_v. simpl. constructor.
  - intros r r' Hr Hr'.
    destruct (Z.leb_spec r 0); [lia |]. by destruct (Z.leb_spec r' 0); [lia |].
  - intros res. destruct (res <=? 0); [constructor | exact Hrest].
Qed.

Lemma sign_only_await_fixed {B : Type} op name fiber fd nbyte offset
    (rest : coro B) :
  sign_only rest →
  sign_only (await_fixed op name fiber fd nbyte offset;;; rest).
Proof.
  intros Hrest. unfold await_fixed. simpl. constructor.
  - intros r r' Hr Hr'.
    destruct (Z.leb_spec r 0); [lia |]. by destruct (Z.leb_spec r' 0); [lia |].
  - intros res. destruct (res <=? 0); [constructor | exact Hrest].
Qed.

Lemma sign_only_for_chunks body st_size :
  (∀ offset, sign_only (body offset)) →
  ∀ offset, sign_only (for_chunks body st_size offset).
Proof.
  intros Hbody offset.
  remember (Z.to_nat (st_size - offset)) as n eqn:Hn.
  revert offset Hn. induction (lt_wf n) as [n _ IH]. intros offset ->.
  rewrite for_chunks_eq.
  destruct (decide (BUF_SIZE < st_size - offset)) as [Hlt|_]; [|constructor].
  apply sign_only_bind; [apply Hbody |]. intros _.
  eapply IH; [|done]. unfold BUF_SIZE in *. lia.
Qed.

Lemma sign_only_http_send_body fiber infd st_size :
  sign_only (http_send_body fiber infd st_size).
Proof.
  unfold http_send_body. destruct (pool_ptr fiber).
  - apply sign_only_bind.
    + apply sign_only_for_chunks. intros offset.
      apply sign_only_await_fixed, sign_only_await_fixed. constructor.
    + intros offset. destruct (offset <? st_size); [|constructor].
      apply sign_only_await_fixed, sign_only_await_fixed. constructor.
  - apply sign_only_bind.
    + apply sign_only_for_chunks. intros offset.
      apply sign_only_await_v, sign_only_await_v. constructor.
    + intros offset. destruct (offset <? st_size); [|constructor].
      apply sign_only_await_v, sign_only_await_v. constructor.
Qed.

Lemma sign_only_http_send_file fiber filename :
  sign_only (http_send_file fiber filename).
Proof.
  assert (Hnf : sign_only
            (print (filename ++ lit ": file not found!" ++ LF);;;
             await_writev fiber (clientfd fiber) [to_iov_sv http_404_hdr] 0;;;
             Ret tt)).
  { apply sign_only_bind; [repeat constructor |]. intros _.
    apply sign_only_await_v. constructor. }
  unfold http_send_file.
  apply sign_only_bind; [repeat constructor |]. intros infd.
  apply sign_only_bind.
  { destruct (infd <? 0); repeat constructor. }
  intros [st|]; (apply sign_only_bind; [|intros _; repeat constructor]);
    [|exact Hnf].
  destruct (negb _); [exact Hnf |].
  apply sign_only_await_v, sign_only_http_send_body.
Qed.

(** X3: after the first read, [serve] uses the result of an awaited call
    only to test its sign.  From line 160 on, resumed with any two positive
    results the rest of the body is the same: the number of bytes a read or
    a write has moved is never looked at, so a transfer that completes
    short is neither noticed nor continued. *)
Theorem byte_counts_are_ignored fiber buf_view :
  sign_only (serve_parse fiber buf_view) ∧
  ∀ filename, sign_only (http_send_file fiber filename).
Proof.
  split; [|apply sign_only_http_send_file].
  unfold serve_parse, string_view.compare.
  apply sign_only_bind.
  { apply sign_only_bind; [|constructor].
    unfold string_view.substr. destruct (_ <? _); constructor. }
  intros cmp. destruct (cmp =? 0).
  - apply sign_only_bind.
    { unfold string_view.substr. destruct (_ <? _); constructor. }
    intros file. apply sign_only_bind; [repeat constructor |]. intros _.
    apply sign_only_http_send_file.
  - apply sign_only_bind; [repeat constructor |]. intros _.
    apply sign_only_await_v. constructor.
Qed.

(** ** A connection in any state of the loop *)

(** The iteration that accepts a connection, in a state the loop can
    reach: the body starts on a machine in which the new descriptor is the
    connection, and the slot it was given is a slot of [buffers]. *)
Lemma accept_connected fs0 fdtab0 s rx addr uninit :
  reachable (main_init fs0 fdtab0) s →
  fibers s !! addr = None →
  ∃ fiber m1,
    step (accept_ok rx addr uninit) s =
      Some (next addr fiber (serve fiber)
              {| mach := m1;
                 available_buffers := (acquire (available_buffers s)).2;
                 fibers := fibers s |}) ∧
    pool_ptr fiber = (acquire (available_buffers s)).1 ∧
    clientfd fiber = (sys_accept rx (mach s)).1 ∧
    locals m1 = uninit ∧
    connected fiber m1 rx [] ∧
    fs m1 = fs (mach s) ∧
    fd_lookup (fdtab (mach s)) (clientfd fiber) = None ∧
    ∀ fd, fd ≠ clientfd fiber →
          fd_lookup (fdtab m1) fd = fd_lookup (fdtab (mach s)) fd.
Proof.
  intros Hreach Hfresh.
  pose proof (reachable_buffers _ _ _ Hreach) as Hbuf.
  destruct (partition_reachable _ _ _ Hreach) as (Hslots & _ & _).
  unfold step. rewrite decide_False by (by apply not_elem_of_dom).
  unfold sys_accept.
  destruct (fd_alloc (fdtab (mach s)) (Socket rx [])) as [newfd t] eqn:Ealloc.
  destruct (fd_alloc_spec _ _ _ _ Ealloc) as (Hnew & Hsock & Hoth).
  destruct (acquire (available_buffers s)) as [pool available] eqn:Eacq.
  eexists _, _. split; [reflexivity |]. cbn [pool_ptr clientfd fst snd].
  split_and!; try done.
  split; [done |]. split_and!; [done.. |].
  cbn [pool_ptr]. intros p ->.
  destruct (acquire_spec (available_buffers s)) as [[_ Ha]|(_ & Hin & Ha)];
    rewrite Ha in Eacq; [done |]. injection Eacq as <- _.
  apply Hslots. by left.
Qed.

(** ** Release, then acquire *)

Lemma begin_least (s : gset nat) x :
  x ∈ s → (∀ y, y ∈ s → (x ≤ y)%nat) → begin s = x.
Proof.
  intros Hx Hle. apply Nat.le_antisymm; [by apply begin_le |].
  apply Hle, begin_elem. set_solver.
Qed.

Lemma begin_insert (s : gset nat) p :
  begin ({[p]} ∪ s) =
    if decide (s = ∅) then p else Nat.min p (begin s).
Proof.
  apply begin_least.
  - destruct (decide (s = ∅)) as [->|Hne]; [set_solver |].
    pose proof (begin_elem s Hne).
    destruct (Nat.min_spec p (begin s)) as [[_ ->]|[_ ->]]; set_solver.
  - intros y [->%elem_of_singleton|Hy]%elem_of_union;
      destruct (decide (s = ∅)) as [->|Hne]; try lia; [set_solver |].
    pose proof (begin_le s y Hy). lia.
Qed.

(** X5: a slot that is given back can be leased again at once, and which
    slot the next connection gets is determined.  When the completion of a
    fiber that holds slot [p] ends that fiber, [cleanFiber] has put [p]
    into the free set; the connection accepted next gets [p] if the free
    set was empty or [p] is below all of it, and the least free slot
    otherwise; after that the free set is what it was, or has [p] in place
    of its least element. *)
Theorem released_slot_is_reused s addr p res s' rx addr' uninit :
  leased_to s p addr →
  step (cqe_ready addr res) s = Some (Running s') →
  fibers s' !! addr = None →
  fibers s' !! addr' = None →
  let next_slot :=
    if decide (available_buffers s = ∅) then p
    else Nat.min p (begin (available_buffers s)) in
  ∃ s'' f',
    step (accept_ok rx addr' uninit) s' = Some (Running s'') ∧
    fibers s'' !! addr' = Some f' ∧
    pool_ptr (localData f') = Some next_slot ∧
    available_buffers s'' = ({[p]} ∪ available_buffers s) ∖ {[next_slot]} ∧
    (available_buffers s = ∅ → available_buffers s'' = ∅).
Proof.
  intros (f & Hf & Hp) Hstep Hgone Hfresh next_slot.
  unfold step in Hstep. rewrite Hf in Hstep. apply (inj Some) in Hstep.
  apply next_running in Hstep as [(g & _ & Hg & _)|[_ Hav]].
  { rewrite Hg, lookup_insert_eq in Hgone. done. }
  rewrite Hp in Hav. cbn [available_buffers] in Hav.
  destruct (step_accept s' rx addr' uninit Hfresh)
    as (s'' & f' & Hstep' & Hf' & Hld & Hav' & _).
  assert (Hacq : acquire (available_buffers s') =
            (Some next_slot, ({[p]} ∪ available_buffers s) ∖ {[next_slot]})).
  { destruct (acquire_spec (available_buffers s')) as [[He _]|(_ & _ & ->)].
    - rewrite Hav in He. set_solver.
    - by rewrite Hav, begin_insert. }
  rewrite Hacq in Hld, Hav'. cbn [fst snd] in Hld, Hav'.
  exists s'', f'. split_and!; [done | | by rewrite Hld | done |].
  - rewrite Hf'. apply lookup_insert_eq.
  - intros He. rewrite Hav'. unfold next_slot.
    rewrite decide_True by done. rewrite He. set_solver.
Qed.

Lemma released_slot_is_reused_witness :
  ∃ s' s'' f',
    step (cqe_ready 1%positive 47) example_answering = Some (Running s') ∧
    step (accept_ok (lit "GET /a HTTP/1.1") 1%positive (λ _, [])) s'
      = Some (Running s'') ∧
    fibers s'' !! 1%positive = Some f' ∧
    pool_ptr (localData f') = Some 0%nat.
Proof.
  destruct (step (cqe_ready 1%positive 47) example_answering)
    as [[s'|]|] eqn:Hstep; [|discriminate Hstep..].
  assert (Hgone : fibers s' !! 1%positive = None).
  { assert (Hs : Some (Running s') = Some (Running s')) by reflexivity.
    rewrite <- Hstep in Hs at 1. vm_compute in Hs.
    injection Hs as <-. reflexivity. }
  destruct (released_slot_is_reused example_answering 1%positive 0%nat 47 s'
              (lit "GET /a HTTP/1.1") 1%positive (λ _, []))
    as (s'' & f' & Hstep' & Hf' & Hp' & _).
  - eexists. split; reflexivity.
  - exact Hstep.
  - exact Hgone.
  - exact Hgone.
  - exists s', s'', f'. split; [reflexivity |]. split; [exact Hstep' |].
    split; [exact Hf' |]. rewrite Hp'. reflexivity.
Defined.

(** ** A file of any size *)

Lemma submitted_cycles fiber infd st_size count :
  Z.of_nat count * BUF_SIZE < st_size →
  submitted (cycles fiber infd 0 count) =
    flat_map (chunk_entries fiber infd st_size) (seq 0 count).
Proof.
  induction count as [|count IH]; intros Hlt; [done |].
  rewrite cycles_snoc, submitted_app, seq_S, flat_map_app.
  rewrite IH by (unfold BUF_SIZE in *; lia).
  f_equal. simpl. unfold chunk_entries, chunk_len.
  rewrite Z.min_l by (unfold BUF_SIZE in *; lia).
  do 2 f_equal. lia.
Qed.

Lemma submitted_body_calls fiber infd st_size :
  0 ≤ st_size →
  submitted (body_calls fiber infd st_size) =
    flat_map (chunk_entries fiber infd st_size) (seq 0 (chunk_count st_size)).
Proof.
  intros Hsize. unfold body_calls, chunk_count.
  destruct (Z.leb_spec st_size 0) as [Hle|Hpos].
  { replace st_size with 0 by lia. done. }
  set (full := (st_size - 1) / BUF_SIZE).
  assert (Hfull : full * BUF_SIZE < st_size ≤ full * BUF_SIZE + BUF_SIZE).
  { unfold full, BUF_SIZE.
    pose proof (Z.div_mod (st_size - 1) 1024 ltac:(lia)).
    pose proof (Z.mod_pos_bound (st_size - 1) 1024 ltac:(lia)). lia. }
  assert (Hcount : (st_size + BUF_SIZE - 1) / BUF_SIZE = full + 1).
  { unfold full, BUF_SIZE.
    replace (st_size + 1024 - 1) with (st_size - 1 + 1 * 1024) by lia.
    by rewrite Z.div_add. }
  assert (H0 : 0 ≤ full) by (apply Z.div_pos; unfold BUF_SIZE; lia).
  rewrite Hcount. replace (Z.to_nat (full + 1)) with (S (Z.to_nat full)) by lia.
  rewrite submitted_app, seq_S, flat_map_app.
  rewrite (submitted_cycles _ _ st_size) by lia.
  f_equal. simpl. unfold chunk_entries, chunk_len.
  rewrite Z2Nat.id, Z.min_r by lia. done.
Qed.

(** X6: how [http_send_file] cuts a file of any size.  For a regular
    file of [n] bytes it submits the header and then, for each of the
    [ceil (n / BUF_SIZE)] chunks in turn, a read at offset
    [i * BUF_SIZE] and a write, both of [min BUF_SIZE (n - i * BUF_SIZE)]
    bytes: every chunk is full but the last, which has the rest, and
    nothing else is submitted. *)
Theorem file_is_cut_in_chunks fiber filename m rx tx ino :
  connected fiber m rx tx →
  fs m (c_str filename) = Some ino →
  S_ISREG (i_mode ino) = true →
  let n := string_view.size (i_data ino) in
  ∃ cs m',
    exec (http_send_file fiber filename) m = Run cs m' (inr tt) ∧
    ∃ infd,
      opened cs = [filename] ∧
      submitted cs =
        prep_v WRITE (clientfd fiber) [to_iov_sv (http_200_hdr n)] 1 0 ::
        flat_map (chunk_entries fiber infd n) (seq 0 (chunk_count n)) ∧
      length (submitted cs) = (1 + 2 * chunk_count n)%nat ∧
      ∀ i, (i < chunk_count n)%nat →
           0 < chunk_len n i ≤ BUF_SIZE ∧
           (chunk_len n i < BUF_SIZE → S i = chunk_count n).
Proof.
  intros Hconn Hfs Hreg n.
  destruct (exec_http_send_file_200 fiber filename m rx tx Hconn ino Hfs Hreg)
    as (infd & m' & Hex & _).
  eexists _, m'. split; [exact Hex |]. exists infd. fold n.
  assert (Hn : 0 ≤ n) by (unfold n, string_view.size; lia).
  assert (Hsub : submitted
            ([call_open filename infd; call_fstat infd;
              io_uring_submit
                (prep_v WRITE (clientfd fiber) [to_iov_sv (http_200_hdr n)] 1 0)
                (string_view.size (http_200_hdr n))] ++
             body_calls fiber infd n ++ [call_close infd]) =
          prep_v WRITE (clientfd fiber) [to_iov_sv (http_200_hdr n)] 1 0 ::
          flat_map (chunk_entries fiber infd n) (seq 0 (chunk_count n))).
  { simpl. by rewrite submitted_app, app_nil_r, submitted_body_calls. }
  split_and!.
  - simpl. by rewrite opened_app, opened_body_calls.
  - exact Hsub.
  - rewrite Hsub. simpl. f_equal.
    assert (Hl : ∀ l, length (flat_map (chunk_entries fiber infd n) l) =
                      (2 * length l)%nat).
    { induction l as [|i l IH]; [done |]. simpl in *. rewrite IH. lia. }
    by rewrite Hl, length_seq.
  - intros i Hi. unfold chunk_len, chunk_count, BUF_SIZE in *.
    pose proof (Z.div_mod (n + 1024 - 1) 1024 ltac:(lia)).
    pose proof (Z.mod_pos_bound (n + 1024 - 1) 1024 ltac:(lia)).
    split; lia.
Qed.

Lemma file_is_cut_in_chunks_witness :
  let fiber := example_fiber None in
  ∃ cs m' infd,
    exec (http_send_file fiber (lit "/a")) (example_machine (lit "GET /a"))
      = Run cs m' (inr tt) ∧
    submitted cs =
      [prep_v WRITE 5 [to_iov_sv (http_200_hdr 5)] 1 0;
       read_sqe fiber infd 0 5; write_sqe fiber 5].
Proof.
  intros fiber.
  destruct (file_is_cut_in_chunks fiber (lit "/a")
              (example_machine (lit "GET /a")) (lit "GET /a") []
              (example_file (lit "hello")))
    as (cs & m' & Hex & infd & _ & Hsub & _).
  - apply example_connected. intros p [=].
  - reflexivity.
  - reflexivity.
  - exists cs, m', infd. split; [exact Hex |]. rewrite Hsub. reflexivity.
Defined.

(** ** Fibers side by side *)

Lemma advance_always P (c : coro unit) m :
  always P (λ _, True) c →
  match advance c m with
  | Suspended _ q k => P q ∧ ∀ res, always P (λ _, True) (k res)
  | _ => True
  end.
Proof.
  intros Hc. revert m.
  induction Hc as [a Ha|e|s k Hs Hk IH|path k Hk IH|fd k Hk IH|fd k Hk IH
                   |p k Hk IH|msg k Hk IH]; intros m; simpl;
    try apply IH; auto.
  destruct (sys_open path m). apply IH.
Qed.

Lemma next_confined addr fiber body s s' :
  always (confined fiber) (λ _, True) body →
  next addr fiber body s = Running s' →
  (∀ a f, fibers s !! a = Some f → fiber_confined f) →
  ∀ a f, fibers s' !! a = Some f → fiber_confined f.
Proof.
  intros Hbody Hnext Hinv a f. unfold next in Hnext.
  pose proof (advance_always _ body (mach s) Hbody) as Hadv.
  destruct (advance body (mach s)) as [m q k|m []|m e]; [| |done];
    injection Hnext as <-; simpl.
  - destruct (decide (a = addr)) as [->|Hne].
    + rewrite lookup_insert_eq. by intros [= <-].
    + rewrite lookup_insert_ne by done. apply Hinv.
  - destruct (decide (a = addr)) as [->|Hne].
    + by rewrite lookup_delete_eq.
    + rewrite lookup_delete_ne by done. apply Hinv.
Qed.

Lemma reachable_confined fs fdtab s :
  reachable (main_init fs fdtab) s →
  ∀ a f, fibers s !! a = Some f → fiber_confined f.
Proof.
  induction 1 as [|s i s' Hreach IH Hstep].
  - intros a f Hf. simpl in Hf. by rewrite lookup_empty in Hf.
  - destruct i as [rx addr uninit|addr res| |]; unfold step in Hstep.
    + destruct (decide _); [done |].
      destruct (sys_accept rx (mach s)) as [newfd m].
      destruct (acquire (available_buffers s)) as [pool available] eqn:Eacq.
      apply (inj Some) in Hstep.
      eapply next_confined; [|exact Hstep | exact IH].
      apply serve_confined; [done |]. cbn [pool_ptr]. intros p ->.
      destruct (partition_reachable _ _ _ Hreach) as (Hslots & _ & _).
      destruct (acquire_spec (available_buffers s)) as [[_ Ha]|(_ & Hin & Ha)];
        rewrite Ha in Eacq; [done |]. injection Eacq as <- _.
      apply Hslots. by left.
    + destruct (fibers s !! addr) as [f|] eqn:Ef; [|done].
      apply (inj Some) in Hstep.
      eapply next_confined; [apply (IH _ _ Ef) | exact Hstep | exact IH].
    + by injection Hstep as <-.
    + done.
Qed.

(** X7: in every state the loop can reach, a pool slot has one user.  An
    entry in flight that names a slot is a fixed entry of the fiber the
    slot is leased to, for 1 to [BUF_SIZE] bytes, with the slot's index as
    [buf_index]; no entry of another fiber names that slot, and no
    vectored entry points into the pool at all. *)
Theorem pool_slot_has_one_user fs fdtab s a f i :
  reachable (main_init fs fdtab) s →
  fibers s !! a = Some f →
  i ∈ slots_of (pending f) →
  leased_to s i a ∧ (i < POOL_SLOTS)%nat ∧
  (∃ op fd nbytes offset,
     pending f = prep_fixed op fd i nbytes offset (Z.of_nat i) ∧
     0 < nbytes ≤ BUF_SIZE) ∧
  ∀ b g, fibers s !! b = Some g → i ∈ slots_of (pending g) → b = a.
Proof.
  intros Hreach Hf Hi.
  destruct (partition_reachable _ _ _ Hreach) as (Hslots & _ & Hone).
  assert (Huser : ∀ b g, fibers s !! b = Some g → i ∈ slots_of (pending g) →
            leased_to s i b ∧
            ∃ op fd nbytes offset,
              pending g = prep_fixed op fd i nbytes offset (Z.of_nat i) ∧
              0 < nbytes ≤ BUF_SIZE).
  { intros b g Hg Hig.
    destruct (reachable_confined _ _ _ Hreach _ _ Hg) as [[Hb _] _].
    destruct (pending g) as [op fd ioves nr off|op fd buf n off idx];
      simpl in Hb, Hig.
    - destruct Hb as (_ & _ & Hall).
      apply list_elem_of_omap in Hig as (v & Hv & Hbase).
      rewrite Forall_forall in Hall. destruct (Hall v Hv) as [_ Hrange].
      by destruct (iov_base v).
    - apply list_elem_of_singleton in Hig as ->.
      destruct Hb as (Hpool & -> & Hn).
      split; [by exists g |]. by exists op, fd, n, off. }
  destruct (Huser a f Hf Hi) as [Hlease Hshape].
  split_and!; [done | | done |].
  - apply Hslots. right. by exists a.
  - intros b g Hg Hig. destruct (Huser b g Hg Hig) as [Hlease' _].
    by apply (Hone i).
Qed.

Lemma pool_slot_has_one_user_witness :
  let s := example_accepted (lit "GET /a HTTP/1.1") in
  ∃ f, fibers s !! 1%positive = Some f ∧ leased_to s 0 1%positive ∧
       ∀ b g, fibers s !! b = Some g → 0%nat ∈ slots_of (pending g) →
              b = 1%positive.
Proof.
  intros s.
  assert (H : ∃ f, fibers s !! 1%positive = Some f ∧
                   0%nat ∈ slots_of (pending f)).
  { eexists. split; [reflexivity |]. left. }
  destruct H as (f & Hf & Hi). exists f. split; [exact Hf |].
  destruct (pool_slot_has_one_user example_fs _ s 1%positive f 0%nat
              (example_accepted_reachable _) Hf Hi) as (Hl & _ & _ & Hone).
  split; [exact Hl | exact Hone].
Defined.

(** ** Descriptors *)

Lemma closes_bind {A B : Type} (Q : A → gset Z → Prop)
    (R : B → gset Z → Prop) F c f :
  closes Q F c → (∀ a F', Q a F' → closes R F' (f a)) →
  closes R F (bind c f).
Proof.
  intros Hc Hf.
  induction Hc as [F a Ha|F e|F s k Hk IH|F path k Hk IH|F fd k Hk IH
                   |F fd k Hfd Hk IH|F p k Hk IH|F msg k Hk IH]; simpl;
    try (constructor; auto; fail).
  by apply Hf.
Qed.

Lemma neutral_bind {A B : Type} (c : coro A) (f : A → coro B) :
  neutral c → (∀ a, neutral (f a)) → neutral (bind c f).
Proof.
  intros Hc Hf F. eapply closes_bind; [apply Hc |].
  intros a F' ->. apply Hf.
Qed.

Lemma neutral_Ret {A : Type} (a : A) : neutral (Ret a).
Proof. intros F. by constructor. Qed.

Lemma neutral_Throw {A : Type} e : neutral (Throw e : coro A).
Proof. intros F. constructor. Qed.

Lemma neutral_print msg : neutral (print msg).
Proof. intros F. by repeat constructor. Qed.

Lemma neutral_await_v op name fiber fd ioves offset :
  neutral (await_v op name fiber fd ioves offset).
Proof.
  intros F. constructor. intros res. destruct (res <=? 0); by constructor.
Qed.

Lemma neutral_await_fixed op name fiber fd nbyte offset :
  neutral (await_fixed op name fiber fd nbyte offset).
Proof.
  intros F. constructor. intros res. destruct (res <=? 0); by constructor.
Qed.

Lemma neutral_for_chunks body st_size :
  (∀ offset, neutral (body offset)) →
  ∀ offset, neutral (for_chunks body st_size offset).
Proof.
  intros Hbody offset.
  remember (Z.to_nat (st_size - offset)) as n eqn:Hn.
  revert offset Hn. induction (lt_wf n) as [n _ IH]. intros offset ->.
  rewrite for_chunks_eq.
  destruct (decide (BUF_SIZE < st_size - offset)) as [Hlt|_];
    [|apply neutral_Ret].
  apply neutral_bind; [apply Hbody |]. intros _.
  eapply IH; [|done]. unfold BUF_SIZE in *. lia.
Qed.

Lemma neutral_http_send_body fiber infd st_size :
  neutral (http_send_body fiber infd st_size).
Proof.
  unfold http_send_body. destruct (pool_ptr fiber).
  - apply neutral_bind.
    + apply neutral_for_chunks. intros offset.
      repeat (apply neutral_bind; [apply neutral_await_fixed | intros _]).
      apply neutral_Ret.
    + intros offset. destruct (offset <? st_size); [|apply neutral_Ret].
      repeat (apply neutral_bind; [apply neutral_await_fixed | intros _]).
      apply neutral_Ret.
  - apply neutral_bind.
    + apply neutral_for_chunks. intros offset.
      repeat (apply neutral_bind; [apply neutral_await_v | intros _]).
      apply neutral_Ret.
    + intros offset. destruct (offset <? st_size); [|apply neutral_Ret].
      repeat (apply neutral_bind; [apply neutral_await_v | intros _]).
      apply neutral_Ret.
Qed.

Lemma balanced_http_send_file fiber filename :
  balanced (http_send_file fiber filename).
Proof.
  assert (Hnf : neutral
            (print (filename ++ lit ": file not found!" ++ LF);;;
             await_writev fiber (clientfd fiber) [to_iov_sv http_404_hdr] 0;;;
             Ret tt)).
  { apply neutral_bind; [apply neutral_print |]. intros _.
    apply neutral_bind; [apply neutral_await_v |]. intros _.
    apply neutral_Ret. }
  unfold balanced, http_send_file.
  eapply (closes_bind (λ infd F', F' = {[infd]} ∪ ∅)).
  { constructor. intros fd. by constructor. }
  intros infd F' ->.
  eapply (closes_bind (λ _ F', F' = {[infd]} ∪ ∅)).
  { destruct (infd <? 0); [by constructor |]. by repeat constructor. }
  intros st F' ->.
  eapply (closes_bind (λ _ F', F' = {[infd]} ∪ ∅)).
  - destruct st as [st|]; [|apply Hnf].
    destruct (negb _); [apply Hnf |].
    apply neutral_bind; [apply neutral_await_v |]. intros _.
    apply neutral_http_send_body.
  - intros _ F' ->. constructor; [set_solver |]. constructor. set_solver.
Qed.

Lemma balanced_serve fiber : balanced (serve fiber).
Proof.
  unfold balanced, serve.
  eapply (closes_bind (λ _ F', F' = ∅)).
  - unfold serve_read. destruct (pool_ptr fiber).
    + apply neutral_bind; [apply neutral_await_fixed |]. intros res.
      intros F. by repeat constructor.
    + apply neutral_bind; [apply neutral_await_v |]. intros res.
      intros F. by repeat constructor.
  - intros buf_view F' ->. unfold serve_parse, string_view.compare.
    eapply (closes_bind (λ _ F', F' = ∅)).
    { apply neutral_bind; [|intros; apply neutral_Ret].
      unfold string_view.substr.
      destruct (_ <? _); [apply neutral_Throw | apply neutral_Ret]. }
    intros cmp F' ->. destruct (cmp =? 0).
    + eapply (closes_bind (λ _ F', F' = ∅)).
      { unfold string_view.substr.
        destruct (_ <? _); [apply neutral_Throw | apply neutral_Ret]. }
      intros file F' ->.
      eapply (closes_bind (λ _ F', F' = ∅)); [apply neutral_print |].
      intros _ F' ->. apply balanced_http_send_file.
    + apply neutral_bind; [apply neutral_print |]. intros _.
      apply neutral_bind; [apply neutral_await_v |]. intros _.
      apply neutral_Ret.
Qed.

(** A descriptor a body holds is not a connection. *)
Lemma owned_not_socket m F x : owned_ok m F → is_socket m x → x ∉ F.
Proof.
  intros Hown (rx & tx & Hx) Hin. destruct (Hown x Hin) as [Hneg|[ino Hino]].
  - apply fd_lookup_Some in Hx. lia.
  - congruence.
Qed.

Lemma kept_refl F m : kept F F m m.
Proof. by intros x Hx _. Qed.

(** One run of a body, up to its suspension or its end: it keeps holding
    open files only, and every open descriptor it did not hold is as it
    was. *)
Lemma advance_closes {A : Type} (Q : A → gset Z → Prop) F (c : coro A) m :
  closes Q F c → owned_ok m F →
  match advance c m with
  | Suspended m' _ k =>
      ∃ F', owned_ok m' F' ∧ kept F F' m m' ∧ ∀ res, closes Q F' (k res)
  | Finished m' a => ∃ F', owned_ok m' F' ∧ kept F F' m m' ∧ Q a F'
  | Raised _ _ => True
  end.
Proof.
  intros Hc. revert m.
  induction Hc as [F a Ha|F e|F s k Hk IH|F path k Hk IH|F fd k Hk IH
                   |F fd k Hfd Hk IH|F p k Hk IH|F msg k Hk IH];
    intros m Hown; simpl; try (by apply IH).
  - exists F. split_and!; [done | apply kept_refl | done].
  - done.
  - exists F. split_and!; [done | apply kept_refl | done].
  - (* open *)
    destruct (fs m (c_str path)) as [ino|] eqn:Efs.
    + destruct (sys_open_found path m ino Efs)
        as (infd & m1 & -> & Hpos & Hfree & Hfile & Hoth & _).
      assert (Hown1 : owned_ok m1 ({[infd]} ∪ F)).
      { intros x [->%elem_of_singleton|Hx]%elem_of_union; [right; eauto |].
        destruct (Hown x Hx) as [?|[ino' Hx']]; [by left |]. right.
        exists ino'. rewrite Hoth; [done | congruence]. }
      specialize (IH infd m1 Hown1).
      assert (Hkept : ∀ F' m', kept ({[infd]} ∪ F) F' m1 m' → kept F F' m m').
      { intros F' m' Hk1 x Hx Hopen.
        assert (x ≠ infd) by (intros ->; rewrite Hfree in Hopen;
                              by destruct Hopen).
        destruct (Hk1 x) as [Hl Hout]; [set_solver | by rewrite Hoth |].
        split; [by rewrite Hl, Hoth | done]. }
      destruct (advance (k infd) m1) as [m' q k'|m' a|m' e]; [| |done];
        destruct IH as (F' & ? & ? & ?); exists F'; split_and!; auto.
    + unfold sys_open. rewrite Efs.
      assert (Hown1 : owned_ok m ({[-1]} ∪ F)).
      { intros x [->%elem_of_singleton|Hx]%elem_of_union; [left; lia |].
        by apply Hown. }
      specialize (IH (-1) m Hown1).
      assert (Hkept : ∀ F' m', kept ({[-1]} ∪ F) F' m m' → kept F F' m m').
      { intros F' m' Hk1 x Hx Hopen. apply Hk1; [|done].
        assert (x ≠ -1); [|set_solver].
        intros ->. by destruct Hopen. }
      destruct (advance (k (-1)) m) as [m' q k'|m' a|m' e]; [| |done];
        destruct IH as (F' & ? & ? & ?); exists F'; split_and!; auto.
  - (* close *)
    assert (Hlook : ∀ x, x ≠ fd →
              fd_lookup (fdtab (sys_close fd m)) x = fd_lookup (fdtab m) x).
    { intros x Hx. unfold sys_close.
      destruct (fd_lookup (fdtab m) fd) eqn:E; [|done].
      simpl. by apply fd_lookup_set_ne. }
    assert (Hown1 : owned_ok (sys_close fd m) (F ∖ {[fd]})).
    { intros x [Hx Hne%not_elem_of_singleton]%elem_of_difference.
      rewrite Hlook by done. by apply Hown. }
    specialize (IH (sys_close fd m) Hown1).
    assert (Hkept : ∀ F' m',
              kept (F ∖ {[fd]}) F' (sys_close fd m) m' → kept F F' m m').
    { intros F' m' Hk1 x Hx Hopen.
      assert (x ≠ fd) by (by intros ->).
      destruct (Hk1 x) as [Hl Hout]; [set_solver | by rewrite Hlook |].
      split; [by rewrite Hl, Hlook | done]. }
    destruct (advance k (sys_close fd m)) as [m' q k'|m' a|m' e]; [| |done];
      destruct IH as (F' & ? & ? & ?); exists F'; split_and!; auto.
Qed.

Lemma sys_close_lookup_ne fd m x :
  x ≠ fd → fd_lookup (fdtab (sys_close fd m)) x = fd_lookup (fdtab m) x.
Proof.
  intros Hx. unfold sys_close.
  destruct (fd_lookup (fdtab m) fd) eqn:E; [|done].
  simpl. by apply fd_lookup_set_ne.
Qed.

Lemma scatter_fdtab ioves : ∀ d m, fdtab (scatter ioves d m) = fdtab m.
Proof.
  induction ioves as [|v vs IH]; intros d m; [done |].
  simpl. rewrite IH. apply mem_store_kernel.
Qed.

(** A completion changes no file, and leaves a connection a connection. *)
Lemma complete_keeps q res m x :
  (is_socket m x → is_socket (complete q res m) x) ∧
  (∀ ino, fd_lookup (fdtab m) x = Some (File ino) →
          fd_lookup (fdtab (complete q res m)) x = Some (File ino)).
Proof.
  unfold complete.
  destruct (sqe_ranges q m) as [ioves|]; [|done].
  destruct (fd_lookup (fdtab m) (sqe_fd q)) as [f|] eqn:Efd; [|done].
  destruct (res <=? 0); [done |].
  assert (Hsame : ∀ m', fdtab m' = fdtab m →
            (is_socket m x → is_socket m' x) ∧
            (∀ ino, fd_lookup (fdtab m) x = Some (File ino) →
                    fd_lookup (fdtab m') x = Some (File ino))).
  { intros m' Hm'. unfold is_socket. by rewrite Hm'. }
  assert (Hset : ∀ m' rx tx rx' tx',
            f = Socket rx tx →
            fdtab m' = fd_set (fdtab m) (sqe_fd q) (Some (Socket rx' tx')) →
            (is_socket m x → is_socket m' x) ∧
            (∀ ino, fd_lookup (fdtab m) x = Some (File ino) →
                    fd_lookup (fdtab m') x = Some (File ino))).
  { intros m' rx tx rx' tx' -> Hm'. unfold is_socket. rewrite Hm'.
    destruct (decide (x = sqe_fd q)) as [->|Hne].
    - split; [|intros ino; congruence].
      intros _. exists rx', tx'. by eapply fd_lookup_set_eq.
    - rewrite fd_lookup_set_ne by done. done. }
  destruct (sqe_op q), f as [ino'|rx tx|];
    first [ by apply Hsame; rewrite ?scatter_fdtab
          | by eapply Hset; [reflexivity | rewrite ?scatter_fdtab] ].
Qed.

(** The step of one fiber, for the others. *)
Lemma next_apart own addr fiber body s s' F :
  next addr fiber body s = Running s' →
  closes (λ _ F, F = ∅) F body →
  owned_ok (mach s) F →
  is_socket (mach s) (clientfd fiber) →
  (∀ a f, a ≠ addr → fibers s !! a = Some f →
     is_socket (mach s) (clientfd (localData f)) ∧
     owned_ok (mach s) (own a) ∧
     (∀ res, closes (λ _ F, F = ∅) (own a) (continuation f res)) ∧
     clientfd (localData f) ≠ clientfd fiber ∧
     ∀ x, 0 ≤ x → x ∈ own a → x ∉ F) →
  (∀ a b f g, a ≠ addr → b ≠ addr →
     fibers s !! a = Some f → fibers s !! b = Some g → a ≠ b →
     clientfd (localData f) ≠ clientfd (localData g) ∧
     ∀ x, 0 ≤ x → x ∈ own a → x ∉ own b) →
  ∃ own', apart own' s'.
Proof.
  intros Hnext Hbody HF Hsock Hothers Hpair.
  assert (Hmove : ∀ m' F', kept F F' (mach s) m' →
            is_socket m' (clientfd fiber) ∧
            ∀ a f, a ≠ addr → fibers s !! a = Some f →
              is_socket m' (clientfd (localData f)) ∧
              owned_ok m' (own a) ∧
              ∀ x, 0 ≤ x → x ∈ own a → x ∉ F').
  { intros m' F' Hkept.
    assert (Hsame : ∀ x, is_socket (mach s) x → is_socket m' x).
    { intros x Hx. pose proof Hx as (rx & tx & Hl).
      destruct (Hkept x) as [Hl' _];
        [by eapply owned_not_socket | by rewrite Hl |].
      exists rx, tx. by rewrite Hl'. }
    split; [by apply Hsame |].
    intros a f Ha Hf. destruct (Hothers a f Ha Hf) as (Hs & Hown & _ & _ & Hdis).
    assert (Hfile : ∀ x, 0 ≤ x → x ∈ own a →
              ∃ ino, fd_lookup (fdtab (mach s)) x = Some (File ino) ∧
                     fd_lookup (fdtab m') x = Some (File ino) ∧ x ∉ F').
    { intros x Hx Hin. destruct (Hown x Hin) as [?|[ino Hino]]; [lia |].
      destruct (Hkept x) as [Hl Hout]; [by apply Hdis | by rewrite Hino |].
      exists ino. by rewrite Hl. }
    split_and!; [by apply Hsame | |].
    - intros x Hin. destruct (Z.lt_ge_cases x 0) as [?|Hx]; [by left |].
      destruct (Hfile x Hx Hin) as (ino & _ & ? & _). right. by exists ino.
    - intros x Hx Hin. by destruct (Hfile x Hx Hin) as (ino & _ & _ & ?). }
  unfold next in Hnext.
  pose proof (advance_closes _ F body (mach s) Hbody HF) as Hadv.
  destruct (advance body (mach s)) as [m' q k|m' []|m' e]; [| |done];
    destruct Hadv as (F' & HF' & Hkept & Hk); injection Hnext as <-;
    destruct (Hmove m' F' Hkept) as [Hsock' Hoth'].
  - (* suspended *)
    exists (λ a, if decide (a = addr) then F' else own a).
    split; cbn [mach fibers].
    + intros a f. destruct (decide (a = addr)) as [->|Hne].
      * rewrite lookup_insert_eq. intros [= <-]. by cbn.
      * rewrite lookup_insert_ne by done. intros Hf.
        destruct (Hoth' a f Hne Hf) as (? & ? & _).
        destruct (Hothers a f Hne Hf) as (_ & _ & ? & _). done.
    + intros a b f g Hf Hg Hab.
      destruct (decide (a = addr)) as [->|Ha];
        destruct (decide (b = addr)) as [->|Hb]; [done | | |].
      * rewrite lookup_insert_eq in Hf. rewrite lookup_insert_ne in Hg by done.
        injection Hf as <-. cbn.
        destruct (Hothers b g Hb Hg) as (_ & _ & _ & Hne & _).
        destruct (Hoth' b g Hb Hg) as (_ & _ & Hdis).
        split; [done |]. intros x Hx Hin Hin'. by apply (Hdis x).
      * rewrite lookup_insert_eq in Hg. rewrite lookup_insert_ne in Hf by done.
        injection Hg as <-. cbn.
        destruct (Hothers a f Ha Hf) as (_ & _ & _ & Hne & _).
        destruct (Hoth' a f Ha Hf) as (_ & _ & Hdis).
        split; [done |]. intros x Hx Hin. by apply Hdis.
      * rewrite lookup_insert_ne in Hf, Hg by done. by apply (Hpair a b f g).
  - (* finished: [cleanFiber] *)
    exists own. split; cbn [cleanFiber mach fibers].
    + intros a f [Hne Hf]%lookup_delete_Some.
      assert (Ha : a ≠ addr) by done.
      destruct (Hoth' a f Ha Hf) as ((rx & tx & Hs) & Hown & _).
      destruct (Hothers a f Ha Hf) as (_ & _ & Hcl & Hfd & _).
      split_and!; [| |done].
      * exists rx, tx. by rewrite sys_close_lookup_ne.
      * intros x Hin. destruct (Hown x Hin) as [?|[ino Hino]]; [by left |].
        right. exists ino. rewrite sys_close_lookup_ne; [done |].
        intros ->. destruct Hsock' as (rx' & tx' & Hs'). congruence.
    + intros a b f g [Ha Hf]%lookup_delete_Some [Hb Hg]%lookup_delete_Some Hab.
      by apply (Hpair a b f g).
Qed.

Lemma reachable_apart fs0 fdtab0 s :
  reachable (main_init fs0 fdtab0) s → ∃ own, apart own s.
Proof.
  induction 1 as [|s i s' Hreach [own [Hone Htwo]] Hstep].
  - exists (λ _, ∅). split.
    + intros a f Hf. simpl in Hf. by rewrite lookup_empty in Hf.
    + intros a b f g Hf. simpl in Hf. by rewrite lookup_empty in Hf.
  - destruct i as [rx addr uninit|addr res| |]; unfold step in Hstep.
    + destruct (decide _) as [|Hfresh%not_elem_of_dom]; [done |].
      unfold sys_accept in Hstep.
      destruct (fd_alloc (fdtab (mach s)) (Socket rx [])) as [n t] eqn:Ealloc.
      destruct (fd_alloc_spec _ _ _ _ Ealloc) as (Hnew & Hsock & Hoth).
      destruct (acquire (available_buffers s)) as [pool available].
      apply (inj Some) in Hstep.
      eapply (next_apart own _ _ _ _ _ ∅);
        [exact Hstep | apply balanced_serve | done | by exists rx, [] | |].
      * cbn [mach fibers clientfd]. intros a f Ha Hf.
        destruct (Hone a f Hf) as ((rx' & tx' & Hs) & Hown & Hcl).
        assert (Hne : clientfd (localData f) ≠ Z.of_nat n) by congruence.
        split_and!; [| |done..].
        -- exists rx', tx'. simpl. by rewrite Hoth.
        -- intros x Hin. destruct (Hown x Hin) as [?|[ino Hino]]; [by left |].
           right. exists ino. simpl. rewrite Hoth; [done | congruence].
      * cbn [fibers]. intros a b f g _ _. apply Htwo.
    + destruct (fibers s !! addr) as [f|] eqn:Ef; [|done].
      apply (inj Some) in Hstep.
      destruct (Hone addr f Ef) as (Hs & Hown & Hcl).
      set (m0 := set_locals (saved_locals f) (mach s)) in *.
      assert (Hkeep : ∀ x,
                (is_socket (mach s) x → is_socket (complete (pending f) res m0) x) ∧
                (∀ F, owned_ok (mach s) F →
                      owned_ok (complete (pending f) res m0) F)).
      { intros x. split.
        - apply (complete_keeps (pending f) res m0 x).
        - intros F HF y Hy. destruct (HF y Hy) as [?|[ino Hino]]; [by left |].
          right. exists ino. by apply (complete_keeps (pending f) res m0 y). }
      eapply (next_apart own _ _ _ _ _ (own addr));
        [exact Hstep | apply Hcl | by apply (Hkeep 0) | by apply Hkeep | |].
      * cbn [mach fibers]. intros a g Ha Hg.
        destruct (Hone a g Hg) as (Hs' & Hown' & Hcl').
        destruct (Htwo a addr g f Hg Ef Ha) as [Hne Hdis].
        split_and!; [by apply Hkeep | by apply (Hkeep 0) | done..].
      * cbn [fibers]. intros a b g h _ _. apply Htwo.
    + injection Hstep as <-. by exists own.
    + done.
Qed.

(** X8: on every path, whatever [open] and the kernel return, [serve]
    closes only what [open] has returned to it and it has not closed yet:
    it closes no descriptor twice and none it was given, and when it
    returns it holds nothing that is still open.  Closing the connection
    is left to [cleanFiber]. *)
Theorem serve_closes_what_it_opened fiber :
  closes (λ _ F, F = ∅) ∅ (serve fiber) ∧
  ∀ filename, closes (λ _ F, F = ∅) ∅ (http_send_file fiber filename).
Proof. split; [apply balanced_serve | apply balanced_http_send_file]. Qed.

(** X9: connections do not cross.  In every state the loop can reach,
    the connection of every live fiber is open, no two fibers have the
    same [clientfd], and a write in flight is a write to the connection of
    the fiber that submitted it, at offset 0: no response, and no part of
    one, goes to the client of another fiber or to a descriptor that has
    been closed. *)
Theorem connections_do_not_cross fs fdtab s a f :
  reachable (main_init fs fdtab) s →
  fibers s !! a = Some f →
  is_socket (mach s) (clientfd (localData f)) ∧
  (sqe_op (pending f) = WRITE →
   sqe_fd (pending f) = clientfd (localData f) ∧ sqe_offset (pending f) = 0) ∧
  ∀ b g, fibers s !! b = Some g →
         clientfd (localData g) = clientfd (localData f) → b = a.
Proof.
  intros Hreach Hf.
  destruct (reachable_apart _ _ _ Hreach) as (own & Hone & Htwo).
  destruct (reachable_confined _ _ _ Hreach _ _ Hf) as [[_ Hw] _].
  split_and!; [by apply (Hone a f) | exact Hw |].
  intros b g Hg Heq. destruct (decide (b = a)) as [|Hne]; [done |].
  by destruct (Htwo b a g f Hg Hf Hne).
Qed.

Lemma connections_do_not_cross_witness :
  let s := example_accepted (lit "GET /a HTTP/1.1") in
  ∃ f, fibers s !! 1%positive = Some f ∧
       is_socket (mach s) (clientfd (localData f)).
Proof.
  intros s.
  destruct (fibers s !! 1%positive) as [f|] eqn:Hf; [|discriminate Hf].
  exists f. split; [reflexivity |].
  exact (proj1 (connections_do_not_cross example_fs _ s 1%positive f
                  (example_accepted_reachable _) Hf)).
Defined.

(** ** A read that completes short *)

Lemma mem_load_store_full p d m :
  valid_ptr p m → mem_load p (mem_store p d m) = overlay d (mem_load p m).
Proof.
  destruct p as [i|a|s]; simpl; [| |done].
  - intros Hi. apply lookup_lt_is_Some in Hi as [old Hold].
    rewrite list_lookup_alter, Hold. simpl. by rewrite decide_True.
  - intros _. by rewrite decide_True.
Qed.

(** X10: what happens when a read of the file completes with fewer bytes
    than were asked for.  The count is not looked at: the write that
    follows is submitted with the full length [n], and what it sends is
    the [r] bytes that were read followed by [n - r] bytes that were in
    the buffer before, which are not bytes of the file at that place. *)
Theorem short_read_sends_stale_bytes fiber infd ino m rx tx n offset r :
  slot_ok fiber m →
  fd_lookup (fdtab m) infd = Some (File ino) →
  fd_lookup (fdtab m) (clientfd fiber) = Some (Socket rx tx) →
  0 < r < n → n ≤ BUF_SIZE →
  0 ≤ offset → offset + r ≤ string_view.size (i_data ino) →
  n ≤ string_view.size (mem_load (file_buffer fiber) m) →
  let body := await_read fiber infd n offset;;; await_write fiber n;;; Ret tt in
  let old := mem_load (file_buffer fiber) m in
  let m1 := complete (read_sqe fiber infd offset n) r m in
  ∃ k k',
    advance body m = Suspended m (read_sqe fiber infd offset n) k ∧
    advance (k r) m1 = Suspended m1 (write_sqe fiber n) k' ∧
    full_result (write_sqe fiber n) m1 = n ∧
    sent (complete (write_sqe fiber n) n m1) (clientfd fiber) =
      tx ++ take (Z.to_nat r) (drop (Z.to_nat offset) (i_data ino)) ++
            take (Z.to_nat (n - r)) (drop (Z.to_nat r) old).
Proof.
  intros Hok Hin Hsock Hr Hn Hoff Hsize Hold body old m1.
  pose proof Hok as (Hstart & Hlen & Hp).
  set (chunk := take (Z.to_nat r) (drop (Z.to_nat offset) (i_data ino))).
  assert (Hchunk : length chunk = Z.to_nat r).
  { unfold chunk, string_view.size in *. rewrite length_take, length_drop. lia. }
  (* the machine after the read *)
  assert (Hm1 : m1 = mem_store (file_buffer fiber) chunk m).
  { unfold m1, complete. rewrite (read_sqe_ranges fiber infd m n offset Hok).
    replace (sqe_fd (read_sqe fiber infd offset n)) with infd
      by (unfold read_sqe; by destruct (pool_ptr fiber)).
    replace (sqe_op (read_sqe fiber infd offset n)) with READ
      by (unfold read_sqe; by destruct (pool_ptr fiber)).
    replace (sqe_offset (read_sqe fiber infd offset n)) with offset
      by (unfold read_sqe; by destruct (pool_ptr fiber)).
    rewrite Hin. destruct (Z.leb_spec r 0); [lia |].
    cbn [scatter readable iov_len iov_base]. fold chunk.
    rewrite take_ge by lia. done. }
  destruct (mem_store_kernel (file_buffer fiber) chunk m) as (Hfs1 & Ht1 & Hb1).
  rewrite <- Hm1 in Hfs1, Ht1, Hb1.
  assert (Hok1 : slot_ok fiber m1) by (split_and!; [done | congruence | done]).
  (* what the write takes from the buffer *)
  assert (Hd : take (Z.to_nat n) (mem_load (file_buffer fiber) m1) =
               chunk ++ take (Z.to_nat (n - r)) (drop (Z.to_nat r) old)).
  { rewrite Hm1, mem_load_store_full by (by apply file_buffer_valid).
    unfold overlay. fold old. rewrite take_app, Hchunk.
    rewrite take_ge by lia. do 2 f_equal. lia. }
  pose proof (write_sqe_ranges fiber m1 n Hok1) as Hw.
  assert (Hwfd : sqe_fd (write_sqe fiber n) = clientfd fiber).
  { unfold write_sqe. by destruct (pool_ptr fiber). }
  assert (Hwop : sqe_op (write_sqe fiber n) = WRITE).
  { unfold write_sqe. by destruct (pool_ptr fiber). }
  destruct (write_socket_full _ m1 _ _ Hw rx tx Hwop) as [Hres2 Hcomp2].
  { by rewrite Hwfd, Ht1. }
  rewrite Hd in Hres2, Hcomp2.
  assert (Hsz : string_view.size
                  (chunk ++ take (Z.to_nat (n - r)) (drop (Z.to_nat r) old))
                = n).
  { unfold string_view.size in *.
    rewrite length_app, length_take, length_drop, Hchunk. fold old in Hold.
    lia. }
  rewrite Hsz in Hres2, Hcomp2.
  eexists _, _. split_and!.
  - unfold body. rewrite await_read_sqe by (done || lia). reflexivity.
  - cbn beta. destruct (Z.leb_spec r 0); [lia |]. cbn [bind].
    rewrite await_write_sqe by (done || lia). reflexivity.
  - exact Hres2.
  - rewrite Hcomp2.
    + unfold sent. cbn [fdtab set_fdtab]. rewrite Hwfd.
      erewrite fd_lookup_set_eq; [done |]. by rewrite Ht1.
    + intros E. apply (f_equal length) in E.
      rewrite length_app, Hchunk in E. simpl in E. lia.
Qed.

Lemma short_read_sends_stale_bytes_witness :
  let fiber := example_fiber (Some 0%nat) in
  let m1 := complete (read_sqe fiber 6 0 5) 2 example_sending in
  full_result (write_sqe fiber 5) m1 = 5 ∧
  sent (complete (write_sqe fiber 5) 5 m1) 5 = lit "he" ++ [NUL; NUL; NUL].
Proof.
  intros fiber m1.
  destruct (short_read_sends_stale_bytes fiber 6 (example_file (lit "hello"))
              example_sending (lit "GET /a HTTP/1.1") [] 5 0 2)
    as (k & k' & _ & _ & Hres & Hsent).
  - split_and!; [reflexivity.. |]. intros p [= <-]. unfold POOL_SLOTS. lia.
  - reflexivity.
  - reflexivity.
  - lia.
  - unfold BUF_SIZE. lia.
  - lia.
  - unfold string_view.size. simpl. lia.
  - unfold string_view.size. simpl. lia.
  - split; [exact Hres |].
    change 5 with (clientfd fiber) at 3. unfold m1. rewrite Hsent. reflexivity.
Defined.

(** ** What a connection receives *)

(** A completion adds to what was sent on a connection the bytes it
    wrote there. *)
Lemma written_sent fd q res m :
  sent (complete q res m) fd = sent m fd ++ written fd q res m.
Proof.
  unfold complete, written, sent.
  destruct (sqe_ranges q m) as [ioves|];
    [|destruct (sqe_op q); by rewrite app_nil_r].
  destruct (fd_lookup (fdtab m) (sqe_fd q)) as [f|] eqn:Efd;
    [|destruct (sqe_op q); by rewrite app_nil_r].
  assert (Hset : ∀ rx tx rx' tx',
            f = Socket rx tx →
            match fd_lookup (fd_set (fdtab m) (sqe_fd q)
                               (Some (Socket rx' tx'))) fd with
            | Some (Socket _ t) => t
            | _ => []
            end =
            if decide (sqe_fd q = fd) then tx'
            else match fd_lookup (fdtab m) fd with
                 | Some (Socket _ t) => t
                 | _ => []
                 end).
  { intros rx tx rx' tx' ->. destruct (decide (sqe_fd q = fd)) as [<-|Hne].
    - by erewrite fd_lookup_set_eq.
    - by rewrite fd_lookup_set_ne. }
  destruct (Z.leb_spec res 0) as [Hle|Hpos].
  { destruct (sqe_op q), f; try (by rewrite app_nil_r).
    destruct (decide _); by rewrite app_nil_r. }
  destruct (sqe_op q), f as [ino|rx tx|]; rewrite ?scatter_fdtab;
    cbn [fdtab set_fdtab]; try (by rewrite app_nil_r).
  - rewrite (Hset rx tx) by done.
    destruct (decide (sqe_fd q = fd)) as [<-|Hne]; [|by rewrite app_nil_r].
    by rewrite Efd, app_nil_r.
  - rewrite (Hset rx tx) by done.
    destruct (decide (sqe_fd q = fd)) as [<-|Hne]; [|by rewrite app_nil_r].
    by rewrite Efd.
Qed.

(** [open], for a body that holds [F]. *)
Lemma sys_open_keeps path m x m' F :
  sys_open path m = (x, m') → owned_ok m F →
  owned_ok m' ({[x]} ∪ F) ∧
  ∀ y, is_Some (fd_lookup (fdtab m) y) →
       fd_lookup (fdtab m') y = fd_lookup (fdtab m) y.
Proof.
  intros Hopen Hown. destruct (fs m (c_str path)) as [ino|] eqn:Efs.
  - destruct (sys_open_found path m ino Efs)
      as (infd & m1 & Hopen' & Hpos & Hfree & Hfile & Hoth & _).
    rewrite Hopen' in Hopen. injection Hopen as <- <-.
    assert (Hsame : ∀ y, is_Some (fd_lookup (fdtab m) y) →
              fd_lookup (fdtab m1) y = fd_lookup (fdtab m) y).
    { intros y Hy. apply Hoth. intros ->. rewrite Hfree in Hy.
      by destruct Hy. }
    split; [|done].
    intros y [->%elem_of_singleton|Hy]%elem_of_union; [right; eauto |].
    destruct (Hown y Hy) as [?|[ino' Hy']]; [by left |]. right.
    exists ino'. rewrite Hsame; [done | by rewrite Hy'].
  - unfold sys_open in Hopen. rewrite Efs in Hopen. injection Hopen as <- <-.
    split; [|done].
    intros y [->%elem_of_singleton|Hy]%elem_of_union; [left; lia |].
    by apply Hown.
Qed.

(** On a connection that stays open, what [exec] leaves as sent is what
    was sent before and what the body put on the wire. *)
Lemma exec_wire {A : Type} (Q : A → gset Z → Prop) F (c : coro A) fd m :
  closes Q F c → owned_ok m F → is_socket m fd →
  sent (final (exec c m)) fd = sent m fd ++ wire fd c m.
Proof.
  intros Hc. revert m.
  induction Hc as [F a Ha|F e|F s k Hk IH|F path k Hk IH|F x k Hk IH
                   |F x k Hx Hk IH|F p k Hk IH|F msg k Hk IH];
    intros m Hown Hsock; simpl; try (by apply IH); try (by rewrite app_nil_r).
  - (* an entry *)
    rewrite IH, written_sent, app_assoc; [done | |].
    + intros y Hy. destruct (Hown y Hy) as [?|[ino Hino]]; [by left |].
      right. exists ino. by apply complete_keeps.
    + by apply complete_keeps.
  - (* open *)
    destruct (sys_open path m) as [x m'] eqn:Eopen.
    destruct (sys_open_keeps path m x m' F Eopen Hown) as [Hown' Hsame].
    assert (Hfd : fd_lookup (fdtab m') fd = fd_lookup (fdtab m) fd).
    { apply Hsame. destruct Hsock as (rx & tx & ->). eauto. }
    simpl. rewrite IH; [by unfold sent; rewrite Hfd | done |].
    unfold is_socket. by rewrite Hfd.
  - (* close *)
    assert (Hne : fd ≠ x).
    { intros ->. by apply (owned_not_socket m F x). }
    assert (Hfd : fd_lookup (fdtab (sys_close x m)) fd
                  = fd_lookup (fdtab m) fd) by (by apply sys_close_lookup_ne).
    rewrite IH; [by unfold sent; rewrite Hfd | |].
    + intros y [Hy Hyx%not_elem_of_singleton]%elem_of_difference.
      rewrite sys_close_lookup_ne by done. by apply Hown.
    + unfold is_socket. by rewrite Hfd.
Qed.

(** A fiber alone, as [next_drives], with what its connection receives. *)
Lemma next_delivers addr fiber (c : coro unit) : ∀ m available flist,
  let r := exec c m in
  delivers addr (submitted (calls r)) (wire (clientfd fiber) c m)
    (next addr fiber c
       {| mach := m; available_buffers := available; fibers := flist |})
    (match result r with
     | inr _ =>
         Running (cleanFiber addr fiber
                    {| mach := final r; available_buffers := available;
                       fibers := flist |})
     | inl e => Terminated e
     end).
Proof.
  induction c as [a|e|q k IH|path k IH|fd k IH|fd k IH|p k IH|msg k IH];
    intros m available flist; simpl.
  - destruct a. apply delivers_refl.
  - apply delivers_refl.
  - unfold next. cbn [advance mach available_buffers fibers].
    set (f := {| localData := fiber; saved_locals := locals m; pending := q;
                 continuation := k |}).
    pose proof (delivers_step addr
                  {| mach := m; available_buffers := available;
                     fibers := <[addr := f]> flist |} f) as Hstep.
    cbn [f pending saved_locals continuation localData mach
           available_buffers fibers] in Hstep.
    rewrite set_locals_id in Hstep. eapply Hstep; clear Hstep.
    + apply lookup_insert_eq.
    + unfold step. cbn [fibers]. rewrite lookup_insert_eq. reflexivity.
    + cbn [f pending saved_locals continuation localData mach
             available_buffers fibers].
      rewrite set_locals_id.
      specialize (IH (full_result q m) (complete q (full_result q m) m)
                     available (<[addr := f]> flist)).
      cbn zeta in IH.
      replace (cleanFiber addr fiber
                 {| mach := final (exec (k (full_result q m))
                                     (complete q (full_result q m) m));
                    available_buffers := available;
                    fibers := <[addr := f]> flist |})
        with (cleanFiber addr fiber
                {| mach := final (exec (k (full_result q m))
                                    (complete q (full_result q m) m));
                   available_buffers := available;
                   fibers := flist |}) in IH.
      { exact IH. }
      unfold cleanFiber. cbn [mach available_buffers fibers].
      by rewrite delete_insert_eq.
  - unfold next in *. cbn [advance mach available_buffers fibers] in *.
    destruct (sys_open path m) as [fd m']. apply IH.
  - unfold next in *. cbn [advance mach available_buffers fibers] in *.
    apply IH.
  - unfold next in *. cbn [advance mach available_buffers fibers] in *.
    apply IH.
  - unfold next in *. cbn [advance mach available_buffers fibers] in *.
    apply IH.
  - unfold next in *. cbn [advance mach available_buffers fibers] in *.
    apply IH.
Qed.

(** A connection from [accept] to [cleanFiber], driven alone: what it
    receives is the answer of the code to the bytes its view shows, and
    then nothing of it is left in the process. *)
Lemma accept_served fs0 fdtab0 s rx addr uninit :
  reachable (main_init fs0 fdtab0) s →
  fibers s !! addr = None →
  rx ≠ [] →
  ∃ fiber m1 s1,
    step (accept_ok rx addr uninit) s = Some (Running s1) ∧
    pool_ptr fiber = (acquire (available_buffers s)).1 ∧
    locals m1 = uninit ∧
    ((take 3 (request_view fiber m1 rx) = lit "GET" →
      4 ≤ string_view.size (request_view fiber m1 rx)) →
     ∃ qs s2,
       delivers addr qs
         (http_response (fs (mach s)) (request_view fiber m1 rx))
         (Running s1) (Running s2) ∧
       (pool_ptr fiber = None → Forall (λ q, is_fixed q = false) qs) ∧
       fibers s2 = fibers s ∧
       available_buffers s2 = available_buffers s ∧
       ∀ fd, fd_lookup (fdtab (mach s2)) fd = fd_lookup (fdtab (mach s)) fd).
Proof.
  intros Hreach Hfresh Hrx.
  destruct (accept_connected _ _ s rx addr uninit Hreach Hfresh)
    as (fiber & m1 & Hstep & Hpool & Hfd & Hloc & Hconn & Hfs & Hnew & Hoth).
  destruct (step_accept s rx addr uninit Hfresh) as (s1 & f & Hstep1 & _).
  exists fiber, m1, s1. split_and!; [done.. |]. intros Hlen.
  destruct (exec_serve fiber m1 rx [] Hconn Hrx Hlen)
    as (cs & m' & Hex & Hsent & Hoth' & _ & Hunfixed).
  assert (Hwire : wire (clientfd fiber) (serve fiber) m1 =
                  http_response (fs (mach s)) (request_view fiber m1 rx)).
  { pose proof (exec_wire _ ∅ (serve fiber) (clientfd fiber) m1
                  (balanced_serve fiber)) as Hw.
    destruct Hconn as [Hsock _].
    rewrite Hex in Hw. simpl in Hw.
    rewrite (sent_lookup _ _ _ _ Hsent), (sent_lookup _ _ _ _ Hsock) in Hw.
    rewrite <- Hfs. symmetry. apply Hw; [done |]. by exists rx, []. }
  pose proof (next_delivers addr fiber (serve fiber) m1
                (acquire (available_buffers s)).2 (fibers s)) as Hdel.
  cbn zeta in Hdel. rewrite Hex, Hwire in Hdel.
  cbn [calls result final] in Hdel.
  rewrite Hstep1 in Hstep. apply (inj Some) in Hstep. rewrite <- Hstep in Hdel.
  destruct (sys_close_open _ _ _ Hsent) as (Hc1 & Hc2 & _).
  eexists (submitted cs), _. split_and!; [exact Hdel | done | ..].
  - simpl. by apply delete_id.
  - simpl. rewrite Hpool.
    destruct (acquire_spec (available_buffers s)) as [[_ Ha]|(_ & Hin & Ha)];
      rewrite Ha; simpl; [done |].
    apply set_eq. intros x. rewrite elem_of_union, elem_of_difference,
      elem_of_singleton.
    destruct (decide (x = begin (available_buffers s))) as [->|]; naive_solver.
  - intros fd. simpl. destruct (decide (fd = clientfd fiber)) as [->|Hne].
    + by rewrite Hc1, Hnew.
    + by rewrite Hc2, Hoth', Hoth.
Qed.

(** C5: taking a buffer never waits, and a connection without a slot is
    carried to its end.  When the free set is empty at [accept], the
    iteration goes through at once: the new fiber has a null [pool_ptr]
    and is suspended in the plain [readv] of its request, and nothing was
    taken from the pool.  Driven by its completions it submits [readv] and
    [writev] entries only, never a fixed one, receives an answer, and is
    cleaned up while the loop runs on.  The answer is the one for the
    bytes [buf_view] shows, and in this fiber the view dangles: they are
    the bytes of the storage that was [buffer]'s, not the request. *)
Theorem exhausted_pool_still_served fs0 fdtab0 s rx addr uninit :
  reachable (main_init fs0 fdtab0) s →
  available_buffers s = ∅ →
  fibers s !! addr = None →
  rx ≠ [] →
  let view := take (length (first_chunk rx)) (uninit dangling) in
  (take 3 view = lit "GET" → 4 ≤ string_view.size view) →
  ∃ s1 f,
    step (accept_ok rx addr uninit) s = Some (Running s1) ∧
    fibers s1 !! addr = Some f ∧
    pool_ptr (localData f) = None ∧
    pending f = prep_v READ (clientfd (localData f)) [to_iov_array buffer] 1 0 ∧
    available_buffers s1 = ∅ ∧
    ∃ qs s2,
      delivers addr qs (http_response (fs (mach s)) view)
        (Running s1) (Running s2) ∧
      Forall (λ q, is_fixed q = false) qs ∧
      fibers s2 = fibers s ∧
      available_buffers s2 = ∅.
Proof.
  intros Hreach Hempty Hfresh Hrx view Hlen.
  destruct (step_accept s rx addr uninit Hfresh)
    as (s1 & f & Hstep & Hf & Hld & Hav & _ & _ & Hpend).
  assert (Hacq : acquire (available_buffers s) = (None, ∅)).
  { unfold acquire. by rewrite decide_True, Hempty. }
  rewrite Hacq in Hld, Hav. cbn [fst snd] in Hld, Hav.
  assert (Hpool : pool_ptr (localData f) = None) by (by rewrite Hld).
  destruct (accept_served _ _ s rx addr uninit Hreach Hfresh Hrx)
    as (fiber & m1 & s1' & Hstep' & Hpool' & Hloc & Hserved).
  rewrite Hstep in Hstep'. injection Hstep' as <-.
  rewrite Hacq in Hpool'. cbn [fst] in Hpool'.
  assert (Hview : request_view fiber m1 rx = view).
  { unfold request_view. by rewrite Hpool', Hloc. }
  rewrite Hview in Hserved.
  destruct (Hserved Hlen) as (qs & s2 & Hdel & Hunfixed & Hfib & Hav2 & _).
  exists s1, f. split_and!; try done.
  - rewrite Hf. apply lookup_insert_eq.
  - rewrite (Hpend Hpool). unfold request_sqe. by rewrite Hpool.
  - exists qs, s2. split_and!; [done | by apply Hunfixed | done |].
    by rewrite Hav2.
Qed.

(** An input on which this goes wrong: the pool is exhausted, a
    thirteenth connection asks for the regular file [/a] with
    "GET /a HTTP/1.1", and the storage its view dangles into holds other
    bytes.  The specification answers with the file; the connection
    receives the 404 response. *)
Lemma exhausted_pool_still_served_witness :
  let rx := lit "GET /a HTTP/1.1" in
  spec_response example_fs (first_chunk rx) = response_200 (lit "hello") ∧
  ∃ s1 f,
    step (accept_ok rx 13%positive example_stack) example_exhausted
      = Some (Running s1) ∧
    fibers s1 !! 13%positive = Some f ∧
    pool_ptr (localData f) = None ∧
    ∃ qs s2,
      delivers 13%positive qs response_404 (Running s1) (Running s2) ∧
      Forall (λ q, is_fixed q = false) qs.
Proof.
  intros rx. split; [reflexivity |].
  destruct (exhausted_pool_still_served example_fs _ example_exhausted
              rx 13%positive example_stack example_exhausted_reachable)
    as (s1 & f & Hstep & Hf & Hp & _ & _ & qs & s2 & Hd & Hq & _).
  - reflexivity.
  - reflexivity.
  - intros [=].
  - intros _. unfold string_view.size. simpl. lia.
  - exists s1, f. split; [exact Hstep |]. split; [exact Hf |].
    split; [exact Hp |]. exists qs, s2. split; [exact Hd | exact Hq].
Defined.


